(** * Policy/Permission Simulator endpoint: a shallow embedding

    The development follows the endpoint source of the Directus extension
    (the [simulate] route and its helper functions):

    - [buildHints]                    the result differ,
    - [buildSimulatedAccountability]  the accountability builder,
    - [extractForbiddenFields]        the forbidden-field extractor,
    - [stripFieldsFromQuery]          the query mutator,
    - [simulate]                      the POST /simulate handler.

    JavaScript values are an inductive type; an object is the list of its
    own enumerable properties in the order [Object.keys] lists them.  A
    string is a sequence of code units, here [ascii], so the model covers
    the code units 0..255. *)

From Stdlib Require Import List String Ascii Bool ZArith Arith Lia.
From Stdlib Require Import DecimalString.
Import ListNotations.
Open Scope string_scope.
Open Scope list_scope.

Set Implicit Arguments.
Set Warnings "-register-all".

(* ------------------------------------------------------------------ *)
(** * JavaScript values *)

Module JS.

(** Numbers are never computed with by the endpoint: they are only
    tested for truthiness and compared with [null]. *)
Inductive value : Type :=
| Undefined
| Null
| Bool (b : bool)
| Num (n : Z)
| Str (s : string)
| Arr (items : list value)
| Obj (props : list (string * value)).

Definition is_nullish (v : value) : bool :=
  match v with Undefined | Null => true | _ => false end.

(** [a ?? b] *)
Definition nullish_or (a b : value) : value :=
  if is_nullish a then b else a.

(** ToBoolean *)
Definition truthy (v : value) : bool :=
  match v with
  | Undefined | Null => false
  | Bool b => b
  | Num n => negb (Z.eqb n 0)
  | Str s => negb (String.eqb s "")
  | Arr _ | Obj _ => true
  end.

(** [typeof v === 'object'] *)
Definition typeof_object (v : value) : bool :=
  match v with Null | Arr _ | Obj _ => true | _ => false end.

(** [typeof v === 'string'] *)
Definition typeof_string (v : value) : bool :=
  match v with Str _ => true | _ => false end.

Definition is_array (v : value) : bool :=
  match v with Arr _ => true | _ => false end.

(** [v === null] *)
Definition is_null (v : value) : bool :=
  match v with Null => true | _ => false end.

(** [v === s] for a string literal [s] (also SameValueZero, which
    [Array.prototype.includes] uses: on strings the two agree). *)
Definition str_eq (v : value) (s : string) : bool :=
  match v with Str t => String.eqb t s | _ => false end.

Fixpoint assoc (k : string) (ps : list (string * value)) : option value :=
  match ps with
  | [] => None
  | (k', v) :: ps' => if String.eqb k' k then Some v else assoc k ps'
  end.

(** [{ ...o, k: v }] on the own properties of [o]: an existing key keeps
    its place, a new key goes last. *)
Fixpoint assoc_set (k : string) (v : value) (ps : list (string * value))
  : list (string * value) :=
  match ps with
  | [] => [(k, v)]
  | (k', v') :: ps' =>
      if String.eqb k' k then (k, v) :: ps' else (k', v') :: assoc_set k v ps'
  end.

Definition index_key (i : nat) : string :=
  NilEmpty.string_of_uint (Nat.to_uint i).

(** [Object.keys(v)] for a value with [typeof v === 'object'], not null. *)
Definition keys (v : value) : list string :=
  match v with
  | Obj ps => map fst ps
  | Arr items => map index_key (seq 0 (List.length items))
  | _ => []
  end.

Fixpoint assoc_index (k : string) (i : nat) (items : list value) : option value :=
  match items with
  | [] => None
  | v :: items' =>
      if String.eqb (index_key i) k then Some v else assoc_index k (S i) items'
  end.

(** The own property [k] of [v], when there is one. *)
Definition get_own (v : value) (k : string) : option value :=
  match v with
  | Obj ps => assoc k ps
  | Arr items => assoc_index k 0 items
  | _ => None
  end.

(** [v.k] read as a data property (no own property: [undefined]; the
    endpoint only reads [fields] this way, which no prototype has). *)
Definition get (v : value) (k : string) : value :=
  match get_own v k with Some x => x | None => Undefined end.

(** Property names of [Object.prototype]. *)
Definition object_prototype : list string :=
  [ "constructor"; "__defineGetter__"; "__defineSetter__"; "hasOwnProperty";
    "__lookupGetter__"; "__lookupSetter__"; "isPrototypeOf";
    "propertyIsEnumerable"; "toString"; "valueOf"; "__proto__";
    "toLocaleString" ].

(** Property names of [Array.prototype], and the own [length]. *)
Definition array_prototype : list string :=
  [ "length"; "at"; "concat"; "copyWithin"; "fill"; "find"; "findIndex";
    "findLast"; "findLastIndex"; "lastIndexOf"; "pop"; "push"; "reverse";
    "shift"; "unshift"; "slice"; "sort"; "splice"; "includes"; "indexOf";
    "join"; "keys"; "entries"; "values"; "forEach"; "filter"; "flat";
    "flatMap"; "map"; "every"; "some"; "reduce"; "reduceRight";
    "toReversed"; "toSorted"; "toSpliced"; "with" ].

Definition mem (k : string) (l : list string) : bool :=
  existsb (String.eqb k) l.

(** Names [v] answers to without having them among its keys; every one
    of them holds a function, a number or an object, never [null]. *)
Definition inherited (v : value) (k : string) : bool :=
  match v with
  | Obj _ => mem k object_prototype
  | Arr _ => mem k array_prototype || mem k object_prototype
  | _ => false
  end.

(** [k in v] *)
Definition has_property (v : value) (k : string) : bool :=
  match get_own v k with
  | Some _ => true
  | None => inherited v k
  end.

End JS.

Import JS.

(* ------------------------------------------------------------------ *)
(** * Result differ *)

Inductive HintType := missing | null.

Record Hint := mkHint { field : string; type : HintType; note : string }.

Definition note_no_row : string :=
  "Field not returned for simulated context (may be restricted by permissions or query).".
Definition note_missing : string :=
  "Missing in simulated response (often indicates field/relational access restriction).".
Definition note_null : string :=
  "Returned as null in simulated response while requester sees a value (often indicates field-level restriction).".

(** [getFirstItem]: the first row, or [null]. *)
Definition getFirstItem (items : list value) : value :=
  match items with
  | [] => Null
  | x :: _ => x
  end.

(** One turn of the [for (const key of Object.keys(requester))] loop:
    the hints it pushes. *)
Definition hint_for (requester simulated : value) (key : string) : list Hint :=
  if negb (has_property simulated key) then
    [mkHint key missing note_missing]
  else
    match get_own simulated key with
    | Some sv =>
        if is_null sv && negb (is_null (get requester key))
        then [mkHint key null note_null]
        else []
    | None => []
    end.

Definition buildHints (requesterItem simulatedItem : value) : list Hint :=
  if negb (truthy requesterItem) || negb (typeof_object requesterItem) then []
  else if negb (truthy simulatedItem) || negb (typeof_object simulatedItem) then
    map (fun key => mkHint key missing note_no_row) (keys requesterItem)
  else
    flat_map (hint_for requesterItem simulatedItem) (keys requesterItem).


(* ------------------------------------------------------------------ *)
(** * Accountability builder *)

(** An accountability is the JavaScript object the request carries
    ([user], [role], [roles], [admin], [app], [ip], ...). *)
Definition Accountability := value.

(** The [overrides] argument: [None] is a key that is not [in] the
    object, [Some v] a key that is, with its value. *)
Record Overrides := mkOverrides {
  o_user : option value;
  o_role : option value;
  o_admin : option value;
  o_app : option value
}.

Fixpoint chars_from (i : nat) (s : string) : list (string * value) :=
  match s with
  | EmptyString => []
  | String c s' => (index_key i, Str (String c EmptyString)) :: chars_from (S i) s'
  end.

(** The own enumerable properties an object spread [{ ...v }] copies. *)
Definition spread (v : value) : list (string * value) :=
  match v with
  | Obj ps => ps
  | Arr items => combine (map index_key (seq 0 (List.length items))) items
  | Str s => chars_from 0 s
  | _ => []
  end.

(** [if (k in overrides) next.k = overrides.k ?? dflt] *)
Definition apply_override (k : string) (o : option value) (dflt : value)
  (next : list (string * value)) : list (string * value) :=
  match o with
  | Some v => assoc_set k (nullish_or v dflt) next
  | None => next
  end.

Definition buildSimulatedAccountability (base : Accountability) (overrides : Overrides)
  : Accountability :=
  let next := spread (nullish_or base (Obj [])) in
  let next := apply_override "user" (o_user overrides) Null next in
  let next := apply_override "role" (o_role overrides) Null next in
  let next := apply_override "admin" (o_admin overrides) (Bool false) next in
  let next := apply_override "app" (o_app overrides) (Bool true) next in
  let role := get (Obj next) "role" in
  if truthy role then Obj (assoc_set "roles" (Arr [role]) next)
  else if negb (is_array (get (Obj next) "roles")) then Obj (assoc_set "roles" (Arr []) next)
  else Obj next.

(** The overrides of the three simulating modes of the handler. *)
Definition public_overrides : Overrides :=
  mkOverrides (Some Null) (Some Null) (Some (Bool false)) (Some (Bool true)).

Definition role_overrides (roleId : value) : Overrides :=
  mkOverrides (Some Null) (Some roleId) (Some (Bool false)) (Some (Bool true)).

Definition user_overrides (userId resolvedRoleId : value) : Overrides :=
  mkOverrides (Some userId) (Some resolvedRoleId) (Some (Bool false)) (Some (Bool true)).

(* ------------------------------------------------------------------ *)
(** * Query mutator *)

Record StripResult := mkStrip {
  nextQuery : value;
  removedFields : list string;
  removedWildcard : bool
}.

(** One turn of [for (const forbidden of forbiddenFields)]. *)
Definition strip_step (st : list value * list string) (forbidden : string)
  : list value * list string :=
  let (nextFields, removed) := st in
  let beforeLen := List.length nextFields in
  let nextFields := filter (fun f => negb (str_eq f forbidden)) nextFields in
  if negb (Nat.eqb (List.length nextFields) beforeLen)
  then (nextFields, removed ++ [forbidden])
  else (nextFields, removed).

(** [f === '*'] *)
Definition is_wildcard (f : value) : bool := str_eq f "*".

Definition unchanged (query : value) : StripResult :=
  mkStrip query [] false.

(** [{ ...(q ?? {}), fields: nextFields }] *)
Definition with_fields (q : value) (nextFields : list value) : value :=
  Obj (assoc_set "fields" (Arr nextFields) (spread (nullish_or q (Obj [])))).

Definition stripFieldsFromQuery (query : value) (forbiddenFields : list string)
  : StripResult :=
  if negb (truthy query) || negb (typeof_object query) then unchanged query
  else
    match get query "fields" with
    | Arr originalFields =>
        if Nat.eqb (List.length forbiddenFields) 0 then unchanged query
        else
          let hasWildcard := existsb is_wildcard originalFields in
          let withoutWildcard := filter (fun f => negb (is_wildcard f)) originalFields in
          if hasWildcard && Nat.eqb (List.length withoutWildcard) 0 then unchanged query
          else
            let nextFields := if hasWildcard then withoutWildcard else originalFields in
            let removedWildcard := hasWildcard in
            let (nextFields, removedFields) :=
              fold_left strip_step forbiddenFields (nextFields, []) in
            if removedWildcard || negb (Nat.eqb (List.length removedFields) 0)
            then mkStrip (with_fields query nextFields) removedFields removedWildcard
            else unchanged query
    | _ => unchanged query
    end.

(* ------------------------------------------------------------------ *)
(** * Regular expressions, as the JavaScript engine runs them *)

Module Regex.

(** The pattern syntax the endpoint uses: literals, the classes of white
    space and of everything but a double quote, sequence, the greedy
    quantifiers and one capturing group. *)
Inductive re : Type :=
| Eps
| Chr (c : ascii)
| Cls (p : ascii -> bool)
| Seq (r1 r2 : re)
| Star (r : re)
| Opt (r : re)
| Group (r : re).

Definition Plus (r : re) : re := Seq r (Star r).

Fixpoint lit (s : string) : re :=
  match s with
  | EmptyString => Eps
  | String c EmptyString => Chr c
  | String c s' => Seq (Chr c) (lit s')
  end.

(** Canonicalize of the [i] flag.  The patterns hold ASCII literals only,
    and no code unit above 127 canonicalizes to an ASCII one, so folding
    the ASCII letters decides every comparison with a literal. *)
Definition canonicalize (c : ascii) : ascii :=
  let n := nat_of_ascii c in
  if (97 <=? n)%nat && (n <=? 122)%nat then ascii_of_nat (n - 32) else c.

Definition chr_eq (icase : bool) (c d : ascii) : bool :=
  if icase then Ascii.eqb (canonicalize c) (canonicalize d) else Ascii.eqb c d.

(** [\s] on the code units 0..255: TAB, LF, VT, FF, CR, SP and NBSP. *)
Definition is_space (c : ascii) : bool :=
  let n := nat_of_ascii c in
  ((9 <=? n)%nat && (n <=? 13)%nat) || (n =? 32)%nat || (n =? 160)%nat.

(** The double quote, code unit 34. *)
Definition dquote : ascii := ascii_of_nat 34.

Definition not_quote (c : ascii) : bool := negb (Ascii.eqb c dquote).

Section Matcher.

Variable R : Type.
Variable icase : bool.

(** The captured text of group 1, [None] while the group has not matched. *)
Definition capture := option (list ascii).

Definition cont : Type := list ascii -> capture -> option R.

(** The turns of a greedy star whose body is run by [step]: one more
    turn first, the continuation when that fails.  A turn that consumes
    nothing is rejected, as the engine does, so the length of the text
    is fuel enough. *)
Fixpoint star_loop (step : list ascii -> capture -> cont -> option R) (k : cont)
  (fuel : nat) (s : list ascii) (cap : capture) {struct fuel} : option R :=
  match fuel with
  | O => k s cap
  | S fuel' =>
      match step s cap
              (fun s' cap' =>
                 if (List.length s' <? List.length s)%nat
                 then star_loop step k fuel' s' cap' else None) with
      | Some x => Some x
      | None => k s cap
      end
  end.

(** Backtracking matcher in continuation style: [rmatch r s cap k] tries
    the alternatives of [r] at the front of [s] in the engine's order
    (greedy first) and hands each rest to [k] until [k] succeeds. *)
Fixpoint rmatch (r : re) (s : list ascii) (cap : capture) (k : cont) {struct r}
  : option R :=
  match r with
  | Eps => k s cap
  | Chr c =>
      match s with
      | d :: s' => if chr_eq icase c d then k s' cap else None
      | [] => None
      end
  | Cls p =>
      match s with
      | d :: s' => if p d then k s' cap else None
      | [] => None
      end
  | Seq r1 r2 => rmatch r1 s cap (fun s' cap' => rmatch r2 s' cap' k)
  | Star r' => star_loop (rmatch r') k (List.length s) s cap
  | Opt r' =>
      match rmatch r' s cap k with
      | Some x => Some x
      | None => k s cap
      end
  | Group r' =>
      rmatch r' s cap
        (fun s' _ => k s' (Some (firstn (List.length s - List.length s') s)))
  end.

End Matcher.

(** The texts a pattern matches, whatever the order the engine tries
    them in. *)
Inductive matches (icase : bool) : re -> list ascii -> Prop :=
| MEps : matches icase Eps []
| MChr c d : chr_eq icase c d = true -> matches icase (Chr c) [d]
| MCls (p : ascii -> bool) d : p d = true -> matches icase (Cls p) [d]
| MSeq r1 r2 s1 s2 :
    matches icase r1 s1 -> matches icase r2 s2 -> matches icase (Seq r1 r2) (s1 ++ s2)
| MStarNil r : matches icase (Star r) []
| MStarCons r s1 s2 :
    matches icase r s1 -> matches icase (Star r) s2 -> matches icase (Star r) (s1 ++ s2)
| MOptNone r : matches icase (Opt r) []
| MOptSome r s : matches icase r s -> matches icase (Opt r) s
| MGroup r s : matches icase r s -> matches icase (Group r) s.

(** Some part of [s] matches [r]. *)
Definition occurs (icase : bool) (r : re) (s : list ascii) : Prop :=
  exists pre mid post, s = pre ++ mid ++ post /\ matches icase r mid.

(** A match: the matched text, group 1 and the text after the match. *)
Record MatchResult := mkMatch {
  matched : list ascii;
  group1 : capture;
  rest : list ascii
}.

Definition match_here (icase : bool) (r : re) (s : list ascii) : option MatchResult :=
  rmatch icase r s None
    (fun s' cap => Some (mkMatch (firstn (List.length s - List.length s') s) cap s')).

(** [RegExp.prototype.exec] without the [g] flag: the leftmost match. *)
Fixpoint exec (icase : bool) (r : re) (s : list ascii) : option MatchResult :=
  match match_here icase r s with
  | Some m => Some m
  | None =>
      match s with
      | [] => None
      | _ :: s' => exec icase r s'
      end
  end.

(** [String.prototype.matchAll] with the [g] flag: the successive matches,
    each search resuming where the last match ended (one code unit
    further after an empty match). *)
Fixpoint matchAll_from (fuel : nat) (icase : bool) (r : re) (s : list ascii)
  : list MatchResult :=
  match fuel with
  | O => []
  | S fuel' =>
      match exec icase r s with
      | None => []
      | Some m =>
          m :: match matched m, rest m with
               | [], [] => []
               | [], _ :: s' => matchAll_from fuel' icase r s'
               | _ :: _, s' => matchAll_from fuel' icase r s'
               end
      end
  end.

Definition matchAll (icase : bool) (r : re) (s : list ascii) : list MatchResult :=
  matchAll_from (S (List.length s)) icase r s.

End Regex.

(* ------------------------------------------------------------------ *)
(** * Forbidden-field extractor *)

Import Regex.

(** A quoted token: a double quote, one or more code units that are not
    one, a double quote. *)
Definition quoted : re := Seq (Chr dquote) (Seq (Plus (Cls not_quote)) (Chr dquote)).

(** The multi-field pattern, flag [i]: [access field], an optional [s],
    white space, then as group 1 a list of quoted tokens separated by
    commas (white space allowed around each comma), white space and
    [in collection]. *)
Definition multi_re : re :=
  Seq (lit "access field")
    (Seq (Opt (Chr "s"%char))
      (Seq (Plus (Cls is_space))
        (Seq (Group
                (Seq (Star (Seq quoted
                              (Seq (Star (Cls is_space))
                                 (Seq (Chr ","%char) (Star (Cls is_space))))))
                     quoted))
          (Seq (Plus (Cls is_space)) (lit "in collection"))))).

(** The token pattern, flag [g]: a quoted token, its inside as group 1. *)
Definition quoted_re : re :=
  Seq (Chr dquote) (Seq (Group (Plus (Cls not_quote))) (Chr dquote)).

(** The single-field pattern, flags [gi]: [access field], white space
    and a quoted token, its inside as group 1. *)
Definition single_re : re :=
  Seq (lit "access field") (Seq (Plus (Cls is_space)) quoted_re).

(** [if (field && !out.includes(field)) out.push(field)] for one match. *)
Definition push_field (out : list string) (m : MatchResult) : list string :=
  match group1 m with
  | Some (c :: cs) =>
      let field := string_of_list_ascii (c :: cs) in
      if mem field out then out else out ++ [field]
  | _ => out
  end.

(** The [out] array after the loop over the matches [ms]. *)
Definition collect (ms : list MatchResult) : list string :=
  fold_left push_field ms [].

Definition extractForbiddenFields (reason : value) : list string :=
  match reason with
  | Str reason =>
      let chars := list_ascii_of_string reason in
      match exec true multi_re chars with
      | Some {| group1 := Some (c :: cs) |} =>
          collect (matchAll false quoted_re (c :: cs))
      | _ => collect (matchAll true single_re chars)
      end
  | _ => []
  end.

(* ------------------------------------------------------------------ *)
(** * The POST /simulate handler *)

(** What a collaborator throws, seen through [DirectusErrorLike]:
    [message], [extensions?.reason] ([Undefined] when there is none) and
    the HTTP status the error carries, if any. *)
Record ErrorLike := mkErrorLike {
  err_message : string;
  err_reason : value;
  err_status : option Z
}.

Inductive Error :=
| ForbiddenError                 (* createError('FORBIDDEN', ..., 403) *)
| BadRequestError                (* createError('BAD_REQUEST', ..., 400) *)
| Thrown (e : ErrorLike).        (* an error of a collaborator, passed on *)

(** The status the error reaches the client with. *)
Definition status_of (e : Error) : Z :=
  match e with
  | ForbiddenError => 403
  | BadRequestError => 400
  | Thrown e => match err_status e with Some s => s | None => 500 end
  end.

(** The row of [directus_users] the handler selects. *)
Record UserRow := mkUserRow {
  row_role : option string;
  row_status : option string
}.

(** The two [ItemsService] instances of the handler. *)
Inductive Service := SimulatedService | RequesterService.

(** The calls the handler makes to its collaborators, with what came
    back. *)
Inductive Event :=
| EvLookup (userId : value) (res : ErrorLike + option UserRow)
| EvSchema
| EvRead (svc : Service) (accountability : Accountability) (collection : value)
    (query : value) (res : ErrorLike + list value).

(** The collaborators: [getSchema], the [directus_users] query, and
    [new ItemsService(collection, { schema, accountability }).readByQuery(query)],
    each a transition on the state [World] of the outside; and
    [JSON.parse], [None] when it throws. *)
Record Collaborators (World Schema : Type) := mkCollaborators {
  getSchema : World -> (ErrorLike + Schema) * World;
  users_first : value -> World -> (ErrorLike + option UserRow) * World;
  readByQuery : Schema -> Accountability -> value -> value -> World
                -> (ErrorLike + list value) * World;
  json_parse : string -> option value
}.

Record Request := mkRequest {
  accountability : value;
  body : value
}.

Record Response := mkResponse {
  r_mode : value;
  r_collection : value;
  r_query : value;
  r_warnings : list string;
  r_simulated : list value;
  r_requester : option (list value);
  r_hints : list Hint
}.

(** [String.prototype.trim] on the code units 0..255. *)
Fixpoint drop_spaces (l : list ascii) : list ascii :=
  match l with
  | c :: l' => if is_space c then drop_spaces l' else l
  | [] => []
  end.

Definition trim (s : string) : string :=
  string_of_list_ascii
    (List.rev (drop_spaces (List.rev (drop_spaces (list_ascii_of_string s))))).

Definition modes : list string := ["requester"; "user"; "role"; "public"].

Definition warn_role_only : string :=
  "Role-only simulation can't evaluate $CURRENT_USER-dependent permission rules. Prefer mode 'user' for accurate results.".
Definition warn_no_role : string :=
  "User has no role assigned; simulation may deny most access.".
Definition warn_status (status : string) : string :=
  ("User status is '" ++ status
   ++ "'. In real requests, non-active users cannot authenticate.")%string.
Definition warn_wildcard : string :=
  "Simulated context cannot access one or more fields while query.fields contains '*'. Retrying simulation with '*' removed (keeping explicit fields only).".
Definition warn_removed (removedFields : list string) : string :=
  ("Simulated context cannot access field(s) "
   ++ String.concat ", " (map (fun f => "'" ++ f ++ "'") removedFields)
   ++ ". Retrying simulation with those fields removed from query.fields.")%string.

Section Handler.

Variables World Schema : Type.
Variable env : Collaborators World Schema.

(** The state a run threads: the outside world and the log of calls. *)
Record Run := mkRun {
  world : World;
  log : list Event
}.

(** Computations that may throw. *)
Definition M (A : Type) : Type := Run -> (Error + A) * Run.

Definition ret {A} (a : A) : M A := fun r => (inr a, r).
Definition throw {A} (e : Error) : M A := fun r => (inl e, r).
Definition bind {A B} (m : M A) (k : A -> M B) : M B :=
  fun r =>
    match m r with
    | (inl e, r') => (inl e, r')
    | (inr a, r') => k a r'
    end.

Notation "x <- m ;; k" := (bind m (fun x => k))
  (at level 61, m at next level, right associativity).
Notation "'check' c 'else_throw' e ;; k" := (if c then k else throw e)
  (at level 61, c at next level, e at next level, right associativity).

(** [await getSchema()] *)
Definition call_getSchema : M Schema :=
  fun r =>
    let (res, w) := getSchema env (world r) in
    let r' := mkRun w (log r ++ [EvSchema]) in
    match res with
    | inl e => (inl (Thrown e), r')
    | inr s => (inr s, r')
    end.

(** [await database('directus_users').select([...]).where({ id }).first()] *)
Definition call_users_first (userId : value) : M (option UserRow) :=
  fun r =>
    let (res, w) := users_first env userId (world r) in
    let r' := mkRun w (log r ++ [EvLookup userId res]) in
    match res with
    | inl e => (inl (Thrown e), r')
    | inr row => (inr row, r')
    end.

(** [await service.readByQuery(query)], the outcome as a value so that
    the caller can [catch] it. *)
Definition call_readByQuery (svc : Service) (schema : Schema) (acc : Accountability)
  (collection query : value) : M (ErrorLike + list value) :=
  fun r =>
    let (res, w) := readByQuery env schema acc collection query (world r) in
    (inr res, mkRun w (log r ++ [EvRead svc acc collection query res])).

(** Outside a [try]: an error of the call is thrown on. *)
Definition rethrow {A} (res : ErrorLike + A) : M A :=
  match res with
  | inl e => throw (Thrown e)
  | inr a => ret a
  end.

Definition parseJsonIfNeeded (v : value) : option value :=
  match v with
  | Str s =>
      let trimmed := trim s in
      if negb (truthy (Str trimmed)) then Some Undefined
      else json_parse env trimmed
  | _ => Some v
  end.

(** The mode branches: the simulated accountability and the warnings
    pushed while building it. *)
Definition build_context (requesterAccountability body mode : value)
  : M (Accountability * list string) :=
  if str_eq mode "public" then
    ret (buildSimulatedAccountability requesterAccountability public_overrides, [])
  else if str_eq mode "role" then
    let roleId := get body "roleId" in
    check truthy roleId && typeof_string roleId else_throw BadRequestError ;;
    ret (buildSimulatedAccountability requesterAccountability (role_overrides roleId),
         [warn_role_only])
  else if str_eq mode "user" then
    let userId := get body "userId" in
    check truthy userId && typeof_string userId else_throw BadRequestError ;;
    let roleId := if typeof_string (get body "roleId") then get body "roleId" else Null in
    resolved <-
      (if negb (truthy roleId) then
         userRow <- call_users_first userId ;;
         match userRow with
         | None => throw BadRequestError
         | Some row =>
             ret (match row_role row with Some r => Str r | None => Null end,
                  row_status row)
         end
       else ret (roleId, None)) ;;
    let (resolvedRoleId, status) := resolved : value * option string in
    let warnings := if negb (truthy resolvedRoleId) then [warn_no_role] else [] in
    let warnings :=
      match status with
      | Some st =>
          if truthy (Str st) && negb (String.eqb st "active")
          then warnings ++ [warn_status st] else warnings
      | None => warnings
      end in
    ret (buildSimulatedAccountability requesterAccountability
           (user_overrides userId resolvedRoleId),
         warnings)
  else
    ret (requesterAccountability, []).

(** The simulated read with its [catch] block: the rows and the warnings
    pushed by the recovery. *)
Definition read_simulated (schema : Schema) (simulatedAccountability : Accountability)
  (collection query : value) : M (list value * list string) :=
  primary <- call_readByQuery SimulatedService schema simulatedAccountability
               collection query ;;
  match primary with
  | inr simulatedItems => ret (simulatedItems, [])
  | inl e =>
      let reason := nullish_or (err_reason e) (Str (err_message e)) in
      let forbiddenFields := extractForbiddenFields reason in
      check negb (Nat.eqb (List.length forbiddenFields) 0) else_throw (Thrown e) ;;
      let s := stripFieldsFromQuery query forbiddenFields in
      check negb (Nat.eqb (List.length (removedFields s)) 0) || removedWildcard s
        else_throw (Thrown e) ;;
      let warnings := if removedWildcard s then [warn_wildcard] else [] in
      let warnings :=
        if negb (Nat.eqb (List.length (removedFields s)) 0)
        then warnings ++ [warn_removed (removedFields s)] else warnings in
      retry <- call_readByQuery SimulatedService schema simulatedAccountability
                 collection (nextQuery s) ;;
      simulatedItems <- rethrow retry ;;
      ret (simulatedItems, warnings)
  end.

(** The requester read, made when [includeRequester] is truthy. *)
Definition read_requester (schema : Schema) (requesterAccountability : Accountability)
  (collection query includeRequester : value) : M (list value) :=
  if truthy includeRequester then
    res <- call_readByQuery RequesterService schema requesterAccountability
             collection query ;;
    rethrow res
  else ret [].

(** The body of the [try] block of the route; the [catch] block hands a
    thrown error to [next], a returned response went to [res.json]. *)
Definition simulate (request : Request) : M Response :=
  check truthy (get (accountability request) "admin") else_throw ForbiddenError ;;
  let requesterAccountability := accountability request in
  let body := nullish_or (body request) (Obj []) in
  let mode := nullish_or (get body "mode") (Str "requester") in
  let collection := get body "collection" in
  let includeRequester := nullish_or (get body "includeRequester") (Bool true) in
  check truthy collection && typeof_string collection else_throw BadRequestError ;;
  check existsb (str_eq mode) modes else_throw BadRequestError ;;
  match parseJsonIfNeeded (get body "query") with
  | None => throw BadRequestError
  | Some parsed =>
      let query := nullish_or parsed (Obj []) in
      ctx <- build_context requesterAccountability body mode ;;
      let (simulatedAccountability, warnings1) := ctx : Accountability * list string in
      schema <- call_getSchema ;;
      sim <- read_simulated schema simulatedAccountability collection query ;;
      let (simulatedItems, warnings2) := sim : list value * list string in
      requesterItems <- read_requester schema requesterAccountability collection
                          query includeRequester ;;
      let hints :=
        if truthy includeRequester
        then buildHints (getFirstItem requesterItems) (getFirstItem simulatedItems)
        else [] in
      ret (mkResponse mode collection query (warnings1 ++ warnings2) simulatedItems
             (if truthy includeRequester then Some requesterItems else None)
             hints)
  end.

(** A run from an empty log. *)
Definition start (w : World) : Run := mkRun w [].

End Handler.

Arguments mkRun {World} _ _.
Arguments world {World} _.
Arguments log {World} _.
Arguments start {World} _.

(** The reads of the simulated service in a log. *)
Definition is_simulated_read (ev : Event) : bool :=
  match ev with
  | EvRead SimulatedService _ _ _ _ => true
  | _ => false
  end.

Definition is_read (ev : Event) : bool :=
  match ev with
  | EvRead _ _ _ _ _ => true
  | _ => false
  end.

Definition is_lookup (ev : Event) : bool :=
  match ev with
  | EvLookup _ _ => true
  | _ => false
  end.

Definition simulated_reads (l : list Event) : list Event :=
  filter is_simulated_read l.

(* ------------------------------------------------------------------ *)
(** * Vocabulary of the statements *)

(** The copy of the base the builder starts from. *)
Definition base_copy (base : value) : value :=
  Obj (spread (nullish_or base (Obj []))).

(** An administrator's context for the examples: user, role, roles and
    the two flags. *)
Definition admin_context : Accountability :=
  Obj [("user", Str "u-admin"); ("role", Str "r-admin");
       ("roles", Arr [Str "r-admin"]); ("admin", Bool true); ("app", Bool true)].

(** [f] equals none of the forbidden names. *)
Definition not_forbidden (F : list string) (f : value) : bool :=
  negb (existsb (str_eq f) F).

(** The list the loop over the forbidden names starts from. *)
Definition strip_base (fs : list value) : list value :=
  if existsb is_wildcard fs then filter (fun f => negb (is_wildcard f)) fs else fs.

Definition query_a : value := Obj [("fields", Arr [Str "a"]); ("limit", Num 1)].

Definition baseline_row : value := Obj [("a", Num 1); ("b", Null); ("c", Str "x")].
Definition simulated_row : value := Obj [("a", Num 1); ("c", Null)].

Definition quote : string := String dquote EmptyString.

(** The documented message of the query service, naming two fields. *)
Definition two_fields_message : string :=
  ("You don't have permission to access fields " ++ quote ++ "secret_note" ++ quote
   ++ ", " ++ quote ++ "date_created" ++ quote ++ " in collection "
   ++ quote ++ "posts" ++ quote)%string.

Section MatcherSpec.

Variable R : Type.
Variable icase : bool.

(** What a run of [r] that succeeds stands for: a front that matches
    and a rest the continuation accepted. *)
Definition sound_step (r : re)
  (step : list ascii -> capture -> cont R -> option R) : Prop :=
  forall s cap k x, step s cap k = Some x ->
    exists s1 s2 cap', s = s1 ++ s2 /\ matches icase r s1 /\ k s2 cap' = Some x.

(** The other way round: when a front matches and the continuation
    accepts the rest whatever the capture, the run succeeds. *)
Definition complete_at (r : re) (s1 : list ascii) : Prop :=
  forall s2 cap (k : cont R), (forall cap', k s2 cap' <> None) ->
    rmatch icase r (s1 ++ s2) cap k <> None.

Definition star_complete_at (r : re) (s1 : list ascii) : Prop :=
  forall fuel s2 cap (k : cont R), (List.length (s1 ++ s2) <= fuel)%nat ->
    (forall cap', k s2 cap' <> None) ->
    star_loop (rmatch icase r) k fuel (s1 ++ s2) cap <> None.

End MatcherSpec.

(** The reason string the [catch] block hands to the extractor. *)
Definition reason_of (e : ErrorLike) : value :=
  nullish_or (err_reason e) (Str (err_message e)).

(** The query the retry is made with. *)
Definition retry_query (query : value) (e : ErrorLike) : value :=
  nextQuery (stripFieldsFromQuery query (extractForbiddenFields (reason_of e))).

(** The four ways the simulated read ends: the primary read succeeds;
    it fails and cannot be recovered, its error is thrown; it fails and
    the retry succeeds; it fails and the retry fails, the error of the
    retry is thrown. *)
Inductive simulated_outcome acc collection query
  : Error + (list value * list string) -> list Event -> Prop :=
| SimPrimary items :
    simulated_outcome acc collection query (inr (items, []))
      [EvRead SimulatedService acc collection query (inr items)]
| SimUnrecoverable e :
    simulated_outcome acc collection query (inl (Thrown e))
      [EvRead SimulatedService acc collection query (inl e)]
| SimRetried e items ws :
    retry_query query e <> query ->
    simulated_outcome acc collection query (inr (items, ws))
      [EvRead SimulatedService acc collection query (inl e);
       EvRead SimulatedService acc collection (retry_query query e) (inr items)]
| SimRetryFailed e e' :
    simulated_outcome acc collection query (inl (Thrown e'))
      [EvRead SimulatedService acc collection query (inl e);
       EvRead SimulatedService acc collection (retry_query query e) (inl e')].

(** What the handler reads off the request before it builds a context. *)
Definition body_of (request : Request) : value :=
  nullish_or (body request) (Obj []).
Definition mode_of (request : Request) : value :=
  nullish_or (get (body_of request) "mode") (Str "requester").
Definition collection_of (request : Request) : value :=
  get (body_of request) "collection".
Definition include_of (request : Request) : value :=
  nullish_or (get (body_of request) "includeRequester") (Bool true).

(** The warnings the recovery pushes before it retries. *)
Definition retry_warnings (query : value) (e : ErrorLike) : list string :=
  let s := stripFieldsFromQuery query (extractForbiddenFields (reason_of e)) in
  let warnings := if removedWildcard s then [warn_wildcard] else [] in
  if negb (Nat.eqb (List.length (removedFields s)) 0)
  then warnings ++ [warn_removed (removedFields s)] else warnings.

(** The response the handler assembles. *)
Definition response_of request (query : value) (warnings : list string)
  (items ritems : list value) : Response :=
  mkResponse (mode_of request) (collection_of request) query warnings items
    (if truthy (include_of request) then Some ritems else None)
    (if truthy (include_of request)
     then buildHints (getFirstItem ritems) (getFirstItem items)
     else []).

(** What follows the simulated read: nothing when it threw; otherwise
    the requester read, if it is asked for, and the response. *)
Definition after_simulated request (query : value) (ws1 : list string)
  (res : Error + (list value * list string)) (out : Error + Response)
  (post : list Event) : Prop :=
  match res with
  | inl e => out = inl e /\ post = []
  | inr (items, ws2) =>
      (ws2 = [] \/ exists e, ws2 = retry_warnings query e) /\
      ((truthy (include_of request) = false /\ post = [] /\
        out = inr (response_of request query (ws1 ++ ws2) items [])) \/
       (truthy (include_of request) = true /\
        exists o,
          post = [EvRead RequesterService (accountability request)
                    (collection_of request) query o] /\
          out = match o with
                | inl e => inl (Thrown e)
                | inr ritems => inr (response_of request query (ws1 ++ ws2) items ritems)
                end))
  end.

(** The calls of a run after the context is built, by the outcome [ctx]
    of building it. *)
Inductive trace_after request (query : value)
  : Error + (Accountability * list string) -> Error + Response -> list Event -> Prop :=
| TraceContextFailed e :
    trace_after request query (inl e) (inl e) []
| TraceSchemaFailed simAcc ws1 e :
    trace_after request query (inr (simAcc, ws1)) (inl (Thrown e)) [EvSchema]
| TraceSimulated simAcc ws1 res sim out post :
    simulated_outcome simAcc (collection_of request) query res sim ->
    after_simulated request query ws1 res out post ->
    trace_after request query (inr (simAcc, ws1)) out (EvSchema :: sim ++ post).

Section Runs.

Variables World Schema : Type.
Variable env : Collaborators World Schema.

Implicit Types (r : Run World) (request : Request).

(** The course of a run: rejected on the request alone, or the four
    phases in order, each ending the run when it throws. *)
Inductive run_of request r : Error + Response -> Run World -> Prop :=
| RunRejected e :
    e = ForbiddenError \/ e = BadRequestError ->
    run_of request r (inl e) r
| RunContextFailed parsed e r1 :
    parseJsonIfNeeded env (get (body_of request) "query") = Some parsed ->
    build_context env (accountability request) (body_of request) (mode_of request) r
    = (inl e, r1) ->
    run_of request r (inl e) r1
| RunSchemaFailed parsed simAcc ws1 r1 e r2 :
    parseJsonIfNeeded env (get (body_of request) "query") = Some parsed ->
    build_context env (accountability request) (body_of request) (mode_of request) r
    = (inr (simAcc, ws1), r1) ->
    call_getSchema env r1 = (inl e, r2) ->
    run_of request r (inl e) r2
| RunSimulatedFailed parsed simAcc ws1 r1 schema r2 e r3 :
    parseJsonIfNeeded env (get (body_of request) "query") = Some parsed ->
    build_context env (accountability request) (body_of request) (mode_of request) r
    = (inr (simAcc, ws1), r1) ->
    call_getSchema env r1 = (inr schema, r2) ->
    read_simulated env schema simAcc (collection_of request)
      (nullish_or parsed (Obj [])) r2 = (inl e, r3) ->
    run_of request r (inl e) r3
| RunRequesterFailed parsed simAcc ws1 r1 schema r2 items ws2 r3 e r4 :
    parseJsonIfNeeded env (get (body_of request) "query") = Some parsed ->
    build_context env (accountability request) (body_of request) (mode_of request) r
    = (inr (simAcc, ws1), r1) ->
    call_getSchema env r1 = (inr schema, r2) ->
    read_simulated env schema simAcc (collection_of request)
      (nullish_or parsed (Obj [])) r2 = (inr (items, ws2), r3) ->
    read_requester env schema (accountability request) (collection_of request)
      (nullish_or parsed (Obj [])) (include_of request) r3 = (inl e, r4) ->
    run_of request r (inl e) r4
| RunResponded parsed simAcc ws1 r1 schema r2 items ws2 r3 ritems r4 :
    parseJsonIfNeeded env (get (body_of request) "query") = Some parsed ->
    build_context env (accountability request) (body_of request) (mode_of request) r
    = (inr (simAcc, ws1), r1) ->
    call_getSchema env r1 = (inr schema, r2) ->
    read_simulated env schema simAcc (collection_of request)
      (nullish_or parsed (Obj [])) r2 = (inr (items, ws2), r3) ->
    read_requester env schema (accountability request) (collection_of request)
      (nullish_or parsed (Obj [])) (include_of request) r3 = (inr ritems, r4) ->
    run_of request r
      (inr (mkResponse (mode_of request) (collection_of request)
              (nullish_or parsed (Obj [])) (ws1 ++ ws2) items
              (if truthy (include_of request) then Some ritems else None)
              (if truthy (include_of request)
               then buildHints (getFirstItem ritems) (getFirstItem items)
               else [])))
      r4.

(** The same collaborators with another user directory. *)
Definition with_directory
  (directory : value -> World -> (ErrorLike + option UserRow) * World)
  : Collaborators World Schema :=
  mkCollaborators (getSchema env) directory (readByQuery env) (json_parse env).

End Runs.

(* ------------------------------------------------------------------ *)
(** * Collaborators and requests of the examples *)

Definition posts : value := Str "posts".

(** The error of the query service for a field the context may not
    read. *)
Definition secret_error : ErrorLike :=
  mkErrorLike
    ("You don't have permission to access field " ++ quote ++ "secret_note" ++ quote
     ++ " in collection " ++ quote ++ "posts" ++ quote ++ " or it does not exist.")%string
    Undefined (Some 403%Z).

Definition post_full : value :=
  Obj [("title", Str "Hello"); ("secret_note", Str "internal")].
Definition post_public : value := Obj [("title", Str "Hello")].

Definition asks_for (query : value) (f : string) : bool :=
  match get query "fields" with
  | Arr fs => existsb (fun x => str_eq x f) fs
  | _ => true
  end.

(** A query service that lets administrators read every field and
    everyone else every field but [secret_note]; a user directory with
    no user in it; a JSON parser that is never needed. *)
Definition demo_env : Collaborators unit unit :=
  mkCollaborators
    (fun w => (inr tt, w))
    (fun _ w => (inr None, w))
    (fun _ acc _ query w =>
       if truthy (get acc "admin") then (inr [post_full], w)
       else if asks_for query "secret_note" then (inl secret_error, w)
       else (inr [post_public], w))
    (fun _ => None).

(** The same, with a query service that refuses every read of a
    context that is not an administrator's. *)
Definition closed_env : Collaborators unit unit :=
  mkCollaborators
    (fun w => (inr tt, w))
    (fun _ w => (inr None, w))
    (fun _ acc _ query w =>
       if truthy (get acc "admin") then (inr [post_full], w)
       else (inl secret_error, w))
    (fun _ => None).

Definition two_fields_query : value :=
  Obj [("fields", Arr [Str "title"; Str "secret_note"]); ("limit", Num 1)].
Definition narrowed_query : value :=
  Obj [("fields", Arr [Str "title"]); ("limit", Num 1)].

(** An administrator simulating the role [r-user] on [posts]. *)
Definition role_request : Request :=
  mkRequest admin_context
    (Obj [("mode", Str "role"); ("collection", posts);
          ("query", two_fields_query); ("roleId", Str "r-user")]).

(** An administrator simulating a user the directory does not know,
    with the role supplied in the body. *)
Definition user_request : Request :=
  mkRequest admin_context
    (Obj [("mode", Str "user"); ("collection", posts);
          ("query", two_fields_query); ("userId", Str "u-ghost");
          ("roleId", Str "r-user")]).

(** An administrator's request with no [mode] in the body. *)
Definition modeless_request : Request :=
  mkRequest admin_context
    (Obj [("collection", posts); ("query", narrowed_query)]).

(** A request with a mode that is none of the four. *)
Definition bad_mode_request : Request :=
  mkRequest admin_context (Obj [("mode", Str "admin"); ("collection", posts)]).

(** The context the builder makes for the role [r-user]. *)
Definition role_context : Accountability :=
  buildSimulatedAccountability admin_context (role_overrides (Str "r-user")).

(* ------------------------------------------------------------------ *)
(** * Further vocabulary *)

(** The properties of the copy once the four overrides are applied. *)
Definition overridden (base : value) (ov : Overrides) : list (string * value) :=
  apply_override "app" (o_app ov) (Bool true)
    (apply_override "admin" (o_admin ov) (Bool false)
       (apply_override "role" (o_role ov) Null
          (apply_override "user" (o_user ov) Null
             (spread (nullish_or base (Obj [])))))).

(** Patterns with no capturing group. *)
Fixpoint no_group (r : re) : bool :=
  match r with
  | Eps | Chr _ | Cls _ => true
  | Seq r1 r2 => no_group r1 && no_group r2
  | Star r' | Opt r' => no_group r'
  | Group _ => false
  end.

(** The recovery is tried for the error [e] of the primary read of
    [query]: the message names fields and the mutator reports a
    removal. *)
Definition recoverable (query : value) (e : ErrorLike) : bool :=
  let forbiddenFields := extractForbiddenFields (reason_of e) in
  let s := stripFieldsFromQuery query forbiddenFields in
  negb (Nat.eqb (List.length forbiddenFields) 0)
  && (negb (Nat.eqb (List.length (removedFields s)) 0) || removedWildcard s).

(** The role the lookup of a user resolves to, and the warnings the user
    branch pushes for it and for the account status. *)
Definition resolved_role (row : UserRow) : value :=
  match row_role row with Some r => Str r | None => Null end.

Definition user_warnings (resolvedRoleId : value) (status : option string) : list string :=
  (if negb (truthy resolvedRoleId) then [warn_no_role] else [])
  ++ match status with
     | Some st =>
         if truthy (Str st) && negb (String.eqb st "active") then [warn_status st] else []
     | None => []
     end.

Definition event_failed (ev : Event) (e : ErrorLike) : Prop :=
  match ev with
  | EvLookup _ res => res = inl e
  | EvSchema => True
  | EvRead _ _ _ _ res => res = inl e
  end.

(** The simulated read, case by case, with what decides the case and
    the warnings of the recovery. *)
Inductive simulated_decided acc collection query
  : Error + (list value * list string) -> list Event -> Prop :=
| DecPrimary items :
    simulated_decided acc collection query (inr (items, []))
      [EvRead SimulatedService acc collection query (inr items)]
| DecUnrecoverable e :
    recoverable query e = false ->
    simulated_decided acc collection query (inl (Thrown e))
      [EvRead SimulatedService acc collection query (inl e)]
| DecRetried e items :
    recoverable query e = true ->
    simulated_decided acc collection query (inr (items, retry_warnings query e))
      [EvRead SimulatedService acc collection query (inl e);
       EvRead SimulatedService acc collection (retry_query query e) (inr items)]
| DecRetryFailed e e' :
    recoverable query e = true ->
    simulated_decided acc collection query (inl (Thrown e'))
      [EvRead SimulatedService acc collection query (inl e);
       EvRead SimulatedService acc collection (retry_query query e) (inl e')].

Section Precheck.

Variables World Schema : Type.
Variable env : Collaborators World Schema.

(** The checks the handler makes on the request alone, in its order:
    the error of the first that fails. *)
Definition precheck (request : Request) : option Error :=
  if negb (truthy (get (accountability request) "admin")) then Some ForbiddenError
  else if negb (truthy (collection_of request) && typeof_string (collection_of request))
  then Some BadRequestError
  else if negb (existsb (str_eq (mode_of request)) modes) then Some BadRequestError
  else match parseJsonIfNeeded env (get (body_of request) "query") with
       | None => Some BadRequestError
       | Some _ => None
       end.

(** The body is refused as it stands: the collection is no non-empty
    string, the mode is none of the four, the query is a text that does
    not parse, or the mode [role] or [user] comes without a non-empty
    string as [roleId] or [userId]. *)
Definition context_invalid (body mode : value) : bool :=
  (str_eq mode "role"
   && negb (truthy (get body "roleId") && typeof_string (get body "roleId")))
  || (str_eq mode "user"
      && negb (truthy (get body "userId") && typeof_string (get body "userId"))).

Definition body_invalid (request : Request) : bool :=
  negb (truthy (collection_of request) && typeof_string (collection_of request))
  || negb (existsb (str_eq (mode_of request)) modes)
  || match parseJsonIfNeeded env (get (body_of request) "query") with
     | None => true
     | Some _ => false
     end
  || context_invalid (body_of request) (mode_of request).

(** The query of the request once parsed, [{}] in place of none. *)
Definition parsed_query (request : Request) : value :=
  match parseJsonIfNeeded env (get (body_of request) "query") with
  | Some parsed => nullish_or parsed (Obj [])
  | None => Obj []
  end.

(** What follows a context that was built: the schema fails, or the
    simulated read and what comes after it. *)
Definition after_context (request : Request) (simAcc : Accountability)
  (ws1 : list string) (out : Error + Response) (tail : list Event) : Prop :=
  (exists e, out = inl (Thrown e) /\ tail = [EvSchema]) \/
  (exists res sim post,
     simulated_decided simAcc (collection_of request) (parsed_query request) res sim /\
     after_simulated request (parsed_query request) ws1 res out post /\
     tail = EvSchema :: sim ++ post).

End Precheck.

(** A caller that is no administrator asking for the role simulation,
    and an administrator asking for a user the directory does not
    know, with no role in the body. *)
Definition plain_context : Accountability :=
  Obj [("user", Str "u-plain"); ("role", Str "r-user");
       ("roles", Arr [Str "r-user"]); ("admin", Bool false); ("app", Bool true)].

Definition plain_request : Request :=
  mkRequest plain_context (body role_request).

Definition ghost_request : Request :=
  mkRequest admin_context
    (Obj [("mode", Str "user"); ("collection", posts);
          ("query", two_fields_query); ("userId", Str "u-ghost")]).

(** An administrator's request in mode [requester] for the wildcard
    alone, with no requester read asked for. *)
Definition wildcard_request : Request :=
  mkRequest admin_context
    (Obj [("mode", Str "requester"); ("collection", posts);
          ("query", Obj [("fields", Arr [Str "*"])]);
          ("includeRequester", Bool false)]).


(** The message of the query service that names one field, with what
    follows the words [in collection] left open. *)
Definition one_field_message (f tail : string) : string :=
  ("You don't have permission to access field " ++ quote ++ f ++ quote
   ++ " in collection" ++ tail)%string.

(* ------------------------------------------------------------------ *)
(** * The form of the module *)

Module Ui.

(** [type Mode = 'requester' | 'user' | 'role' | 'public'] *)
Inductive Mode := Requester | User | Role | Public.

Definition mode_name (m : Mode) : string :=
  match m with
  | Requester => "requester"
  | User => "user"
  | Role => "role"
  | Public => "public"
  end.

(** The refs of the form the payload is made of. *)
Record Form := mkForm {
  mode : Mode;
  collection : string;
  userId : string;
  roleId : string
}.

Definition canSimulate (f : Form) : bool :=
  if negb (truthy (Str (collection f))) then false
  else match mode f with
       | User => truthy (Str (userId f))
       | Role => truthy (Str (roleId f))
       | _ => true
       end.

(** The [payload] of [simulate()], for the query the text parsed to. *)
Definition payload (f : Form) (query : value) : value :=
  Obj [("mode", Str (mode_name (mode f)));
       ("collection", Str (collection f));
       ("query", query);
       ("includeRequester", Bool true);
       ("userId", match mode f with User => Str (userId f) | _ => Undefined end);
       ("roleId",
        match mode f with
        | Role | User => if truthy (Str (roleId f)) then Str (roleId f) else Undefined
        | _ => Undefined
        end)].

(** The payload as JSON carries it: a property whose value is
    [undefined] is left out. *)
Definition sent (v : value) : value :=
  match v with
  | Obj ps =>
      Obj (filter (fun kv => match snd kv with Undefined => false | _ => true end) ps)
  | _ => v
  end.

End Ui.

(** An environment whose directory knows the user [u-1], suspended and
    with the role [r-user], and whose parser reads the text of the
    empty object. *)
Definition staffed_env : Collaborators unit unit :=
  mkCollaborators
    (getSchema demo_env)
    (fun userId w =>
       (inr (if str_eq userId "u-1"
             then Some (mkUserRow (Some "r-user") (Some "suspended")) else None), w))
    (readByQuery demo_env)
    (fun s => if String.eqb s "{}" then Some (Obj []) else None).


Definition role_form : Ui.Form := Ui.mkForm Ui.Role "posts" "" "r-user".

(* ================================================================== *)
(** * Properties *)

(* ------------------------------------------------------------------ *)
(** ** Property lists *)

Lemma assoc_set_same k v ps : assoc k (assoc_set k v ps) = Some v.
Proof.
  induction ps as [|[k' v'] ps IH]; simpl.
  - now rewrite String.eqb_refl.
  - destruct (String.eqb k' k) eqn:E; simpl.
    + now rewrite String.eqb_refl.
    + now rewrite E.
Qed.

Lemma assoc_set_other k k' v ps :
  k <> k' -> assoc k' (assoc_set k v ps) = assoc k' ps.
Proof.
  intros Hne. induction ps as [|[k0 v0] ps IH]; simpl.
  - destruct (String.eqb k k') eqn:E; [apply String.eqb_eq in E; contradiction | reflexivity].
  - destruct (String.eqb k0 k) eqn:E; simpl.
    + apply String.eqb_eq in E. subst k0.
      destruct (String.eqb k k') eqn:E'; [apply String.eqb_eq in E'; contradiction | reflexivity].
    + destruct (String.eqb k0 k'); [reflexivity | exact IH].
Qed.

Lemma get_set_same k v ps : get (Obj (assoc_set k v ps)) k = v.
Proof. unfold get; simpl. now rewrite assoc_set_same. Qed.

Lemma get_set_other k k' v ps :
  k <> k' -> get (Obj (assoc_set k v ps)) k' = get (Obj ps) k'.
Proof. intros H. unfold get; simpl. now rewrite (assoc_set_other v ps H). Qed.

Lemma get_apply_override_same k v dflt ps :
  get (Obj (apply_override k (Some v) dflt ps)) k = nullish_or v dflt.
Proof. apply get_set_same. Qed.

Lemma get_apply_override_other k k' o dflt ps :
  k <> k' -> get (Obj (apply_override k o dflt ps)) k' = get (Obj ps) k'.
Proof.
  intros H. destruct o; simpl; [now apply get_set_other | reflexivity].
Qed.

(* ------------------------------------------------------------------ *)
(** ** The accountability builder *)

Ltac string_neq := let H := fresh in intro H; discriminate H.

Lemma builder_role base ov :
  get (buildSimulatedAccountability base ov) "role"
  = match o_role ov with
    | Some v => nullish_or v Null
    | None => get (base_copy base) "role"
    end.
Proof.
  unfold buildSimulatedAccountability, base_copy.
  set (n0 := spread (nullish_or base (Obj []))).
  set (n1 := apply_override "user" (o_user ov) Null n0).
  set (n2 := apply_override "role" (o_role ov) Null n1).
  set (n3 := apply_override "admin" (o_admin ov) (Bool false) n2).
  set (n4 := apply_override "app" (o_app ov) (Bool true) n3).
  assert (H4 : get (Obj n4) "role"
               = match o_role ov with
                 | Some v => nullish_or v Null
                 | None => get (Obj n0) "role"
                 end).
  { unfold n4. rewrite get_apply_override_other by string_neq.
    unfold n3. rewrite get_apply_override_other by string_neq.
    unfold n2. destruct (o_role ov) as [v|].
    - apply get_apply_override_same.
    - simpl. unfold n1. now rewrite get_apply_override_other by string_neq. }
  destruct (truthy (get (Obj n4) "role")).
  - rewrite get_set_other by string_neq. exact H4.
  - destruct (negb (is_array (get (Obj n4) "roles"))).
    + rewrite get_set_other by string_neq. exact H4.
    + exact H4.
Qed.

Lemma builder_roles base ov :
  let next := buildSimulatedAccountability base ov in
  get next "roles"
  = if truthy (get next "role") then Arr [get next "role"]
    else if is_array (get (base_copy base) "roles")
         then get (base_copy base) "roles"
         else Arr [].
Proof.
  unfold buildSimulatedAccountability, base_copy.
  set (n0 := spread (nullish_or base (Obj []))).
  set (n1 := apply_override "user" (o_user ov) Null n0).
  set (n2 := apply_override "role" (o_role ov) Null n1).
  set (n3 := apply_override "admin" (o_admin ov) (Bool false) n2).
  set (n4 := apply_override "app" (o_app ov) (Bool true) n3).
  assert (Hroles : get (Obj n4) "roles" = get (Obj n0) "roles").
  { unfold n4, n3, n2, n1.
    now rewrite !get_apply_override_other by string_neq. }
  cbv zeta.
  destruct (truthy (get (Obj n4) "role")) eqn:Hrole.
  - rewrite (@get_set_other "roles" "role") by string_neq. rewrite Hrole.
    now rewrite get_set_same.
  - rewrite <- Hroles.
    destruct (is_array (get (Obj n4) "roles")) eqn:Harr; simpl.
    + now rewrite Hrole.
    + rewrite (@get_set_other "roles" "role") by string_neq. rewrite Hrole.
      now rewrite get_set_same.
Qed.

Lemma builder_admin base ov :
  get (buildSimulatedAccountability base ov) "admin"
  = match o_admin ov with
    | Some v => nullish_or v (Bool false)
    | None => get (base_copy base) "admin"
    end.
Proof.
  unfold buildSimulatedAccountability, base_copy.
  set (n0 := spread (nullish_or base (Obj []))).
  set (n1 := apply_override "user" (o_user ov) Null n0).
  set (n2 := apply_override "role" (o_role ov) Null n1).
  set (n3 := apply_override "admin" (o_admin ov) (Bool false) n2).
  set (n4 := apply_override "app" (o_app ov) (Bool true) n3).
  assert (H4 : get (Obj n4) "admin"
               = match o_admin ov with
                 | Some v => nullish_or v (Bool false)
                 | None => get (Obj n0) "admin"
                 end).
  { unfold n4. rewrite get_apply_override_other by string_neq.
    unfold n3. destruct (o_admin ov) as [v|].
    - apply get_apply_override_same.
    - simpl. unfold n2, n1. now rewrite !get_apply_override_other by string_neq. }
  destruct (truthy (get (Obj n4) "role")).
  - rewrite get_set_other by string_neq. exact H4.
  - destruct (negb (is_array (get (Obj n4) "roles"))).
    + rewrite get_set_other by string_neq. exact H4.
    + exact H4.
Qed.

(** C4 (as amended): in every context the builder returns, [roles] is the
    singleton of [role] when [role] is present (truthy); otherwise it is
    the [roles] list of the base when the base has one, and empty only
    when it has none.  In particular, for [mode=public] the role is null
    and the synthesized [roles] is the caller's own list. *)
Theorem buildSimulatedAccountability_roles :
  (forall base ov,
     let next := buildSimulatedAccountability base ov in
     get next "roles"
     = if truthy (get next "role") then Arr [get next "role"]
       else if is_array (get (base_copy base) "roles")
            then get (base_copy base) "roles"
            else Arr []) /\
  (forall ps,
     let next := buildSimulatedAccountability (Obj ps) public_overrides in
     get next "role" = Null /\
     get next "roles"
     = if is_array (get (Obj ps) "roles") then get (Obj ps) "roles" else Arr []).
Proof.
  split.
  - intros base ov. apply builder_roles.
  - intros ps next.
    assert (Hrole : get next "role" = Null).
    { unfold next. rewrite builder_role. reflexivity. }
    split; [exact Hrole|].
    unfold next. rewrite builder_roles. fold next. rewrite Hrole. reflexivity.
Qed.

(** C4 (as stated) fails: built for [mode=public] from an administrator's
    context, the synthesized context has no role and yet its [roles] is
    the administrator's list, not the empty one. *)
Lemma public_context_keeps_caller_roles :
  let next := buildSimulatedAccountability admin_context public_overrides in
  get next "role" = Null /\
  get next "roles" = Arr [Str "r-admin"] /\
  get next "roles" <> Arr [].
Proof.
  cbv zeta. split; [reflexivity|]. split; [reflexivity|].
  intro H. vm_compute in H. discriminate H.
Qed.
(* ------------------------------------------------------------------ *)
(** * The result differ on the documented rows *)

(** C2 (as amended): on the baseline row {a:1, b:null, c:"x"} and the
    simulated row {a:1, c:null} the differ returns two hints, in key
    order: [b] is absent from the simulated row, so it gets a [missing]
    hint although it is null in the baseline, and [c] gets a [null] hint;
    there is no hint for [a]. *)
Theorem buildHints_example :
  buildHints baseline_row simulated_row
  = [mkHint "b" missing note_missing; mkHint "c" null note_null].
Proof. reflexivity. Qed.

(** C2 (as stated) fails: the result is not the single hint for [c]. *)
Lemma buildHints_example_not_only_c :
  ~ (exists n, buildHints baseline_row simulated_row = [mkHint "c" null n]).
Proof. intros [n H]. vm_compute in H. discriminate H. Qed.

(* ------------------------------------------------------------------ *)
(** ** The query mutator *)

Lemma filter_filter {A} (p q : A -> bool) l :
  filter p (filter q l) = filter (fun x => q x && p x) l.
Proof.
  induction l as [|a l IH]; simpl; [reflexivity|].
  destruct (q a); simpl; [destruct (p a)|]; now rewrite IH.
Qed.

Lemma filter_all_true {A} (p : A -> bool) l :
  (forall x, In x l -> p x = true) -> filter p l = l.
Proof.
  induction l as [|a l IH]; simpl; intros H; [reflexivity|].
  rewrite (H a (or_introl eq_refl)). f_equal. apply IH. intros x Hx. apply H. now right.
Qed.

Lemma strip_step_fst l acc x :
  fst (strip_step (l, acc) x) = filter (fun f => negb (str_eq f x)) l.
Proof. unfold strip_step. now destruct (negb _). Qed.

Lemma strip_step_snd l acc x :
  snd (strip_step (l, acc) x) = acc \/ snd (strip_step (l, acc) x) = acc ++ [x].
Proof. unfold strip_step. destruct (negb _); simpl; auto. Qed.

Lemma fold_strip_fst F : forall l acc,
  fst (fold_left strip_step F (l, acc)) = filter (not_forbidden F) l.
Proof.
  induction F as [|x F IH]; intros l acc; cbn [fold_left].
  - symmetry. now apply filter_all_true.
  - destruct (strip_step (l, acc) x) as [l' acc'] eqn:E.
    rewrite IH. pose proof (strip_step_fst l acc x) as H. rewrite E in H. simpl in H.
    subst l'. rewrite filter_filter. apply filter_ext. intros f.
    unfold not_forbidden. simpl. now rewrite negb_orb.
Qed.

Lemma fold_strip_snd_in F : forall l acc x,
  In x (snd (fold_left strip_step F (l, acc))) -> In x acc \/ In x F.
Proof.
  induction F as [|y F IH]; intros l acc x; cbn [fold_left]; [simpl; auto|].
  destruct (strip_step (l, acc) y) as [l' acc'] eqn:E. intros H.
  apply IH in H. destruct H as [H|H]; [|right; right; exact H].
  pose proof (strip_step_snd l acc y) as S. rewrite E in S. simpl in S.
  destruct S as [->| ->]; [auto|].
  apply in_app_or in H. destruct H as [H|[H|[]]]; [auto | right; left; exact H].
Qed.

Lemma fold_strip_clean F : forall l acc,
  (forall f, In f l -> not_forbidden F f = true) ->
  fold_left strip_step F (l, acc) = (l, acc).
Proof.
  induction F as [|x F IH]; intros l acc H; cbn [fold_left]; [reflexivity|].
  assert (Hx : filter (fun f => negb (str_eq f x)) l = l).
  { apply filter_all_true. intros f Hf. specialize (H f Hf).
    unfold not_forbidden in H. simpl in H. rewrite negb_orb in H.
    now apply andb_prop in H. }
  unfold strip_step. rewrite Hx, Nat.eqb_refl. cbn [negb].
  apply IH. intros f Hf. specialize (H f Hf).
  unfold not_forbidden in *. simpl in H. rewrite negb_orb in H.
  now apply andb_prop in H.
Qed.

(** The two ways the mutator returns: the query as it came, or the
    narrowed copy. *)
Lemma strip_cases q F :
  stripFieldsFromQuery q F = unchanged q \/
  exists fs,
    get q "fields" = Arr fs /\
    F <> [] /\
    stripFieldsFromQuery q F
    = mkStrip (with_fields q (filter (not_forbidden F) (strip_base fs)))
        (snd (fold_left strip_step F (strip_base fs, [])))
        (existsb is_wildcard fs) /\
    (existsb is_wildcard fs = true
     \/ snd (fold_left strip_step F (strip_base fs, [])) <> []).
Proof.
  unfold stripFieldsFromQuery.
  destruct (negb (truthy q) || negb (typeof_object q)); [now left|].
  destruct (get q "fields") as [| | | | |fs|] eqn:Hf; try now left.
  destruct F as [|x F]; [now left|].
  change (Nat.eqb (List.length (x :: F)) 0) with false. cbv iota.
  destruct (existsb is_wildcard fs
            && Nat.eqb (List.length (filter (fun f => negb (is_wildcard f)) fs)) 0)
    eqn:Hw; [now left|].
  cbv zeta.
  destruct (fold_left strip_step (x :: F) _) as [nf rem] eqn:E.
  destruct (existsb is_wildcard fs || negb (Nat.eqb (List.length rem) 0)) eqn:Hc;
    [|now left].
  right. exists fs. split; [reflexivity|]. split; [discriminate|].
  pose proof (fold_strip_fst (x :: F) (strip_base fs) []) as H1.
  unfold strip_base in H1 |- *. rewrite E in H1 |- *.
  simpl fst in H1. simpl snd. subst nf. split; [reflexivity|].
  destruct (existsb is_wildcard fs); [now left|]. right.
  simpl in Hc. destruct rem; [discriminate Hc | discriminate].
Qed.

Lemma strip_base_no_wildcard fs f :
  In f (strip_base fs) -> is_wildcard f = false.
Proof.
  unfold strip_base. destruct (existsb is_wildcard fs) eqn:E; intros H.
  - apply filter_In in H. destruct H as [_ H]. now apply negb_true_iff in H.
  - destruct (is_wildcard f) eqn:W; [|reflexivity].
    assert (existsb is_wildcard fs = true) by (apply existsb_exists; eauto).
    congruence.
Qed.

Lemma with_fields_fields q nf : get (with_fields q nf) "fields" = Arr nf.
Proof. apply get_set_same. Qed.

(** C9: the mutator is idempotent for a fixed forbidden set: applied to
    its own [nextQuery] it returns that query as it is, with no removed
    field and no removed wildcard. *)
Theorem stripFieldsFromQuery_idempotent (q : value) (F : list string) :
  stripFieldsFromQuery (nextQuery (stripFieldsFromQuery q F)) F
  = mkStrip (nextQuery (stripFieldsFromQuery q F)) [] false.
Proof.
  destruct (strip_cases q F) as [H | (fs & Hf & HF & H & _)].
  - rewrite H. simpl. exact H.
  - rewrite H. simpl nextQuery.
    set (nf := filter (not_forbidden F) (strip_base fs)).
    assert (Hnw : existsb is_wildcard nf = false).
    { destruct (existsb is_wildcard nf) eqn:E; [|reflexivity].
      apply existsb_exists in E. destruct E as (f & Hin & Hw).
      apply filter_In in Hin. destruct Hin as [Hin _].
      apply strip_base_no_wildcard in Hin. congruence. }
    assert (Hclean : forall f, In f nf -> not_forbidden F f = true).
    { intros f Hin. apply filter_In in Hin. tauto. }
    unfold stripFieldsFromQuery.
    change (negb (truthy (with_fields q nf)) || negb (typeof_object (with_fields q nf)))
      with false. cbv iota.
    rewrite with_fields_fields.
    destruct F as [|x F]; [contradiction|].
    change (Nat.eqb (List.length (x :: F)) 0) with false. cbv iota.
    rewrite Hnw. cbv zeta. simpl andb. cbv iota.
    rewrite (fold_strip_clean (x :: F) nf [] Hclean). reflexivity.
Qed.

(** C3 (as amended): the mutator never removes a field that is neither
    the wildcard nor in the forbidden set, adds none, and reports only
    forbidden names as removed; a field list made of the wildcard alone
    is the case it cannot recover, returned unchanged with empty removal
    lists; and nothing is removed silently: when both removal lists are
    empty the query comes back as it was. *)
Theorem stripFieldsFromQuery_removes_only_forbidden (q : value) (F : list string) :
  let r := stripFieldsFromQuery q F in
  (forall fs, get q "fields" = Arr fs ->
     exists fs', get (nextQuery r) "fields" = Arr fs' /\
       incl fs' fs /\
       forall f, In f fs -> is_wildcard f = false -> not_forbidden F f = true ->
                 In f fs') /\
  (forall x, In x (removedFields r) -> In x F) /\
  (forall fs, get q "fields" = Arr fs ->
     existsb is_wildcard fs = true ->
     filter (fun f => negb (is_wildcard f)) fs = [] ->
     r = mkStrip q [] false) /\
  (removedFields r = [] -> removedWildcard r = false -> nextQuery r = q).
Proof.
  cbv zeta.
  destruct (strip_cases q F) as [H | (fs0 & Hf & HF & H & Hrem)]; rewrite H.
  - simpl. repeat split.
    + intros fs Hfs. exists fs. split; [exact Hfs|]. split; [apply incl_refl | auto].
    + intros x [].
  - simpl. repeat split.
    + intros fs Hfs. rewrite Hf in Hfs. injection Hfs as <-.
      exists (filter (not_forbidden F) (strip_base fs0)).
      split; [apply with_fields_fields|]. split.
      * intros f Hin. apply filter_In in Hin. destruct Hin as [Hin _].
        unfold strip_base in Hin. destruct (existsb is_wildcard fs0); [|exact Hin].
        apply filter_In in Hin. tauto.
      * intros f Hin Hw Hnf. apply filter_In. split; [|exact Hnf].
        unfold strip_base. destruct (existsb is_wildcard fs0); [|exact Hin].
        apply filter_In. split; [exact Hin | now rewrite Hw].
    + intros x Hx. apply fold_strip_snd_in in Hx. destruct Hx as [[]|Hx]. exact Hx.
    + intros fs Hfs Hw Hnil. rewrite Hf in Hfs. injection Hfs as <-.
      exfalso.
      assert (Hu : stripFieldsFromQuery q F = unchanged q).
      { unfold stripFieldsFromQuery.
        destruct (negb (truthy q) || negb (typeof_object q)); [reflexivity|].
        rewrite Hf. destruct (Nat.eqb (List.length F) 0); [reflexivity|].
        now rewrite Hw, Hnil. }
      rewrite H in Hu. apply (f_equal removedWildcard) in Hu. simpl in Hu.
      congruence.
    + intros Hr Hw. destruct Hrem as [Hrem|Hrem]; congruence.
Qed.

(** C3 (as stated) fails: with the one field [a] and [a] forbidden, the
    removal leaves zero fields, and the mutator returns the narrowed
    query with an empty field list and [a] reported as removed, not the
    original query with empty removal lists. *)
Lemma stripFieldsFromQuery_narrows_to_zero :
  stripFieldsFromQuery query_a ["a"]
  = mkStrip (Obj [("fields", Arr []); ("limit", Num 1)]) ["a"] false
  /\ stripFieldsFromQuery query_a ["a"] <> mkStrip query_a [] false.
Proof. split; [reflexivity|]. intro H. vm_compute in H. discriminate H. Qed.

(** The statement of C3 above, at a query with the wildcard, one allowed
    and one forbidden field. *)
Lemma stripFieldsFromQuery_removes_only_forbidden_witness :
  let q := Obj [("fields", Arr [Str "*"; Str "title"; Str "secret_note"])] in
  let r := stripFieldsFromQuery q ["secret_note"] in
  (exists fs', get (nextQuery r) "fields" = Arr fs' /\ In (Str "title") fs') /\
  (forall x, In x (removedFields r) -> In x ["secret_note"]).
Proof.
  cbv zeta.
  pose proof (stripFieldsFromQuery_removes_only_forbidden
                (Obj [("fields", Arr [Str "*"; Str "title"; Str "secret_note"])])
                ["secret_note"]) as H.
  cbv zeta in H. destruct H as (Ha & Hb & _ & _).
  split; [|exact Hb].
  destruct (Ha [Str "*"; Str "title"; Str "secret_note"] eq_refl) as (fs' & Hfs & _ & Hin).
  exists fs'. split; [exact Hfs|].
  apply Hin; [simpl; auto | reflexivity | reflexivity].
Defined.

(* ------------------------------------------------------------------ *)
(** ** The matcher finds a match exactly when there is one *)

Section MatcherCorrect.

Variable R : Type.
Variable icase : bool.

Lemma star_loop_sound r (step : list ascii -> capture -> cont R -> option R) :
  sound_step icase r step ->
  forall fuel s cap k x, star_loop step k fuel s cap = Some x ->
    exists s1 s2 cap', s = s1 ++ s2 /\ matches icase (Star r) s1 /\ k s2 cap' = Some x.
Proof.
  intros Hstep. induction fuel as [|fuel IH]; intros s cap k x H; simpl in H.
  - exists [], s, cap. repeat split; [constructor | exact H].
  - destruct (step s cap _) as [y|] eqn:E.
    + injection H as ->.
      apply Hstep in E. destruct E as (s1 & s2 & cap' & -> & Hm & Hk).
      destruct (List.length s2 <? List.length (s1 ++ s2))%nat; [|discriminate].
      apply IH in Hk. destruct Hk as (t1 & t2 & cap'' & -> & Hm' & Hk).
      exists (s1 ++ t1), t2, cap''. rewrite app_assoc. repeat split; [|exact Hk].
      now constructor.
    + exists [], s, cap. repeat split; [constructor | exact H].
Qed.

Lemma rmatch_sound r : @sound_step R icase r (rmatch icase r).
Proof.
  induction r as [|c|p|r1 IH1 r2 IH2|r IH|r IH|r IH]; intros s cap k x H; simpl in H.
  - exists [], s, cap. repeat split; [constructor | exact H].
  - destruct s as [|d s]; [discriminate|].
    destruct (chr_eq icase c d) eqn:E; [|discriminate].
    exists [d], s, cap. repeat split; [now constructor | exact H].
  - destruct s as [|d s]; [discriminate|].
    destruct (p d) eqn:E; [|discriminate].
    exists [d], s, cap. repeat split; [now constructor | exact H].
  - apply IH1 in H. destruct H as (s1 & s2 & cap' & -> & Hm1 & H).
    apply IH2 in H. destruct H as (t1 & t2 & cap'' & -> & Hm2 & H).
    exists (s1 ++ t1), t2, cap''. rewrite app_assoc. repeat split; [|exact H].
    now constructor.
  - eapply star_loop_sound; eauto.
  - destruct (rmatch icase r s cap k) as [y|] eqn:E.
    + injection H as ->. apply IH in E. destruct E as (s1 & s2 & cap' & -> & Hm & Hk).
      exists s1, s2, cap'. repeat split; [now constructor | exact Hk].
    + exists [], s, cap. repeat split; [constructor | exact H].
  - apply IH in H. destruct H as (s1 & s2 & cap' & -> & Hm & Hk).
    eexists s1, s2, _. repeat split; [now constructor | exact Hk].
Qed.

Lemma star_complete_nil r : star_complete_at R icase r [].
Proof.
  intros fuel s2 cap k _ Hk. destruct fuel as [|fuel]; simpl; [apply Hk|].
  destruct (rmatch icase r s2 cap _); [discriminate | apply Hk].
Qed.

Lemma star_complete_cons r s1 s2 :
  complete_at R icase r s1 -> star_complete_at R icase r s2 ->
  star_complete_at R icase r (s1 ++ s2).
Proof.
  intros H1 H2. destruct s1 as [|c s1]; [exact H2|].
  intros fuel s3 cap k Hfuel Hk.
  destruct fuel as [|fuel]; [simpl in Hfuel; lia|].
  cbn [Regex.star_loop].
  match goal with
  | |- context [rmatch icase r ?s cap ?k'] => assert (Hr : rmatch icase r s cap k' <> None)
  end.
  { rewrite <- app_assoc. apply H1. intros cap'.
    assert (Hlt : (List.length (s2 ++ s3) <? List.length ((c :: s1) ++ s2 ++ s3))%nat = true).
    { apply Nat.ltb_lt. rewrite !length_app. simpl. lia. }
    rewrite Hlt. apply H2; [|exact Hk].
    rewrite <- app_assoc in Hfuel. rewrite length_app in Hfuel. simpl in Hfuel.
    rewrite length_app in *. lia. }
  destruct (rmatch icase r _ cap _); [discriminate | contradiction].
Qed.

Lemma matches_complete r s1 :
  matches icase r s1 ->
  complete_at R icase r s1 /\ (forall r', r = Star r' -> star_complete_at R icase r' s1).
Proof.
  induction 1 as [|c d Hc|p d Hp|r1 r2 s1 s2 _ [IH1 _] _ [IH2 _]
                  |r|r s1 s2 _ [IH1 _] _ [_ IH2]|r|r s _ [IH _]|r s _ [IH _]].
  - split; [|discriminate]. intros s2 cap k Hk. apply Hk.
  - split; [|discriminate]. intros s2 cap k Hk. simpl. rewrite Hc. apply Hk.
  - split; [|discriminate]. intros s2 cap k Hk. simpl. rewrite Hp. apply Hk.
  - split; [|discriminate]. intros s3 cap k Hk. simpl. rewrite <- app_assoc.
    apply IH1. intros cap'. now apply IH2.
  - assert (S : star_complete_at R icase r []) by apply star_complete_nil.
    split; [|now intros r' [= <-]].
    intros s2 cap k Hk. simpl. now apply S.
  - assert (S : star_complete_at R icase r (s1 ++ s2)).
    { apply star_complete_cons; [exact IH1 | now apply IH2]. }
    split; [|now intros r' [= <-]].
    intros s3 cap k Hk. simpl. now apply S.
  - split; [|discriminate]. intros s2 cap k Hk. simpl.
    destruct (rmatch icase r s2 cap k); [discriminate | apply Hk].
  - split; [|discriminate]. intros s2 cap k Hk. simpl.
    specialize (IH s2 cap k Hk). now destruct (rmatch icase r (s ++ s2) cap k).
  - split; [|discriminate]. intros s2 cap k Hk. simpl.
    apply IH. intros cap'. apply Hk.
Qed.

End MatcherCorrect.

Lemma firstn_front {A} (s1 s2 : list A) :
  firstn (List.length (s1 ++ s2) - List.length s2) (s1 ++ s2) = s1.
Proof.
  rewrite length_app, Nat.add_sub. rewrite firstn_app, Nat.sub_diag, firstn_all.
  simpl. apply app_nil_r.
Qed.

Lemma match_here_sound icase r s m :
  match_here icase r s = Some m ->
  s = matched m ++ rest m /\ matches icase r (matched m).
Proof.
  unfold match_here. intros H. apply rmatch_sound in H.
  destruct H as (s1 & s2 & cap' & -> & Hm & [= <-]). simpl.
  now rewrite firstn_front.
Qed.

Lemma match_here_complete icase r s1 s2 :
  matches icase r s1 -> match_here icase r (s1 ++ s2) <> None.
Proof.
  intros H. unfold match_here. apply (matches_complete _ H). discriminate.
Qed.

Lemma exec_sound icase r s m :
  exec icase r s = Some m ->
  exists pre, s = pre ++ matched m ++ rest m /\ matches icase r (matched m).
Proof.
  induction s as [|c s IH]; simpl.
  - destruct (match_here icase r []) as [m'|] eqn:E; [|discriminate].
    intros [= <-]. apply match_here_sound in E. now exists [].
  - destruct (match_here icase r (c :: s)) as [m'|] eqn:E.
    + intros [= <-]. apply match_here_sound in E. now exists [].
    + intros H. apply IH in H. destruct H as (pre & -> & Hm).
      now exists (c :: pre).
Qed.

Lemma exec_complete icase r s : occurs icase r s -> exec icase r s <> None.
Proof.
  intros (pre & mid & post & -> & Hm). induction pre as [|c pre IH].
  - pose proof (match_here_complete post Hm) as H. simpl app.
    destruct (mid ++ post); simpl; destruct (match_here icase r _); congruence.
  - simpl. destruct (match_here icase r _); [discriminate | exact IH].
Qed.

(** [exec] returns no match exactly when no part of the text matches. *)
Lemma exec_none_iff icase r s : exec icase r s = None <-> ~ occurs icase r s.
Proof.
  split.
  - intros H Ho. now apply exec_complete in Ho.
  - intros H. destruct (exec icase r s) as [m|] eqn:E; [|reflexivity].
    exfalso. apply H. apply exec_sound in E. destruct E as (pre & E & Hm).
    now exists pre, (matched m), (rest m).
Qed.

Lemma matchAll_none icase r s : exec icase r s = None -> matchAll icase r s = [].
Proof. intros H. unfold matchAll. simpl. now rewrite H. Qed.

(* ------------------------------------------------------------------ *)
(** ** The forbidden-field extractor *)

(** C6: on the documented two-field message the extractor returns
    [secret_note] and [date_created], in that order; and on every string
    no part of which matches the multi-field pattern or the single-field
    pattern it returns the empty list. *)
Theorem extractForbiddenFields_spec :
  extractForbiddenFields (Str two_fields_message) = ["secret_note"; "date_created"] /\
  forall reason : string,
    ~ occurs true multi_re (list_ascii_of_string reason) ->
    ~ occurs true single_re (list_ascii_of_string reason) ->
    extractForbiddenFields (Str reason) = [].
Proof.
  split; [vm_compute; reflexivity|].
  intros reason Hm Hs. unfold extractForbiddenFields.
  apply exec_none_iff in Hm. apply exec_none_iff in Hs.
  rewrite Hm, (matchAll_none _ _ _ Hs). reflexivity.
Qed.

(** The statement of C6 above, at a message that names no field. *)
Lemma extractForbiddenFields_spec_witness :
  extractForbiddenFields (Str two_fields_message) = ["secret_note"; "date_created"] /\
  extractForbiddenFields (Str "You don't have permission to access this collection.") = [].
Proof.
  split; [exact (proj1 extractForbiddenFields_spec)|].
  apply (proj2 extractForbiddenFields_spec);
    apply exec_none_iff; vm_compute; reflexivity.
Defined.

(* ------------------------------------------------------------------ *)
(** ** The handler, phase by phase *)

Section HandlerFacts.

Variables World Schema : Type.
Variable env : Collaborators World Schema.

Implicit Types (r : Run World) (acc body mode collection query : value).

Lemma build_context_log acc body mode r res r' :
  build_context env acc body mode r = (res, r') ->
  exists evs, log r' = log r ++ evs /\ forallb is_lookup evs = true.
Proof.
  unfold build_context, bind, ret, throw.
  destruct (str_eq mode "public").
  { intros [= <- <-]. exists []. now rewrite app_nil_r. }
  destruct (str_eq mode "role").
  { destruct (_ && _); intros [= <- <-]; exists []; now rewrite app_nil_r. }
  destruct (str_eq mode "user");
    [|intros [= <- <-]; exists []; now rewrite app_nil_r].
  destruct (_ && _); [|intros [= <- <-]; exists []; now rewrite app_nil_r].
  destruct (negb (truthy _)).
  - unfold call_users_first.
    destruct (users_first env (get body "userId") (world r)) as [[e|[row|]] w];
      intros [= <- <-]; simpl; eexists; split; reflexivity.
  - intros [= <- <-]. exists []. now rewrite app_nil_r.
Qed.

(** In the three simulating modes the context that is built has the
    administrator flag [false]. *)
Lemma build_context_admin acc body mode r simAcc ws r' :
  str_eq mode "public" || str_eq mode "role" || str_eq mode "user" = true ->
  build_context env acc body mode r = (inr (simAcc, ws), r') ->
  get simAcc "admin" = Bool false.
Proof.
  unfold build_context, bind, ret, throw. intros Hmode.
  destruct (str_eq mode "public").
  { intros [= <- _ _]. now rewrite builder_admin. }
  destruct (str_eq mode "role").
  { destruct (_ && _); [|discriminate]. intros [= <- _ _]. now rewrite builder_admin. }
  destruct (str_eq mode "user"); [|discriminate Hmode].
  destruct (_ && _); [|discriminate].
  destruct (negb (truthy _)).
  - unfold call_users_first.
    destruct (users_first env (get body "userId") (world r)) as [[e|[row|]] w];
      try discriminate.
    intros [= <- _ _]. now rewrite builder_admin.
  - intros [= <- _ _]. now rewrite builder_admin.
Qed.

(** With a non-empty string [roleId] in the body, the user branch asks
    nothing of the user directory: it is decided by the body alone. *)
Lemma build_context_user_with_role acc body r rid :
  get body "roleId" = Str rid -> rid <> "" ->
  build_context env acc body (Str "user") r
  = (if truthy (get body "userId") && typeof_string (get body "userId")
     then inr (buildSimulatedAccountability acc
                 (user_overrides (get body "userId") (Str rid)), [])
     else inl BadRequestError, r).
Proof.
  intros Hrole Hne. unfold build_context.
  change (str_eq (Str "user") "public") with false.
  change (str_eq (Str "user") "role") with false.
  change (str_eq (Str "user") "user") with true. cbv iota.
  unfold bind, ret, throw.
  destruct (_ && _); [|reflexivity].
  rewrite Hrole. change (typeof_string (Str rid)) with true. cbv iota.
  assert (Ht : truthy (Str rid) = true).
  { simpl. destruct (String.eqb rid "") eqn:E; [|reflexivity].
    apply String.eqb_eq in E. contradiction. }
  rewrite Ht. cbn [negb]. cbv iota beta. rewrite Ht. reflexivity.
Qed.

Lemma call_getSchema_log r res r' :
  call_getSchema env r = (res, r') -> log r' = log r ++ [EvSchema].
Proof.
  unfold call_getSchema. destruct (getSchema env (world r)) as [[e|s] w];
    now intros [= <- <-].
Qed.

Lemma strip_changed_query query F :
  negb (Nat.eqb (List.length (removedFields (stripFieldsFromQuery query F))) 0)
  || removedWildcard (stripFieldsFromQuery query F) = true ->
  get (nextQuery (stripFieldsFromQuery query F)) "fields" <> get query "fields".
Proof.
  destruct (strip_cases query F) as [H | (fs & Hf & HF & H & Hrem)]; rewrite H.
  - discriminate.
  - intros _. simpl nextQuery. rewrite with_fields_fields, Hf. intros [= Heq].
    assert (Hsub : filter (not_forbidden F) (strip_base fs) = fs -> False).
    { intros E. destruct Hrem as [Hw|Hr].
      - apply existsb_exists in Hw. destruct Hw as (f & Hin & Hw).
        rewrite <- E in Hin. apply filter_In in Hin. destruct Hin as [Hin _].
        apply strip_base_no_wildcard in Hin. congruence.
      - apply Hr. 
        rewrite (fold_strip_clean F (strip_base fs) []); [reflexivity|].
        intros f Hin.
        assert (Hb : strip_base fs = fs).
        { unfold strip_base in *. destruct (existsb is_wildcard fs) eqn:W; [|reflexivity].
          apply existsb_exists in W. destruct W as (g & Hg & Wg).
          rewrite <- E in Hg. apply filter_In in Hg. destruct Hg as [Hg _].
          apply filter_In in Hg. destruct Hg as [_ Hg]. rewrite Wg in Hg. discriminate. }
        rewrite Hb in E, Hin. rewrite <- E in Hin. apply filter_In in Hin. tauto. }
    exact (Hsub Heq).
Qed.

Lemma read_simulated_cases (schema : Schema) acc collection query r res r' :
  read_simulated env schema acc collection query r = (res, r') ->
  exists evs, log r' = log r ++ evs /\
              simulated_outcome acc collection query res evs.
Proof.
  unfold read_simulated, bind, call_readByQuery, ret, throw.
  destruct (readByQuery env schema acc collection query (world r)) as [[e|items] w].
  2:{ intros [= <- <-]. simpl. eexists. split; [reflexivity | constructor]. }
  fold (reason_of e).
  destruct (negb (Nat.eqb (List.length (extractForbiddenFields (reason_of e))) 0)).
  2:{ intros [= <- <-]. simpl. eexists. split; [reflexivity | constructor]. }
  destruct (negb _ || removedWildcard _) eqn:Hch.
  2:{ intros [= <- <-]. simpl. eexists. split; [reflexivity | constructor]. }
  simpl world. simpl log. fold (retry_query query e).
  destruct (readByQuery env schema acc collection (retry_query query e) w)
    as [[e'|items] w'].
  - intros [= <- <-]. simpl. rewrite <- app_assoc. eexists. split; [reflexivity|].
    constructor.
  - intros [= <- <-]. simpl. rewrite <- app_assoc. eexists. split; [reflexivity|].
    constructor. intros Heq. apply strip_changed_query in Hch.
    apply Hch. unfold retry_query in Heq. now rewrite Heq.
Qed.

Lemma read_requester_cases (schema : Schema) acc collection query includeRequester
  r res r' :
  read_requester env schema acc collection query includeRequester r = (res, r') ->
  (truthy includeRequester = false /\ res = inr [] /\ r' = r) \/
  (truthy includeRequester = true /\
   exists out, log r' = log r ++ [EvRead RequesterService acc collection query out] /\
     res = match out with inl e => inl (Thrown e) | inr items => inr items end).
Proof.
  unfold read_requester, bind, call_readByQuery, rethrow, ret, throw.
  destruct (truthy includeRequester).
  - destruct (readByQuery env schema acc collection query (world r)) as [[e|items] w];
      intros [= <- <-]; right; (split; [reflexivity|]); eexists; split; reflexivity.
  - intros [= <- <-]. now left.
Qed.

End HandlerFacts.

(* ------------------------------------------------------------------ *)
(** ** The handler as a whole *)

Section HandlerRuns.

Variables World Schema : Type.
Variable env : Collaborators World Schema.

Implicit Types (r : Run World) (request : Request).

Lemma read_simulated_warnings (schema : Schema) acc collection query r items ws r' :
  read_simulated env schema acc collection query r = (inr (items, ws), r') ->
  ws = [] \/ exists e, ws = retry_warnings query e.
Proof.
  unfold read_simulated, bind, call_readByQuery, ret, throw.
  destruct (readByQuery env schema acc collection query (world r)) as [[e|items0] w].
  2:{ intros [= _ <- _]. now left. }
  fold (reason_of e).
  destruct (negb (Nat.eqb (List.length (extractForbiddenFields (reason_of e))) 0));
    [|discriminate].
  destruct (negb _ || removedWildcard _); [|discriminate].
  simpl world.
  destruct (readByQuery env schema acc collection _ w) as [[e'|items1] w'];
    [discriminate|].
  intros [= _ <- _]. right. exists e. reflexivity.
Qed.

Lemma simulate_run request r out r' :
  simulate env request r = (out, r') -> run_of env request r out r'.
Proof.
  unfold simulate. fold (body_of request). fold (mode_of request).
  fold (collection_of request). fold (include_of request).
  destruct (truthy (get (accountability request) "admin"));
    [|intros [= <- <-]; constructor; now left].
  destruct (truthy (collection_of request) && typeof_string (collection_of request));
    [|intros [= <- <-]; constructor; now right].
  destruct (existsb (str_eq (mode_of request)) modes);
    [|intros [= <- <-]; constructor; now right].
  destruct (parseJsonIfNeeded env (get (body_of request) "query")) as [parsed|] eqn:Hp;
    [|intros [= <- <-]; constructor; now right].
  unfold bind at 1.
  destruct (build_context env _ _ _ r) as [[e|[simAcc ws1]] r1] eqn:H1.
  { intros [= <- <-]. eapply RunContextFailed; eauto. }
  unfold bind at 1.
  destruct (call_getSchema env r1) as [[e|schema] r2] eqn:H2.
  { intros [= <- <-]. eapply RunSchemaFailed; eauto. }
  unfold bind at 1.
  destruct (read_simulated env schema simAcc _ _ r2) as [[e|[items ws2]] r3] eqn:H3.
  { intros [= <- <-]. eapply RunSimulatedFailed; eauto. }
  unfold bind at 1.
  destruct (read_requester env schema _ _ _ _ r3) as [[e|ritems] r4] eqn:H4.
  { intros [= <- <-]. eapply RunRequesterFailed; eauto. }
  unfold ret. intros [= <- <-]. eapply RunResponded; eauto.
Qed.

(** A run from an empty log: rejected on the request alone, with no
    call made; or the context is built and the rest follows. *)
Lemma simulate_trace request w out r' :
  simulate env request (start w) = (out, r') ->
  ((out = inl ForbiddenError \/ out = inl BadRequestError) /\ r' = start w) \/
  exists parsed ctx r1 tail,
    parseJsonIfNeeded env (get (body_of request) "query") = Some parsed /\
    build_context env (accountability request) (body_of request) (mode_of request)
      (start w) = (ctx, r1) /\
    log r' = log r1 ++ tail /\
    trace_after request (nullish_or parsed (Obj [])) ctx out tail.
Proof.
  intros H. apply simulate_run in H.
  destruct H as [e He | parsed e r1 Hp H1 | parsed simAcc ws1 r1 e r2 Hp H1 H2
                 | parsed simAcc ws1 r1 schema r2 e r3 Hp H1 H2 H3
                 | parsed simAcc ws1 r1 schema r2 items ws2 r3 e r4 Hp H1 H2 H3 H4
                 | parsed simAcc ws1 r1 schema r2 items ws2 r3 ritems r4 Hp H1 H2 H3 H4].
  - left. split; [|reflexivity]. destruct He as [-> | ->]; auto.
  - right. exists parsed, (inl e), r1, []. rewrite app_nil_r.
    repeat split; [exact Hp | exact H1 | constructor].
  - right. pose proof (call_getSchema_log _ _ H2) as E2.
    unfold call_getSchema in H2. destruct (getSchema env (world r1)) as [[e0|s] w0];
      [|discriminate]. injection H2 as <- _.
    exists parsed, (inr (simAcc, ws1)), r1, [EvSchema].
    repeat split; [exact Hp | exact H1 | exact E2 | constructor].
  - right. apply call_getSchema_log in H2.
    apply read_simulated_cases in H3. destruct H3 as (sim & E3 & Hs).
    exists parsed, (inr (simAcc, ws1)), r1, (EvSchema :: sim ++ []).
    repeat split; [exact Hp | exact H1 | | ].
    + rewrite E3, H2, app_nil_r, <- app_assoc. reflexivity.
    + econstructor; [exact Hs | now split].
  - right. apply call_getSchema_log in H2.
    pose proof (read_simulated_warnings _ _ _ _ _ H3) as Hw.
    apply read_simulated_cases in H3. destruct H3 as (sim & E3 & Hs).
    apply read_requester_cases in H4.
    destruct H4 as [(_ & [=] & _) | (Hi & o & E4 & Ho)].
    destruct o as [e0|ritems]; [|discriminate Ho]. injection Ho as ->.
    eexists parsed, (inr (simAcc, ws1)), r1, (EvSchema :: sim ++ [_]).
    repeat split; [exact Hp | exact H1 | | ].
    + rewrite E4, E3, H2, <- !app_assoc. reflexivity.
    + econstructor; [exact Hs|]. split; [exact Hw|]. right. split; [exact Hi|].
      exists (inl e0). split; reflexivity.
  - right. apply call_getSchema_log in H2.
    pose proof (read_simulated_warnings _ _ _ _ _ H3) as Hw.
    apply read_simulated_cases in H3. destruct H3 as (sim & E3 & Hs).
    apply read_requester_cases in H4.
    destruct H4 as [(Hi & [= ->] & ->) | (Hi & o & E4 & Ho)].
    + exists parsed, (inr (simAcc, ws1)), r1, (EvSchema :: sim ++ []).
      repeat split; [exact Hp | exact H1 | | ].
      * rewrite E3, H2, app_nil_r, <- app_assoc. reflexivity.
      * econstructor; [exact Hs|]. split; [exact Hw|]. left.
        split; [exact Hi|]. split; [reflexivity|].
        unfold response_of. now rewrite Hi.
    + destruct o as [e0|ritems0]; [discriminate Ho|]. injection Ho as <-.
      eexists parsed, (inr (simAcc, ws1)), r1, (EvSchema :: sim ++ [_]).
      repeat split; [exact Hp | exact H1 | | ].
      * rewrite E4, E3, H2, <- !app_assoc. reflexivity.
      * econstructor; [exact Hs|]. split; [exact Hw|]. right. split; [exact Hi|].
        exists (inr ritems). split; reflexivity.
Qed.

End HandlerRuns.

(* ------------------------------------------------------------------ *)
(** ** Reading the log *)

Lemma simulated_reads_app l l' :
  simulated_reads (l ++ l') = simulated_reads l ++ simulated_reads l'.
Proof. apply filter_app. Qed.

Lemma lookups_no_reads evs :
  forallb is_lookup evs = true ->
  filter is_read evs = [] /\ simulated_reads evs = [].
Proof.
  induction evs as [|ev evs IH]; simpl; [auto|].
  intros H. apply andb_prop in H. destruct H as [Hev H].
  destruct ev; try discriminate. simpl. now apply IH.
Qed.

Lemma simulated_outcome_reads acc collection query res sim :
  simulated_outcome acc collection query res sim ->
  simulated_reads sim = sim /\ filter is_read sim = sim /\
  (List.length sim <= 2)%nat /\
  forall ev, In ev sim -> exists q o, ev = EvRead SimulatedService acc collection q o.
Proof.
  destruct 1; simpl; repeat split; try lia;
    intros ev Hin; simpl in Hin; intuition (subst; eauto).
Qed.

Lemma after_simulated_no_simulated request query ws1 res out post :
  after_simulated request query ws1 res out post ->
  simulated_reads post = [] /\
  (forall ev, In ev post -> is_lookup ev = false) /\
  (forall acc c q o, ~ In (EvRead SimulatedService acc c q o) post).
Proof.
  assert (Hnil : simulated_reads [] = [] /\
                 (forall ev, In ev [] -> is_lookup ev = false) /\
                 (forall acc c q o, ~ In (EvRead SimulatedService acc c q o) [])).
  { split; [reflexivity|]. split; [intros ev [] | intros acc c q o []]. }
  unfold after_simulated. destruct res as [e|[items ws2]].
  - intros [_ ->]. exact Hnil.
  - intros [_ [(_ & -> & _) | (_ & o & -> & _)]]; [exact Hnil|].
    split; [reflexivity|]. split.
    + intros ev [<-|[]]. reflexivity.
    + intros acc c q o' [H|[]]. discriminate H.
Qed.

(* ------------------------------------------------------------------ *)
(** ** The one-retry protocol and the simulated context *)

Section HandlerClaims.

Variables World Schema : Type.
Variable env : Collaborators World Schema.

(** The simulated reads of a run: none, or the reads of one simulated
    outcome, made with the context that was built. *)
Lemma simulate_simulated_reads request (w : World) out r' :
  simulate env request (start w) = (out, r') ->
  (simulated_reads (log r') = [] /\
   forall acc c q o, ~ In (EvRead SimulatedService acc c q o) (log r')) \/
  exists parsed simAcc ws1 r1 res sim post,
    build_context env (accountability request) (body_of request) (mode_of request)
      (start w) = (inr (simAcc, ws1), r1) /\
    simulated_outcome simAcc (collection_of request) (nullish_or parsed (Obj [])) res sim /\
    after_simulated request (nullish_or parsed (Obj [])) ws1 res out post /\
    log r' = log r1 ++ EvSchema :: sim ++ post /\
    simulated_reads (log r') = sim /\
    filter is_read (log r') = sim ++ filter is_read post /\
    forall ev, In ev (log r') -> is_simulated_read ev = true -> In ev sim.
Proof.
  intros H. apply simulate_trace in H.
  destruct H as [[_ ->] | (parsed & ctx & r1 & tail & Hp & H1 & El & Ht)].
  { left. split; [reflexivity | intros acc c q o []]. }
  pose proof (build_context_log _ _ _ _ _ H1) as (evs & E1 & Hl). simpl in E1.
  pose proof (lookups_no_reads _ Hl) as [Hr Hs].
  assert (Hevs : forall ev, In ev evs -> is_simulated_read ev = false).
  { intros ev Hin. rewrite forallb_forall in Hl. specialize (Hl ev Hin). now destruct ev. }
  destruct Ht as [e | simAcc ws1 e | simAcc ws1 res sim out post Hsim Hafter].
  - left. rewrite El, E1, app_nil_r. split; [exact Hs|].
    intros acc c q o Hin. apply Hevs in Hin. discriminate Hin.
  - left. rewrite El, E1. split.
    + rewrite simulated_reads_app, Hs. reflexivity.
    + intros acc c q o Hin. apply in_app_or in Hin. destruct Hin as [Hin|[Hin|[]]].
      * apply Hevs in Hin. discriminate Hin.
      * discriminate Hin.
  - right. exists parsed, simAcc, ws1, r1, res, sim, post.
    pose proof (simulated_outcome_reads Hsim) as (S1 & S2 & _ & _).
    pose proof (after_simulated_no_simulated _ _ _ _ _ _ Hafter) as (P1 & _ & P3).
    repeat split; try assumption.
    + rewrite El, E1.
      change (EvSchema :: sim ++ post) with ([EvSchema] ++ sim ++ post).
      rewrite !simulated_reads_app, Hs, S1, P1. simpl. apply app_nil_r.
    + rewrite El, E1.
      change (EvSchema :: sim ++ post) with ([EvSchema] ++ sim ++ post).
      unfold simulated_reads in *. rewrite !filter_app, Hr, S2. reflexivity.
    + intros ev Hin Hev. rewrite El, E1 in Hin.
      apply in_app_or in Hin. destruct Hin as [Hin|[<-|Hin]].
      * apply Hevs in Hin. congruence.
      * discriminate Hev.
      * apply in_app_or in Hin. destruct Hin as [Hin|Hin]; [exact Hin|].
        destruct ev as [| |[] acc c q o]; try discriminate Hev.
        now apply P3 in Hin.
Qed.

(** C7: a run invokes the query service at most twice for the simulated
    context; a second simulated read is only made after the first one
    failed; and when that retry fails too, its error is what the caller
    gets, with no read at all after it. *)
Theorem simulate_at_most_one_retry request (w : World) out r' :
  simulate env request (start w) = (out, r') ->
  (List.length (simulated_reads (log r')) <= 2)%nat /\
  forall acc1 c1 q1 o1 acc2 c2 q2 o2,
    simulated_reads (log r')
    = [EvRead SimulatedService acc1 c1 q1 o1; EvRead SimulatedService acc2 c2 q2 o2] ->
    (exists e1, o1 = inl e1) /\
    (forall e2, o2 = inl e2 ->
       out = inl (Thrown e2) /\
       filter is_read (log r') = simulated_reads (log r')).
Proof.
  intros H. apply simulate_simulated_reads in H.
  destruct H as [[Hs _] | (parsed & simAcc & ws1 & r1 & res & sim & post
                            & _ & Hsim & Hafter & _ & Hs & Hr & _)].
  - rewrite Hs. split; [simpl; lia | discriminate].
  - rewrite Hs, Hr. split; [apply (simulated_outcome_reads Hsim)|].
    intros acc1 c1 q1 o1 acc2 c2 q2 o2 E.
    destruct Hsim as [items | e | e items ws Hne | e e']; try discriminate E.
    + injection E as <- <- <- <- _ _ _ <-. split; [eauto | discriminate].
    + injection E as <- <- <- <- _ _ _ <-. split; [eauto|].
      intros e2 [= <-]. destruct Hafter as [-> ->]. split; [reflexivity|].
      simpl. reflexivity.
Qed.

(** C8: in the modes [user], [role] and [public], every read of the
    simulated service is made with a context whose administrator flag
    is [false], whatever the caller's own context. *)
Theorem simulated_context_not_admin request (w : World) out r' m :
  simulate env request (start w) = (out, r') ->
  In m ["user"; "role"; "public"] ->
  mode_of request = Str m ->
  forall acc c q o,
    In (EvRead SimulatedService acc c q o) (log r') -> get acc "admin" = Bool false.
Proof.
  intros H Hm Hmode acc c q o Hin. apply simulate_simulated_reads in H.
  destruct H as [[_ Hno] | (parsed & simAcc & ws1 & r1 & res & sim & post
                             & H1 & Hsim & _ & _ & _ & _ & Hall)].
  - now apply Hno in Hin.
  - apply Hall in Hin; [|reflexivity].
    apply (simulated_outcome_reads Hsim) in Hin. destruct Hin as (q' & o' & [= -> _ _ _]).
    eapply build_context_admin; [|exact H1].
    rewrite Hmode. simpl in Hm.
    destruct Hm as [<-|[<-|[<-|[]]]]; reflexivity.
Qed.

Lemma bind_ext {A B} (m m' : M World A) (k k' : A -> M World B) (r : Run World) :
  m r = m' r -> (forall a r1, k a r1 = k' a r1) -> bind m k r = bind m' k' r.
Proof.
  intros Hm Hk. unfold bind. rewrite Hm. destruct (m' r) as [[e|a] r1]; [reflexivity|].
  apply Hk.
Qed.

Lemma warn_status_not_retry status query e :
  ~ In (warn_status status) (retry_warnings query e).
Proof.
  unfold retry_warnings. cbv zeta.
  destruct (removedWildcard _); destruct (negb _); simpl;
    intros H; repeat destruct H as [H|H]; try discriminate H; exact H.
Qed.

Lemma mode_of_user request :
  get (body_of request) "mode" = Str "user" -> mode_of request = Str "user".
Proof. unfold mode_of. now intros ->. Qed.

Lemma simulate_user_with_role_any_directory request rid directory r :
  get (body_of request) "mode" = Str "user" ->
  get (body_of request) "roleId" = Str rid -> rid <> "" ->
  simulate (with_directory env directory) request r = simulate env request r.
Proof.
  intros Hmode Hrole Hne. unfold simulate.
  fold (body_of request). fold (mode_of request). rewrite (mode_of_user _ Hmode).
  destruct (truthy (get (accountability request) "admin")); [|reflexivity].
  destruct (_ && _); [|reflexivity].
  destruct (existsb _ modes); [|reflexivity].
  change (parseJsonIfNeeded (with_directory env directory))
    with (parseJsonIfNeeded env).
  destruct (parseJsonIfNeeded env _); [|reflexivity].
  apply bind_ext; [|reflexivity].
  now rewrite !(build_context_user_with_role _ _ _ _ Hrole Hne).
Qed.

(** C10: when a request in mode [user] carries a role id (a non-empty
    string) in its body, the user directory is never asked: the log
    holds no lookup; the run is the same whatever the directory holds,
    so a user it does not know is no rejection; no warning about the
    account status is ever among the warnings; and every simulated read
    is made with the context built from the supplied user and role, the
    role taken as it is. *)
Theorem user_mode_with_role_skips_directory request (w : World) out r' rid :
  get (body_of request) "mode" = Str "user" ->
  get (body_of request) "roleId" = Str rid -> rid <> "" ->
  simulate env request (start w) = (out, r') ->
  (forall ev, In ev (log r') -> is_lookup ev = false) /\
  (forall directory,
     simulate (with_directory env directory) request (start w) = (out, r')) /\
  (forall resp, out = inr resp ->
     forall status, ~ In (warn_status status) (r_warnings resp)) /\
  (forall acc c q o,
     In (EvRead SimulatedService acc c q o) (log r') ->
     acc = buildSimulatedAccountability (accountability request)
             (user_overrides (get (body_of request) "userId") (Str rid)) /\
     get acc "role" = Str rid /\ get acc "roles" = Arr [Str rid]).
Proof.
  intros Hmode Hrole Hne H.
  assert (Ht : truthy (Str rid) = true).
  { simpl. destruct (String.eqb rid "") eqn:E; [|reflexivity].
    apply String.eqb_eq in E. contradiction. }
  split; [|split; [|split]].
  - apply simulate_trace in H.
    destruct H as [[_ ->] | (parsed & ctx & r1 & tail & _ & H1 & El & Htr)];
      [intros ev []|].
    rewrite (mode_of_user _ Hmode), (build_context_user_with_role _ _ _ _ Hrole Hne) in H1.
    injection H1 as _ <-. simpl in El. rewrite El.
    destruct Htr as [e | simAcc ws1 e | simAcc ws1 res sim out post Hsim Hafter].
    + intros ev [].
    + intros ev [<-|[]]. reflexivity.
    + intros ev [<-|Hin]; [reflexivity|].
      apply in_app_or in Hin. destruct Hin as [Hin|Hin].
      * apply (simulated_outcome_reads Hsim) in Hin. now destruct Hin as (q & o & ->).
      * now apply (after_simulated_no_simulated _ _ _ _ _ _ Hafter).
  - intros directory. rewrite <- H.
    now apply simulate_user_with_role_any_directory with (rid := rid).
  - intros resp -> status Hin. apply simulate_trace in H.
    destruct H as [[[H|H] _] | (parsed & ctx & r1 & tail & _ & H1 & _ & Htr)];
      try discriminate H.
    rewrite (mode_of_user _ Hmode), (build_context_user_with_role _ _ _ _ Hrole Hne) in H1.
    inversion Htr as [e | simAcc ws1 e | simAcc ws1 res sim out' post Hsim Hafter];
      subst.
    destruct (_ && _); [|discriminate H1]. injection H1 as <- <- _.
    unfold after_simulated in Hafter. destruct res as [e|[items ws2]].
    { destruct Hafter as [Hafter _]. discriminate Hafter. }
    destruct Hafter as [Hws [(_ & _ & [= ->]) | (_ & o & _ & Ho)]].
    + simpl in Hin. destruct Hws as [->|[e ->]]; [exact Hin|].
      now apply warn_status_not_retry in Hin.
    + destruct o as [e|ritems]; [discriminate Ho|]. injection Ho as ->.
      simpl in Hin. destruct Hws as [->|[e ->]]; [exact Hin|].
      now apply warn_status_not_retry in Hin.
  - intros acc c q o Hin. apply simulate_simulated_reads in H.
    destruct H as [[_ Hno] | (parsed & simAcc & ws1 & r1 & res & sim & post
                               & H1 & Hsim & _ & _ & _ & _ & Hall)].
    { now apply Hno in Hin. }
    apply Hall in Hin; [|reflexivity].
    apply (simulated_outcome_reads Hsim) in Hin. destruct Hin as (q' & o' & [= -> _ _ _]).
    rewrite (mode_of_user _ Hmode), (build_context_user_with_role _ _ _ _ Hrole Hne) in H1.
    destruct (_ && _); [|discriminate H1]. injection H1 as <- _ _.
    split; [reflexivity|].
    assert (Hr : get (buildSimulatedAccountability (accountability request)
                        (user_overrides (get (body_of request) "userId") (Str rid)))
                   "role" = Str rid).
    { rewrite builder_role. reflexivity. }
    split; [exact Hr|]. rewrite builder_roles. cbv zeta. now rewrite Hr, Ht.
Qed.

Lemma build_context_requester acc body r :
  build_context env acc body (Str "requester") r = (inr (acc, []), r).
Proof. reflexivity. Qed.

(** C5 (as amended): for a caller that is an administrator, a request
    whose [mode] is present and is not one of [requester], [user],
    [role], [public] is rejected with the bad-request error, status 400,
    before any call to a collaborator; a request whose body has no
    [mode] is not rejected for that: it runs as the same request with
    [mode] set to [requester]. *)
Theorem invalid_mode_rejected :
  (forall request (w : World),
     truthy (get (accountability request) "admin") = true ->
     is_nullish (get (body_of request) "mode") = false ->
     existsb (str_eq (get (body_of request) "mode")) modes = false ->
     simulate env request (start w) = (inl BadRequestError, start w)) /\
  status_of BadRequestError = 400%Z /\
  (forall acc ps (r : Run World),
     is_nullish (get (Obj ps) "mode") = true ->
     simulate env (mkRequest acc (Obj ps)) r
     = simulate env (mkRequest acc (Obj (assoc_set "mode" (Str "requester") ps))) r).
Proof.
  split; [|split; [reflexivity|]].
  - intros request w Hadmin Hnn Hmode. unfold simulate.
    fold (body_of request). rewrite Hadmin.
    unfold nullish_or at 1. rewrite Hnn, Hmode.
    now destruct (_ && _).
  - intros acc ps r Hn. unfold simulate. cbn [accountability body].
    change (nullish_or (Obj ps) (Obj [])) with (Obj ps).
    change (nullish_or (Obj (assoc_set "mode" (Str "requester") ps)) (Obj []))
      with (Obj (assoc_set "mode" (Str "requester") ps)).
    rewrite get_set_same.
    rewrite !(@get_set_other "mode" "collection") by string_neq.
    rewrite !(@get_set_other "mode" "includeRequester") by string_neq.
    rewrite !(@get_set_other "mode" "query") by string_neq.
    assert (Hm : nullish_or (get (Obj ps) "mode") (Str "requester") = Str "requester").
    { unfold nullish_or. now rewrite Hn. }
    rewrite !Hm.
    change (nullish_or (Str "requester") (Str "requester")) with (Str "requester").
    destruct (truthy (get acc "admin")); [|reflexivity].
    destruct (_ && _); [|reflexivity].
    change (existsb (str_eq (Str "requester")) modes) with true. cbv iota.
    destruct (parseJsonIfNeeded env _); [|reflexivity].
    apply bind_ext; reflexivity.
Qed.

End HandlerClaims.

(* ------------------------------------------------------------------ *)
(** ** Runs of the handler *)

(** The query of a response is the query of the request as parsed,
    whatever queries the simulated reads were made with. *)
Lemma response_query_is_request_query World Schema (env : Collaborators World Schema)
  request (w : World) resp r' :
  simulate env request (start w) = (inr resp, r') ->
  exists parsed,
    parseJsonIfNeeded env (get (body_of request) "query") = Some parsed /\
    r_query resp = nullish_or parsed (Obj []).
Proof.
  intros H. apply simulate_run in H.
  inversion H; subst. exists parsed. now split.
Qed.

(** C1 (as amended): when the primary read of the simulated service
    fails, the single retry succeeds and the response is sent, the
    [query] of the response is the query of the request as the primary
    read was given it; the narrowed query, which differs from it, is the
    query of the retry, whose rows the response carries. *)
Theorem recovered_response_query World Schema (env : Collaborators World Schema)
  request (w : World) resp r' acc1 c1 q1 e acc2 c2 q2 items :
  simulate env request (start w) = (inr resp, r') ->
  simulated_reads (log r')
  = [EvRead SimulatedService acc1 c1 q1 (inl e);
     EvRead SimulatedService acc2 c2 q2 (inr items)] ->
  r_query resp = q1 /\
  q2 = retry_query q1 e /\ q2 <> q1 /\
  r_simulated resp = items.
Proof.
  intros H Hs. apply simulate_simulated_reads in H.
  destruct H as [[Hnil _] | (parsed & simAcc & ws1 & r1 & res & sim & post
                              & _ & Hsim & Hafter & _ & Hsim' & _ & _)];
    [rewrite Hnil in Hs; discriminate Hs|].
  rewrite Hsim' in Hs. clear Hsim'. subst sim.
  inversion Hsim as [| |e0 items0 ws Hne|]; subst.
  unfold after_simulated in Hafter.
  destruct Hafter as [_ [(_ & _ & [= ->]) | (_ & o & _ & Ho)]].
  - now repeat split.
  - destruct o as [e1|ritems]; [discriminate Ho|]. injection Ho as ->.
    now repeat split.
Qed.

(** C1 (as stated) fails: the primary read of [title] and [secret_note]
    fails on [secret_note], the retry with the narrowed query succeeds
    and its rows are returned, and yet the [query] of the response is
    the query of the request, not the narrowed query of the successful
    read. *)
Lemma simulate_reports_request_query :
  exists resp r',
    simulate demo_env role_request (start tt) = (inr resp, r') /\
    simulated_reads (log r')
    = [EvRead SimulatedService role_context posts two_fields_query (inl secret_error);
       EvRead SimulatedService role_context posts narrowed_query (inr [post_public])] /\
    r_simulated resp = [post_public] /\
    r_query resp = two_fields_query /\
    r_query resp <> narrowed_query.
Proof.
  destruct (simulate demo_env role_request (start tt)) as [out r'] eqn:E.
  vm_compute in E. injection E as <- <-.
  eexists. eexists. split; [reflexivity|]. split; [reflexivity|].
  split; [reflexivity|]. split; [reflexivity|].
  simpl. intro H. discriminate H.
Qed.

(** The statement of C1 above, at the recovered run of the role
    request. *)
Lemma recovered_response_query_witness :
  exists resp,
    fst (simulate demo_env role_request (start tt)) = inr resp /\
    r_query resp = two_fields_query /\
    narrowed_query = retry_query two_fields_query secret_error /\
    narrowed_query <> two_fields_query.
Proof.
  destruct (simulate demo_env role_request (start tt)) as [[e|resp] r'] eqn:E;
    [vm_compute in E; discriminate E|].
  exists resp. split; [reflexivity|].
  destruct (recovered_response_query demo_env role_request tt
              (acc1 := role_context) (c1 := posts) (q1 := two_fields_query)
              (e := secret_error)
              (acc2 := role_context) (c2 := posts) (q2 := narrowed_query)
              (items := [post_public]) E) as (Hq & Hn & Hne & _).
  - vm_compute in E. injection E as _ <-. vm_compute. reflexivity.
  - now repeat split.
Defined.

(** C5 (as stated) fails: an administrator's request with no [mode] in
    its body is not rejected with status 400; it is answered, as mode
    [requester], after reads of the query service. *)
Lemma modeless_request_is_answered :
  exists resp r',
    simulate demo_env modeless_request (start tt) = (inr resp, r') /\
    get (body modeless_request) "mode" = Undefined /\
    r_mode resp = Str "requester" /\
    filter is_read (log r')
    = [EvRead SimulatedService admin_context posts narrowed_query (inr [post_full]);
       EvRead RequesterService admin_context posts narrowed_query (inr [post_full])].
Proof.
  destruct (simulate demo_env modeless_request (start tt)) as [out r'] eqn:E.
  vm_compute in E. injection E as <- <-.
  eexists. eexists. repeat split.
Qed.

(** The statement of C5 above, at a request with the mode [admin] and at
    the request with no mode. *)
Lemma invalid_mode_rejected_witness :
  simulate demo_env bad_mode_request (start tt) = (inl BadRequestError, start tt) /\
  simulate demo_env modeless_request (start tt)
  = simulate demo_env
      (mkRequest admin_context
         (Obj [("collection", posts); ("query", narrowed_query);
               ("mode", Str "requester")]))
      (start tt).
Proof.
  destruct (invalid_mode_rejected demo_env) as (Hbad & _ & Hnone).
  split.
  - apply Hbad; reflexivity.
  - apply (Hnone admin_context
             [("collection", posts); ("query", narrowed_query)] (start tt)).
    reflexivity.
Defined.

(** The statement of C7 above, at a run whose primary read and retry
    both fail: the error of the retry is the outcome. *)
Lemma simulate_at_most_one_retry_witness :
  (List.length (simulated_reads
                  (log (snd (simulate closed_env role_request (start tt))))) <= 2)%nat /\
  fst (simulate closed_env role_request (start tt)) = inl (Thrown secret_error).
Proof.
  destruct (simulate_at_most_one_retry closed_env role_request tt
              (surjective_pairing _)) as [Hlen H].
  split; [exact Hlen|].
  destruct (H role_context posts two_fields_query (inl secret_error)
              role_context posts narrowed_query (inl secret_error)) as [_ H2].
  - vm_compute. reflexivity.
  - exact (proj1 (H2 secret_error eq_refl)).
Defined.

(** The statement of C8 above, at the primary read of the role
    request. *)
Lemma simulated_context_not_admin_witness :
  get role_context "admin" = Bool false.
Proof.
  apply (simulated_context_not_admin demo_env role_request tt
           (surjective_pairing _) (m := "role")
           (or_intror (or_introl eq_refl)) eq_refl
           role_context posts two_fields_query (inl secret_error)).
  vm_compute. right. left. reflexivity.
Defined.

(** The statement of C10 above, at a request for a user the directory
    does not know: it is answered all the same. *)
Lemma user_mode_with_role_skips_directory_witness :
  (forall ev, In ev (log (snd (simulate demo_env user_request (start tt)))) ->
              is_lookup ev = false) /\
  (exists resp, fst (simulate demo_env user_request (start tt)) = inr resp) /\
  users_first demo_env (Str "u-ghost") tt = (inr None, tt).
Proof.
  assert (Hne : "r-user" <> "") by discriminate.
  destruct (user_mode_with_role_skips_directory demo_env user_request tt
              (rid := "r-user") eq_refl eq_refl Hne (surjective_pairing _))
    as (Hlog & _ & _ & _).
  split; [exact Hlog|]. split; [|reflexivity].
  vm_compute. eexists. reflexivity.
Defined.

(* ------------------------------------------------------------------ *)
(** ** More on the result differ *)

Lemma assoc_in_keys k ps :
  In k (map fst ps) -> exists v, assoc k ps = Some v.
Proof.
  induction ps as [|[k' v'] ps IH]; simpl; [intros []|].
  intros [<-|H].
  - rewrite String.eqb_refl. eauto.
  - destruct (String.eqb k' k); eauto.
Qed.

Lemma assoc_index_in_keys items : forall i j,
  (i <= j < i + List.length items)%nat ->
  exists v, assoc_index (index_key j) i items = Some v.
Proof.
  induction items as [|x items IH]; simpl; intros i j H; [lia|].
  destruct (String.eqb (index_key i) (index_key j)) eqn:E; [eauto|].
  apply IH. destruct (Nat.eq_dec i j) as [->|Hne]; [|lia].
  rewrite String.eqb_refl in E. discriminate E.
Qed.

(** Every key [Object.keys] lists is an own property. *)
Lemma keys_own v k : In k (keys v) -> exists x, get_own v k = Some x.
Proof.
  destruct v as [| | | | |items|ps]; simpl; try (intros []).
  - intros H. apply in_map_iff in H. destruct H as (j & <- & Hj).
    apply in_seq in Hj. apply assoc_index_in_keys. lia.
  - apply assoc_in_keys.
Qed.

Lemma flat_map_nil {A B} (f : A -> list B) l :
  (forall x, In x l -> f x = []) -> flat_map f l = [].
Proof.
  induction l as [|a l IH]; simpl; intros H; [reflexivity|].
  rewrite (H a (or_introl eq_refl)), IH; [reflexivity|]. intros x Hx. apply H. now right.
Qed.

(** X1: a row compared with itself gives no hint, whatever the row. *)
Theorem buildHints_same_row (row : value) : buildHints row row = [].
Proof.
  unfold buildHints.
  destruct (negb (truthy row) || negb (typeof_object row)); [reflexivity|].
  apply flat_map_nil. intros k Hk. unfold hint_for, has_property, get.
  destruct (keys_own row k Hk) as (x & ->). simpl.
  destruct (is_null x); reflexivity.
Qed.

Lemma hint_for_field a b k h : In h (hint_for a b k) -> field h = k.
Proof.
  unfold hint_for. destruct (negb (has_property b k)).
  - intros [<-|[]]. reflexivity.
  - destruct (get_own b k) as [sv|]; [|intros []].
    destruct (is_null sv && negb (is_null (get a k))); [|intros []].
    intros [<-|[]]. reflexivity.
Qed.

Lemma hint_for_length a b k : (List.length (hint_for a b k) <= 1)%nat.
Proof.
  unfold hint_for. destruct (negb (has_property b k)); [simpl; lia|].
  destruct (get_own b k) as [sv|]; [|simpl; lia].
  destruct (is_null sv && negb (is_null (get a k))); simpl; lia.
Qed.

Lemma flat_map_length_le {A B} (f : A -> list B) l :
  (forall x, List.length (f x) <= 1)%nat ->
  (List.length (flat_map f l) <= List.length l)%nat.
Proof.
  intros H. induction l as [|a l IH]; simpl; [lia|].
  rewrite length_app. specialize (H a). lia.
Qed.

(** X2: hints are only about keys of the requester row: every hint
    names one of its keys, so a key that only the simulated row has
    gets none, and there are no more hints than keys. *)
Theorem buildHints_fields_of_requester (requesterItem simulatedItem : value) :
  (forall h, In h (buildHints requesterItem simulatedItem) ->
             In (field h) (keys requesterItem)) /\
  (List.length (buildHints requesterItem simulatedItem)
   <= List.length (keys requesterItem))%nat.
Proof.
  unfold buildHints.
  destruct (negb (truthy requesterItem) || negb (typeof_object requesterItem)).
  { split; [intros h [] | simpl; lia]. }
  destruct (negb (truthy simulatedItem) || negb (typeof_object simulatedItem)).
  - split.
    + intros h H. apply in_map_iff in H. now destruct H as (k & <- & Hk).
    + now rewrite length_map.
  - split.
    + intros h H. apply in_flat_map in H. destruct H as (k & Hk & Hh).
      now rewrite (hint_for_field _ _ _ _ Hh).
    + apply flat_map_length_le. intros k. apply hint_for_length.
Qed.

(** X3: what each hint says is so.  Between two rows that are objects, a
    [missing] hint is for a key the simulated row does not answer to,
    and a [null] hint for a key the simulated row holds as null while
    the requester row holds something else; and every key of the
    requester row in one of these two cases gets its hint. *)
Theorem buildHints_sound_complete (requesterItem simulatedItem : value) :
  truthy requesterItem && typeof_object requesterItem = true ->
  truthy simulatedItem && typeof_object simulatedItem = true ->
  (forall h, In h (buildHints requesterItem simulatedItem) ->
     (type h = missing /\ has_property simulatedItem (field h) = false) \/
     (type h = null /\ get_own simulatedItem (field h) = Some Null /\
      get requesterItem (field h) <> Null)) /\
  (forall k, In k (keys requesterItem) ->
     (has_property simulatedItem k = false ->
      In (mkHint k missing note_missing) (buildHints requesterItem simulatedItem)) /\
     (get_own simulatedItem k = Some Null -> get requesterItem k <> Null ->
      In (mkHint k null note_null) (buildHints requesterItem simulatedItem))).
Proof.
  intros Ha Hb. unfold buildHints.
  apply andb_prop in Ha. destruct Ha as [Ha1 Ha2].
  apply andb_prop in Hb. destruct Hb as [Hb1 Hb2].
  rewrite Ha1, Ha2, Hb1, Hb2. simpl. split.
  - intros h H. apply in_flat_map in H. destruct H as (k & Hk & Hh).
    unfold hint_for in Hh. destruct (has_property simulatedItem k) eqn:Hp; simpl in Hh.
    + destruct (get_own simulatedItem k) as [sv|] eqn:Hg; [|destruct Hh].
      destruct (is_null sv) eqn:Hn; simpl in Hh; [|destruct Hh].
      destruct (is_null (get requesterItem k)) eqn:Hr; simpl in Hh; [destruct Hh|].
      destruct Hh as [<-|[]].
      right. simpl. repeat split.
      * destruct sv; try discriminate Hn. exact Hg.
      * intros E. rewrite E in Hr. discriminate Hr.
    + destruct Hh as [<-|[]]. left. now split.
  - intros k Hk. split.
    + intros Hp. apply in_flat_map. exists k. split; [exact Hk|].
      unfold hint_for. rewrite Hp. now left.
    + intros Hg Hr. apply in_flat_map. exists k. split; [exact Hk|].
      unfold hint_for, has_property. rewrite Hg. simpl.
      destruct (get requesterItem k); try (now left). contradiction.
Qed.

(** The statement of X3 above, at the documented rows. *)
Lemma buildHints_sound_complete_witness :
  In (mkHint "b" missing note_missing) (buildHints baseline_row simulated_row) /\
  In (mkHint "c" null note_null) (buildHints baseline_row simulated_row).
Proof.
  destruct (buildHints_sound_complete baseline_row simulated_row eq_refl eq_refl)
    as [_ H].
  split.
  - apply (H "b"); [simpl; auto | reflexivity].
  - apply (H "c"); [simpl; auto | reflexivity | discriminate].
Defined.

(* ------------------------------------------------------------------ *)
(** ** More on the accountability builder *)

Lemma assoc_set_idem k v ps : assoc k ps = Some v -> assoc_set k v ps = ps.
Proof.
  induction ps as [|[k' v'] ps IH]; simpl; [discriminate|].
  destruct (String.eqb k' k) eqn:E.
  - intros [= ->]. apply String.eqb_eq in E. now subst.
  - intros H. now rewrite IH.
Qed.

Lemma apply_override_idem k o dflt ps :
  (forall v, o = Some v -> assoc k ps = Some (nullish_or v dflt)) ->
  apply_override k o dflt ps = ps.
Proof.
  destruct o as [v|]; simpl; [|reflexivity].
  intros H. apply assoc_set_idem. now apply H.
Qed.

Lemma assoc_apply_override_same k v dflt ps :
  assoc k (apply_override k (Some v) dflt ps) = Some (nullish_or v dflt).
Proof. apply assoc_set_same. Qed.

Lemma assoc_apply_override_other k k' o dflt ps :
  k <> k' -> assoc k' (apply_override k o dflt ps) = assoc k' ps.
Proof. intros H. destruct o; simpl; [now apply assoc_set_other | reflexivity]. Qed.

Lemma builder_unfold base ov :
  buildSimulatedAccountability base ov
  = let next := overridden base ov in
    if truthy (get (Obj next) "role") then Obj (assoc_set "roles" (Arr [get (Obj next) "role"]) next)
    else if negb (is_array (get (Obj next) "roles")) then Obj (assoc_set "roles" (Arr []) next)
    else Obj next.
Proof. reflexivity. Qed.

Lemma overridden_fixed ov ps :
  (forall v, o_user ov = Some v -> assoc "user" ps = Some (nullish_or v Null)) ->
  (forall v, o_role ov = Some v -> assoc "role" ps = Some (nullish_or v Null)) ->
  (forall v, o_admin ov = Some v -> assoc "admin" ps = Some (nullish_or v (Bool false))) ->
  (forall v, o_app ov = Some v -> assoc "app" ps = Some (nullish_or v (Bool true))) ->
  overridden (Obj ps) ov = ps.
Proof.
  intros Hu Hr Ha Hp. unfold overridden. simpl spread.
  rewrite (@apply_override_idem "user" (o_user ov) Null ps Hu).
  rewrite (@apply_override_idem "role" (o_role ov) Null ps Hr).
  rewrite (@apply_override_idem "admin" (o_admin ov) (Bool false) ps Ha).
  now rewrite (@apply_override_idem "app" (o_app ov) (Bool true) ps Hp).
Qed.

Lemma overridden_user base ov v :
  o_user ov = Some v -> assoc "user" (overridden base ov) = Some (nullish_or v Null).
Proof.
  intros H. unfold overridden.
  rewrite !assoc_apply_override_other by string_neq.
  rewrite H. apply assoc_apply_override_same.
Qed.

Lemma overridden_role base ov v :
  o_role ov = Some v -> assoc "role" (overridden base ov) = Some (nullish_or v Null).
Proof.
  intros H. unfold overridden.
  rewrite !assoc_apply_override_other by string_neq.
  rewrite H. apply assoc_apply_override_same.
Qed.

Lemma overridden_admin base ov v :
  o_admin ov = Some v ->
  assoc "admin" (overridden base ov) = Some (nullish_or v (Bool false)).
Proof.
  intros H. unfold overridden.
  rewrite !assoc_apply_override_other by string_neq.
  rewrite H. apply assoc_apply_override_same.
Qed.

Lemma overridden_app base ov v :
  o_app ov = Some v -> assoc "app" (overridden base ov) = Some (nullish_or v (Bool true)).
Proof.
  intros H. unfold overridden. rewrite H. apply assoc_apply_override_same.
Qed.

(** X4: building again from a built context with the same overrides
    changes nothing. *)
Theorem buildSimulatedAccountability_idempotent (base : value) (ov : Overrides) :
  buildSimulatedAccountability (buildSimulatedAccountability base ov) ov
  = buildSimulatedAccountability base ov.
Proof.
  rewrite (builder_unfold base ov). cbv zeta.
  set (next := overridden base ov).
  assert (Hu := overridden_user base ov). assert (Hr := overridden_role base ov).
  assert (Ha := overridden_admin base ov). assert (Hp := overridden_app base ov).
  fold next in Hu, Hr, Ha, Hp.
  destruct (truthy (get (Obj next) "role")) eqn:Hrole.
  - rewrite builder_unfold. cbv zeta.
    rewrite overridden_fixed;
      try (intros v Hv; rewrite assoc_set_other by string_neq; auto).
    rewrite (@get_set_other "roles" "role") by string_neq. rewrite Hrole.
    f_equal. apply assoc_set_idem. apply assoc_set_same.
  - destruct (negb (is_array (get (Obj next) "roles"))) eqn:Harr.
    + rewrite builder_unfold. cbv zeta.
      rewrite overridden_fixed;
        try (intros v Hv; rewrite assoc_set_other by string_neq; auto).
      rewrite (@get_set_other "roles" "role") by string_neq. rewrite Hrole.
      rewrite get_set_same. reflexivity.
    + rewrite builder_unfold. cbv zeta.
      rewrite overridden_fixed by auto. now rewrite Hrole, Harr.
Qed.

(** X5: the builder writes [user], [role], [admin], [app] and [roles]
    and nothing else: every other property of the base is in the result
    with the value the base has. *)
Theorem buildSimulatedAccountability_frame (base : value) (ov : Overrides) (k : string) :
  ~ In k ["user"; "role"; "admin"; "app"; "roles"] ->
  get (buildSimulatedAccountability base ov) k = get (base_copy base) k.
Proof.
  intros Hk. simpl in Hk.
  assert (Hnext : get (Obj (overridden base ov)) k = get (base_copy base) k).
  { unfold overridden, base_copy.
    rewrite !get_apply_override_other; [reflexivity| | | |]; intros <-; tauto. }
  rewrite builder_unfold. cbv zeta.
  destruct (truthy _); [|destruct (negb _)]; try exact Hnext;
    (rewrite get_set_other; [exact Hnext | intros <-; tauto]).
Qed.

(** The statement of X5 above, at the [ip] of a caller. *)
Lemma buildSimulatedAccountability_frame_witness :
  get (buildSimulatedAccountability
         (Obj [("user", Str "u-admin"); ("admin", Bool true); ("ip", Str "10.0.0.1")])
         public_overrides) "ip"
  = Str "10.0.0.1".
Proof.
  rewrite buildSimulatedAccountability_frame; [reflexivity|].
  simpl. intros [H|[H|[H|[H|[H|[]]]]]]; discriminate H.
Defined.

Lemma builder_user base ov :
  get (buildSimulatedAccountability base ov) "user"
  = match o_user ov with
    | Some v => nullish_or v Null
    | None => get (base_copy base) "user"
    end.
Proof.
  rewrite builder_unfold. cbv zeta.
  assert (E : get (Obj (overridden base ov)) "user"
              = match o_user ov with
                | Some v => nullish_or v Null
                | None => get (base_copy base) "user"
                end).
  { unfold overridden, base_copy.
    rewrite !get_apply_override_other by string_neq.
    destruct (o_user ov); [apply get_apply_override_same | reflexivity]. }
  destruct (truthy _); [|destruct (negb _)]; try exact E;
    (rewrite get_set_other; [exact E | congruence]).
Qed.

(** X6: each of [user], [role], [admin] and [app] is the override when
    the overrides have the key, with its default in place of a nullish
    value ([null], [null], [false], [true]), and the value of the base
    when they have not; and [roles] is always an array. *)
Theorem buildSimulatedAccountability_keys (base : value) (ov : Overrides) :
  let next := buildSimulatedAccountability base ov in
  let or_base (o : option value) dflt k :=
    match o with
    | Some v => nullish_or v dflt
    | None => get (base_copy base) k
    end in
  get next "user" = or_base (o_user ov) Null "user" /\
  get next "role" = or_base (o_role ov) Null "role" /\
  get next "admin" = or_base (o_admin ov) (Bool false) "admin" /\
  get next "app" = or_base (o_app ov) (Bool true) "app" /\
  is_array (get next "roles") = true.
Proof.
  cbv zeta.
  assert (Hget : forall k, k <> "roles" ->
            get (buildSimulatedAccountability base ov) k = get (Obj (overridden base ov)) k).
  { intros k Hk. rewrite builder_unfold. cbv zeta.
    destruct (truthy _); [|destruct (negb _)]; try reflexivity;
      (rewrite get_set_other; [reflexivity | congruence]). }
  repeat split.
  - rewrite Hget by string_neq. unfold overridden, base_copy.
    rewrite !get_apply_override_other by string_neq.
    destruct (o_user ov); [apply get_apply_override_same | reflexivity].
  - apply builder_role.
  - apply builder_admin.
  - rewrite Hget by string_neq. unfold overridden, base_copy.
    destruct (o_app ov); [apply get_apply_override_same|].
    simpl apply_override. now rewrite !get_apply_override_other by string_neq.
  - rewrite builder_roles. cbv zeta.
    destruct (truthy _); [reflexivity|].
    destruct (is_array (get (base_copy base) "roles")) eqn:E; [exact E | reflexivity].
Qed.

(* ------------------------------------------------------------------ *)
(** ** More on the query mutator *)

Lemma assoc_set_keys k v ps :
  assoc k ps <> None -> map fst (assoc_set k v ps) = map fst ps.
Proof.
  induction ps as [|[k' v'] ps IH]; simpl; [congruence|].
  destruct (String.eqb k' k) eqn:E; simpl.
  - intros _. apply String.eqb_eq in E. now subst.
  - intros H. now rewrite IH.
Qed.

(** X7: the mutator touches no property of a query object but
    [fields]: every other property of the next query is the one of the
    query, and the properties come in the same order. *)
Theorem stripFieldsFromQuery_frame (ps : list (string * value)) (F : list string) :
  let r := stripFieldsFromQuery (Obj ps) F in
  (forall k, k <> "fields" -> get (nextQuery r) k = get (Obj ps) k) /\
  keys (nextQuery r) = keys (Obj ps).
Proof.
  cbv zeta.
  destruct (strip_cases (Obj ps) F) as [H | (fs & Hf & HF & H & _)]; rewrite H.
  - now split.
  - simpl nextQuery. unfold with_fields. simpl spread. split.
    + intros k Hk. apply get_set_other. congruence.
    + simpl. apply assoc_set_keys. unfold get in Hf. simpl in Hf.
      destruct (assoc "fields" ps); [discriminate | discriminate Hf].
Qed.

(** The statement of X7 above, at the [limit] of a narrowed query. *)
Lemma stripFieldsFromQuery_frame_witness :
  get (nextQuery (stripFieldsFromQuery
                    (Obj [("fields", Arr [Str "title"; Str "secret_note"]); ("limit", Num 1)])
                    ["secret_note"])) "limit"
  = Num 1.
Proof.
  rewrite (proj1 (stripFieldsFromQuery_frame
                    [("fields", Arr [Str "title"; Str "secret_note"]); ("limit", Num 1)]
                    ["secret_note"])); [reflexivity | discriminate].
Defined.

(** X8: whenever the mutator reports a removal, the field list of the
    next query holds no wildcard and none of the forbidden names. *)
Theorem stripFieldsFromQuery_narrowed_clean (q : value) (F : list string) :
  let r := stripFieldsFromQuery q F in
  removedWildcard r = true \/ removedFields r <> [] ->
  exists fs', get (nextQuery r) "fields" = Arr fs' /\
    forall f, In f fs' -> is_wildcard f = false /\ not_forbidden F f = true.
Proof.
  cbv zeta.
  destruct (strip_cases q F) as [H | (fs & Hf & HF & H & _)]; rewrite H.
  - simpl. intros [Hw|Hr]; [discriminate Hw | now contradiction Hr].
  - intros _. simpl nextQuery. eexists. split; [apply with_fields_fields|].
    intros f Hin. apply filter_In in Hin. destruct Hin as [Hin Hnf].
    split; [now apply strip_base_no_wildcard in Hin | exact Hnf].
Qed.

(** The statement of X8 above, at a query with the wildcard and a
    forbidden field. *)
Lemma stripFieldsFromQuery_narrowed_clean_witness :
  exists fs',
    get (nextQuery (stripFieldsFromQuery
                      (Obj [("fields", Arr [Str "*"; Str "title"; Str "secret_note"])])
                      ["secret_note"])) "fields" = Arr fs' /\
    forall f, In f fs' -> is_wildcard f = false /\ not_forbidden ["secret_note"] f = true.
Proof.
  apply (stripFieldsFromQuery_narrowed_clean
           (Obj [("fields", Arr [Str "*"; Str "title"; Str "secret_note"])])
           ["secret_note"]).
  left. reflexivity.
Defined.

Lemma str_eq_true f x : str_eq f x = true <-> f = Str x.
Proof.
  destruct f; simpl; split; try discriminate.
  - intros H. apply String.eqb_eq in H. now subst.
  - intros [= ->]. apply String.eqb_refl.
Qed.

Lemma filter_length_all {A} (p : A -> bool) l :
  List.length (filter p l) = List.length l <-> forall f, In f l -> p f = true.
Proof.
  split.
  - induction l as [|a l IH]; [intros _ f []|].
    simpl. destruct (p a) eqn:Ea; simpl; intros E.
    + injection E as E. intros f [<-|Hf]; [exact Ea | now apply IH].
    + pose proof (filter_length_le p l). lia.
  - intros H. now rewrite filter_all_true.
Qed.

Lemma some_forbidden l x :
  ~ (forall f, In f l -> negb (str_eq f x) = true) -> In (Str x) l.
Proof.
  induction l as [|a l IH]; intros E; [exfalso; apply E; intros f []|].
  destruct (str_eq a x) eqn:Ea.
  - left. apply str_eq_true in Ea. now subst.
  - right. apply IH. intros Hall. apply E. intros f [<-|Hf]; [now rewrite Ea | auto].
Qed.

Lemma strip_step_removed l acc x y :
  In y (snd (strip_step (l, acc) x)) <-> In y acc \/ (y = x /\ In (Str x) l).
Proof.
  unfold strip_step.
  destruct (Nat.eqb (List.length (filter (fun f => negb (str_eq f x)) l)) (List.length l))
    eqn:E; simpl.
  - split; [auto|]. intros [H|[-> H]]; [exact H|]. exfalso.
    apply Nat.eqb_eq in E. rewrite filter_length_all in E.
    specialize (E _ H). simpl in E. now rewrite String.eqb_refl in E.
  - rewrite in_app_iff. simpl. split.
    + intros [H|[<-|[]]]; [auto|]. right. split; [reflexivity|].
      apply Nat.eqb_neq in E. rewrite filter_length_all in E.
      now apply some_forbidden.
    + intros [H|[-> _]]; auto.
Qed.

Lemma in_filter_other l x y :
  y <> x -> (In (Str y) (filter (fun f => negb (str_eq f x)) l) <-> In (Str y) l).
Proof.
  intros Hne. rewrite filter_In. split; [tauto|]. intros H. split; [exact H|].
  simpl. destruct (String.eqb y x) eqn:E; [|reflexivity].
  apply String.eqb_eq in E. contradiction.
Qed.

Lemma not_in_filter_same l x : ~ In (Str x) (filter (fun f => negb (str_eq f x)) l).
Proof.
  rewrite filter_In. intros [_ H]. simpl in H. now rewrite String.eqb_refl in H.
Qed.

(** What the loop over the forbidden names reports: the names already
    reported, and the forbidden names the list holds. *)
Lemma fold_strip_removed F : forall l acc y,
  In y (snd (fold_left strip_step F (l, acc))) <-> In y acc \/ (In y F /\ In (Str y) l).
Proof.
  induction F as [|x F IH]; intros l acc y; cbn [fold_left].
  - simpl. tauto.
  - destruct (strip_step (l, acc) x) as [l' acc'] eqn:E.
    rewrite IH.
    pose proof (strip_step_removed l acc x y) as Hs. rewrite E in Hs. simpl snd in Hs.
    pose proof (strip_step_fst l acc x) as Hl. rewrite E in Hl. simpl fst in Hl. subst l'.
    rewrite Hs. simpl In. split.
    + intros [[H|[-> H]]|[HF Hin]]; auto.
      destruct (string_dec y x) as [->|Hne]; [now apply not_in_filter_same in Hin|].
      apply in_filter_other in Hin; auto.
    + intros [H|[[<-|HF] Hin]]; auto.
      destruct (string_dec y x) as [->|Hne]; [auto|].
      right. split; [exact HF|]. now apply in_filter_other.
Qed.

Lemma fold_strip_nodup F : forall l acc,
  NoDup acc -> (forall y, In y acc -> ~ In (Str y) l) ->
  NoDup (snd (fold_left strip_step F (l, acc))).
Proof.
  induction F as [|x F IH]; intros l acc Hnd Hfresh; cbn [fold_left]; [exact Hnd|].
  destruct (strip_step (l, acc) x) as [l' acc'] eqn:E.
  assert (Hl : l' = filter (fun f => negb (str_eq f x)) l).
  { pose proof (strip_step_fst l acc x) as Hl. now rewrite E in Hl. }
  assert (Hacc : acc' = acc \/ (acc' = acc ++ [x] /\ In (Str x) l)).
  { unfold strip_step in E.
    destruct (Nat.eqb (List.length (filter (fun f => negb (str_eq f x)) l))
                (List.length l)) eqn:En; simpl in E; injection E as _ <-.
    - now left.
    - right. split; [reflexivity|]. apply Nat.eqb_neq in En.
      rewrite filter_length_all in En. now apply some_forbidden. }
  subst l'. apply IH.
  - destruct Hacc as [->|[-> Hin]]; [exact Hnd|].
    apply NoDup_app; [exact Hnd | constructor; [intros []|constructor] |].
    intros y Hy [<-|[]]. now apply Hfresh in Hy.
  - intros y Hy Hin. apply filter_In in Hin. destruct Hin as [Hin Hne].
    destruct Hacc as [->|[-> _]].
    + now apply Hfresh in Hy.
    + apply in_app_or in Hy. destruct Hy as [Hy|[<-|[]]]; [now apply Hfresh in Hy|].
      simpl in Hne. now rewrite String.eqb_refl in Hne.
Qed.

(** The two removal reports in closed form, for a query with a field
    list. *)
Lemma strip_reports_eq q F fs :
  get q "fields" = Arr fs ->
  removedFields (stripFieldsFromQuery q F)
  = snd (fold_left strip_step F (strip_base fs, [])) /\
  removedWildcard (stripFieldsFromQuery q F)
  = existsb is_wildcard fs && negb (Nat.eqb (List.length (strip_base fs)) 0)
    && negb (Nat.eqb (List.length F) 0).
Proof.
  intros Hf.
  assert (Hobj : negb (truthy q) || negb (typeof_object q) = false).
  { destruct q; try discriminate Hf; reflexivity. }
  unfold stripFieldsFromQuery. rewrite Hobj, Hf. cbv zeta. fold (strip_base fs).
  destruct F as [|x0 F].
  { simpl. now rewrite andb_false_r. }
  change (Nat.eqb (List.length (x0 :: F)) 0) with false. cbv iota.
  rewrite andb_true_r.
  destruct (existsb is_wildcard fs) eqn:Hw.
  - assert (Hb : filter (fun f => negb (is_wildcard f)) fs = strip_base fs).
    { unfold strip_base. now rewrite Hw. }
    rewrite Hb. simpl andb.
    destruct (strip_base fs) as [|b bs].
    + simpl Nat.eqb. cbv iota. simpl removedFields. simpl removedWildcard.
      split; [|reflexivity].
      now rewrite (fold_strip_clean (x0 :: F) [] []) by (intros f []).
    + change (Nat.eqb (List.length (b :: bs)) 0) with false. cbv iota.
      destruct (fold_left strip_step (x0 :: F) (b :: bs, [])) as [nf rem].
      simpl. split; reflexivity.
  - simpl andb. cbv iota.
    destruct (fold_left strip_step (x0 :: F) (strip_base fs, [])) as [nf rem].
    simpl orb. destruct rem as [|y rem]; simpl; split; reflexivity.
Qed.

(** X9: what the mutator reports is what it did.  On a query with a
    field list, a name is among the removed fields exactly when it is
    forbidden and the list, the wildcard apart, holds it; no name is
    reported twice; and the wildcard is reported removed exactly when
    there are forbidden names and the list holds the wildcard beside
    other fields. *)
Theorem stripFieldsFromQuery_reports (q : value) (F : list string) (fs : list value) :
  get q "fields" = Arr fs ->
  let r := stripFieldsFromQuery q F in
  (forall x, In x (removedFields r) <-> In x F /\ In (Str x) (strip_base fs)) /\
  NoDup (removedFields r) /\
  (removedWildcard r = true <->
   F <> [] /\ existsb is_wildcard fs = true /\ strip_base fs <> []).
Proof.
  intros Hf. cbv zeta. destruct (strip_reports_eq q F Hf) as [-> ->].
  split; [|split].
  - intros x. rewrite fold_strip_removed. simpl. tauto.
  - apply fold_strip_nodup; [constructor | intros y []].
  - destruct F as [|x F]; destruct (existsb is_wildcard fs);
      destruct (strip_base fs) as [|b bs]; simpl; split;
      try discriminate; try (intros (A & B & C); congruence);
      intros _; repeat split; discriminate.
Qed.

(** The statement of X9 above, at a query with the wildcard, an allowed
    and a forbidden field. *)
Lemma stripFieldsFromQuery_reports_witness :
  let r := stripFieldsFromQuery
             (Obj [("fields", Arr [Str "*"; Str "title"; Str "secret_note"])])
             ["secret_note"; "date_created"] in
  In "secret_note" (removedFields r) /\ ~ In "date_created" (removedFields r) /\
  removedWildcard r = true.
Proof.
  cbv zeta.
  destruct (stripFieldsFromQuery_reports
              (Obj [("fields", Arr [Str "*"; Str "title"; Str "secret_note"])])
              ["secret_note"; "date_created"] eq_refl) as (Hin & _ & Hw).
  cbv zeta in Hin, Hw. split; [|split].
  - apply Hin. simpl. auto.
  - intros H. apply Hin in H. destruct H as [_ H]. simpl in H.
    destruct H as [H|[H|[]]]; discriminate H.
  - apply Hw. repeat split; discriminate.
Defined.

(* ------------------------------------------------------------------ *)
(** ** More on the forbidden-field extractor *)

Lemma match_here_rest icase r s m :
  match_here icase r s = Some m -> s = matched m ++ rest m.
Proof. intros H. now apply match_here_sound in H. Qed.

Lemma exec_found icase r s m :
  exec icase r s = Some m ->
  exists pre, s = pre ++ matched m ++ rest m /\
              match_here icase r (matched m ++ rest m) = Some m.
Proof.
  induction s as [|c s IH]; simpl.
  - destruct (match_here icase r []) as [m'|] eqn:E; [|discriminate].
    intros [= <-]. exists []. pose proof (match_here_rest _ _ _ E) as Hs.
    simpl. now rewrite <- Hs.
  - destruct (match_here icase r (c :: s)) as [m'|] eqn:E.
    + intros [= <-]. exists []. pose proof (match_here_rest _ _ _ E) as Hs.
      simpl. now rewrite <- Hs.
    + intros H. apply IH in H. destruct H as (pre & -> & Hm).
      now exists (c :: pre).
Qed.

(** Every match [matchAll] lists is a match of the pattern at some place
    of the text. *)
Lemma matchAll_from_found icase r : forall fuel s m,
  In m (matchAll_from fuel icase r s) ->
  exists pre post, s = pre ++ matched m ++ post /\
                   match_here icase r (matched m ++ rest m) = Some m.
Proof.
  induction fuel as [|fuel IH]; intros s m; simpl; [intros []|].
  destruct (exec icase r s) as [m0|] eqn:E; [|intros []].
  apply exec_found in E. destruct E as (pre & Es & Hm0).
  intros [<-|Hin].
  - now exists pre, (rest m0).
  - destruct (matched m0) as [|c cs] eqn:Em.
    + destruct (rest m0) as [|d ds] eqn:Er; [destruct Hin|].
      apply IH in Hin. destruct Hin as (pre' & post' & -> & Hm).
      exists (pre ++ d :: pre'), post'. split; [|exact Hm].
      rewrite Es. simpl. now rewrite <- app_assoc.
    + apply IH in Hin. destruct Hin as (pre' & post' & E' & Hm).
      exists (pre ++ (c :: cs) ++ pre'), post'. split; [|exact Hm].
      rewrite Es, E'. now rewrite <- !app_assoc.
Qed.

Lemma chr_eq_dquote icase d : chr_eq icase dquote d = true -> d = dquote.
Proof.
  destruct icase; destruct d as [[] [] [] [] [] [] [] []]; vm_compute;
    intros H; try discriminate H; reflexivity.
Qed.

Lemma matches_star_cls icase p s :
  matches icase (Star (Cls p)) s -> forallb p s = true.
Proof.
  intros H. remember (Star (Cls p)) as r eqn:Er.
  induction H as [| | | |r0|r0 s1 s2 H1 _ H2 IH2| | |]; try discriminate Er.
  - reflexivity.
  - injection Er as ->. inversion H1; subst. simpl.
    rewrite IH2 by reflexivity. now rewrite andb_true_r.
Qed.

Lemma matches_plus_cls icase p s :
  matches icase (Plus (Cls p)) s -> s <> [] /\ forallb p s = true.
Proof.
  intros H. inversion H as [| | |r1 r2 s1 s2 H1 H2| | | | |]; subst.
  inversion H1; subst. apply matches_star_cls in H2. simpl.
  split; [discriminate|]. now rewrite H2, andb_true_r.
Qed.

(** A run of the token pattern: a quote, a body of one or more code
    units none of which is a quote, a quote; the body is the capture the
    continuation gets. *)
Lemma quoted_re_run R icase s cap (k : cont R) x :
  rmatch icase quoted_re s cap k = Some x ->
  exists body s3,
    s = dquote :: body ++ dquote :: s3 /\
    body <> [] /\ forallb not_quote body = true /\
    k s3 (Some body) = Some x.
Proof.
  unfold quoted_re. cbn [rmatch].
  destruct s as [|d s']; [discriminate|].
  destruct (chr_eq icase dquote d) eqn:Ed; [|discriminate].
  apply chr_eq_dquote in Ed. subst d.
  intros H. apply rmatch_sound in H.
  destruct H as (body & s2 & cap' & -> & Hm & Hk).
  destruct s2 as [|d2 s3]; [discriminate|].
  destruct (chr_eq icase dquote d2) eqn:Ed2; [|discriminate].
  apply chr_eq_dquote in Ed2. subst d2.
  rewrite firstn_front in Hk.
  apply matches_plus_cls in Hm. destruct Hm as [Hne Hall].
  now exists body, s3.
Qed.

(** The text a match of the token pattern or of the single-field
    pattern ends with, and its capture. *)
Lemma quoted_re_match s m :
  match_here false quoted_re s = Some m ->
  exists body,
    group1 m = Some body /\ body <> [] /\ forallb not_quote body = true /\
    matched m = dquote :: body ++ [dquote].
Proof.
  unfold match_here. intros H. apply quoted_re_run in H.
  destruct H as (body & s3 & Es & Hne & Hall & [= <-]). cbn [matched group1].
  exists body. repeat split; try assumption.
  replace s with ((dquote :: body ++ [dquote]) ++ s3)
    by (rewrite Es; simpl; now rewrite <- app_assoc).
  apply firstn_front.
Qed.

Lemma single_re_match s m :
  match_here true single_re s = Some m ->
  exists lead body,
    group1 m = Some body /\ body <> [] /\ forallb not_quote body = true /\
    matched m = lead ++ dquote :: body ++ [dquote].
Proof.
  unfold match_here, single_re. cbn [rmatch]. intros H.
  apply rmatch_sound in H. destruct H as (a & s1 & cap1 & Es & _ & H).
  apply rmatch_sound in H.
  destruct H as (b & s2 & cap2 & Es1 & _ & H).
  apply quoted_re_run in H.
  destruct H as (body & s3 & Es2 & Hne & Hall & [= <-]). cbn [matched group1].
  exists (a ++ b), body. repeat split; try assumption.
  replace s with (((a ++ b) ++ dquote :: body ++ [dquote]) ++ s3).
  - apply firstn_front.
  - rewrite Es, Es1, Es2, <- !app_assoc. simpl. now rewrite <- app_assoc.
Qed.

(** A pattern with no group hands the capture on as it got it. *)
Lemma star_loop_keeps_capture R icase r (step : list ascii -> capture -> cont R -> option R) :
  (forall s cap k x, step s cap k = Some x ->
     exists s1 s2, s = s1 ++ s2 /\ matches icase r s1 /\ k s2 cap = Some x) ->
  forall fuel s cap k x, star_loop step k fuel s cap = Some x ->
    exists s1 s2, s = s1 ++ s2 /\ matches icase (Star r) s1 /\ k s2 cap = Some x.
Proof.
  intros Hstep. induction fuel as [|fuel IH]; intros s cap k x H; simpl in H.
  - exists [], s. repeat split; [constructor | exact H].
  - destruct (step s cap _) as [y|] eqn:E.
    + injection H as ->.
      apply Hstep in E. destruct E as (s1 & s2 & -> & Hm & Hk).
      destruct (List.length s2 <? List.length (s1 ++ s2))%nat; [|discriminate].
      apply IH in Hk. destruct Hk as (t1 & t2 & -> & Hm' & Hk).
      exists (s1 ++ t1), t2. rewrite app_assoc. repeat split; [|exact Hk].
      now constructor.
    + exists [], s. repeat split; [constructor | exact H].
Qed.

Lemma rmatch_keeps_capture R icase r :
  no_group r = true ->
  forall s cap (k : cont R) x, rmatch icase r s cap k = Some x ->
    exists s1 s2, s = s1 ++ s2 /\ matches icase r s1 /\ k s2 cap = Some x.
Proof.
  induction r as [|c|p|r1 IH1 r2 IH2|r IH|r IH|r IH]; simpl; intros Hng s cap k x H.
  - exists [], s. repeat split; [constructor | exact H].
  - destruct s as [|d s]; [discriminate|].
    destruct (chr_eq icase c d) eqn:E; [|discriminate].
    exists [d], s. repeat split; [now constructor | exact H].
  - destruct s as [|d s]; [discriminate|].
    destruct (p d) eqn:E; [|discriminate].
    exists [d], s. repeat split; [now constructor | exact H].
  - apply andb_prop in Hng. destruct Hng as [Hn1 Hn2].
    apply (IH1 Hn1) in H. destruct H as (s1 & s2 & -> & Hm1 & H).
    apply (IH2 Hn2) in H. destruct H as (t1 & t2 & -> & Hm2 & H).
    exists (s1 ++ t1), t2. rewrite app_assoc. repeat split; [|exact H].
    now constructor.
  - eapply star_loop_keeps_capture; [|exact H]. exact (IH Hng).
  - destruct (rmatch icase r s cap k) as [y|] eqn:E.
    + injection H as ->. apply (IH Hng) in E. destruct E as (s1 & s2 & -> & Hm & Hk).
      exists s1, s2. repeat split; [now constructor | exact Hk].
    + exists [], s. repeat split; [constructor | exact H].
  - discriminate Hng.
Qed.

Lemma rmatch_Seq R icase r1 r2 s cap (k : cont R) :
  rmatch icase (Seq r1 r2) s cap k
  = rmatch icase r1 s cap (fun s' cap' => rmatch icase r2 s' cap' k).
Proof. reflexivity. Qed.

Lemma rmatch_Group R icase r s cap (k : cont R) :
  rmatch icase (Group r) s cap k
  = rmatch icase r s cap
      (fun s' _ => k s' (Some (firstn (List.length s - List.length s') s))).
Proof. reflexivity. Qed.

(** The capture of a match of the multi-field pattern is a part of the
    matched text. *)
Lemma multi_re_match s m :
  match_here true multi_re s = Some m ->
  exists lead list tail,
    group1 m = Some list /\ matched m = lead ++ list ++ tail.
Proof.
  unfold match_here, multi_re. rewrite rmatch_Seq. intros H.
  apply rmatch_sound in H. destruct H as (a & s1 & cap1 & Es & _ & H).
  rewrite rmatch_Seq in H.
  apply rmatch_sound in H. destruct H as (b & s2 & cap2 & Es1 & _ & H).
  rewrite rmatch_Seq in H.
  apply rmatch_sound in H. destruct H as (c & s3 & cap3 & Es2 & _ & H).
  rewrite rmatch_Seq, rmatch_Group in H.
  apply rmatch_sound in H. destruct H as (l & s4 & cap4 & Es3 & _ & H).
  rewrite Es3, firstn_front in H. rewrite rmatch_Seq in H.
  apply rmatch_keeps_capture in H; [|reflexivity].
  destruct H as (t & s5 & Es4 & _ & H).
  apply rmatch_keeps_capture in H; [|reflexivity].
  destruct H as (u & s6 & Es5 & _ & [= <-]). cbn [matched group1].
  exists (a ++ b ++ c), l, (t ++ u). split; [reflexivity|].
  replace s with (((a ++ b ++ c) ++ l ++ t ++ u) ++ s6).
  - apply firstn_front.
  - rewrite Es, Es1, Es2, Es3, Es4, Es5, <- !app_assoc. reflexivity.
Qed.

Lemma mem_In k l : mem k l = true <-> In k l.
Proof.
  unfold mem. rewrite existsb_exists. split.
  - intros (x & Hx & E). apply String.eqb_eq in E. now subst.
  - intros H. exists k. split; [exact H | apply String.eqb_refl].
Qed.

Lemma push_field_in out m f :
  In f (push_field out m) ->
  In f out \/ exists c cs, group1 m = Some (c :: cs) /\ f = string_of_list_ascii (c :: cs).
Proof.
  unfold push_field. destruct (group1 m) as [[|c cs]|]; auto.
  destruct (mem _ out); auto.
  intros H. apply in_app_or in H. destruct H as [H|[<-|[]]]; eauto.
Qed.

Lemma push_field_nodup out m : NoDup out -> NoDup (push_field out m).
Proof.
  intros H. unfold push_field. destruct (group1 m) as [[|c cs]|]; auto.
  destruct (mem _ out) eqn:E; auto.
  apply NoDup_app; [exact H | constructor; [intros []|constructor] |].
  intros x Hx [<-|[]]. apply mem_In in Hx. congruence.
Qed.

Lemma collect_from_in ms : forall out f,
  In f (fold_left push_field ms out) ->
  In f out \/
  exists m c cs, In m ms /\ group1 m = Some (c :: cs) /\ f = string_of_list_ascii (c :: cs).
Proof.
  induction ms as [|m ms IH]; simpl; intros out f H; [auto|].
  apply IH in H. destruct H as [H|(m' & c & cs & Hin & Hg & Hf)].
  - apply push_field_in in H. destruct H as [H|(c & cs & Hg & Hf)]; [auto|].
    right. exists m, c, cs. auto.
  - right. exists m', c, cs. auto.
Qed.

Lemma collect_from_nodup ms : forall out,
  NoDup out -> NoDup (fold_left push_field ms out).
Proof.
  induction ms as [|m ms IH]; simpl; intros out H; [exact H|].
  apply IH. now apply push_field_nodup.
Qed.

(** X10: the extractor never returns a name twice. *)
Theorem extractForbiddenFields_nodup (reason : value) :
  NoDup (extractForbiddenFields reason).
Proof.
  unfold extractForbiddenFields. destruct reason; try constructor.
  destruct (exec true multi_re _) as [[mt [[|c cs]|] rs]|];
    apply collect_from_nodup; constructor.
Qed.

(** X11: a name the extractor returns is never empty, holds no double
    quote, and stands in the message between two double quotes. *)
Theorem extractForbiddenFields_quoted (reason f : string) :
  In f (extractForbiddenFields (Str reason)) ->
  f <> "" /\
  forallb not_quote (list_ascii_of_string f) = true /\
  exists pre post,
    list_ascii_of_string reason
    = pre ++ dquote :: list_ascii_of_string f ++ dquote :: post.
Proof.
  unfold extractForbiddenFields.
  set (chars := list_ascii_of_string reason).
  assert (Hsingle : In f (collect (matchAll true single_re chars)) ->
            f <> "" /\ forallb not_quote (list_ascii_of_string f) = true /\
            exists pre post,
              chars = pre ++ dquote :: list_ascii_of_string f ++ dquote :: post).
  { intros H. apply collect_from_in in H. destruct H as [[]|(m & c & cs & Hin & Hg & ->)].
    apply matchAll_from_found in Hin. destruct Hin as (pre & post & Es & Hm).
    apply single_re_match in Hm. destruct Hm as (lead & body & Hg' & _ & Hall & Hmt).
    rewrite Hg in Hg'. injection Hg' as <-.
    rewrite list_ascii_of_string_of_list_ascii.
    split; [discriminate|]. split; [exact Hall|].
    exists (pre ++ lead), post. rewrite Es, Hmt, <- !app_assoc. simpl.
    now rewrite <- app_assoc. }
  destruct (exec true multi_re chars) as [[mt [[|c cs]|] rs]|] eqn:E; try exact Hsingle.
  intros H. apply collect_from_in in H. destruct H as [[]|(m & c' & cs' & Hin & Hg & ->)].
  apply exec_found in E. destruct E as (pre0 & Es0 & Hm0).
  apply multi_re_match in Hm0. destruct Hm0 as (lead & list & tail & Hg0 & Hmt0).
  simpl in Hg0, Hmt0, Es0. injection Hg0 as <-.
  apply matchAll_from_found in Hin. destruct Hin as (pre & post & Es & Hm).
  apply quoted_re_match in Hm. destruct Hm as (body & Hg' & _ & Hall & Hmt).
  rewrite Hg in Hg'. injection Hg' as <-.
  rewrite list_ascii_of_string_of_list_ascii.
  split; [discriminate|]. split; [exact Hall|].
  exists (pre0 ++ lead ++ pre), (post ++ tail ++ rs).
  rewrite Es0, Hmt0, Es, Hmt, <- !app_assoc. simpl. now rewrite <- !app_assoc.
Qed.

(** The statement of X11 above, at the documented message. *)
Lemma extractForbiddenFields_quoted_witness :
  exists pre post,
    list_ascii_of_string two_fields_message
    = pre ++ dquote :: list_ascii_of_string "date_created" ++ dquote :: post.
Proof.
  apply (extractForbiddenFields_quoted two_fields_message "date_created").
  vm_compute. auto.
Defined.

(** The fuel [matchAll] starts with is enough: more of it lists the
    same matches. *)
Lemma matchAll_from_enough icase r : forall n n' s,
  (List.length s < n)%nat -> (List.length s < n')%nat ->
  matchAll_from n icase r s = matchAll_from n' icase r s.
Proof.
  induction n as [|n IH]; intros n' s Hn Hn'; [lia|].
  destruct n' as [|n']; [lia|]. simpl.
  destruct (exec icase r s) as [m|] eqn:E; [|reflexivity].
  apply exec_found in E. destruct E as (pre & Es & _).
  assert (Hlen : List.length s
                 = (List.length pre + List.length (matched m) + List.length (rest m))%nat).
  { rewrite Es at 1. rewrite !length_app. lia. }
  f_equal. destruct (matched m) as [|c cs]; [destruct (rest m) as [|d ds]|].
  - reflexivity.
  - apply IH; simpl in Hlen; lia.
  - apply IH; simpl in Hlen; lia.
Qed.
(* ------------------------------------------------------------------ *)
(** ** The extractor on the one-field message *)

Lemma list_ascii_of_string_app (a b : string) :
  list_ascii_of_string (a ++ b) = list_ascii_of_string a ++ list_ascii_of_string b.
Proof. induction a as [|c a IH]; simpl; [reflexivity | now rewrite IH]. Qed.

(** A greedy run of a class over a text all in the class, when what
    follows the star cannot start inside the run. *)
Lemma star_cls_run R icase p (k : cont R) rest :
  (forall c s' cap', p c = true -> k (c :: s') cap' = None) ->
  match rest with [] => True | d :: _ => p d = false end ->
  forall f fuel cap,
    forallb p f = true -> (List.length f <= fuel)%nat ->
    star_loop (rmatch icase (Cls p)) k fuel (f ++ rest) cap = k rest cap.
Proof.
  intros Hk Hrest. induction f as [|c f IH]; intros fuel cap Hf Hfuel.
  - simpl. destruct fuel as [|fuel]; [reflexivity|]. simpl.
    destruct rest as [|d rest]; [reflexivity|]. now rewrite Hrest.
  - simpl in Hf. apply andb_prop in Hf. destruct Hf as [Hc Hf].
    destruct fuel as [|fuel]; [simpl in Hfuel; lia|].
    simpl. rewrite Hc.
    replace (List.length (f ++ rest) <? S (List.length (f ++ rest)))%nat with true
      by (symmetry; apply Nat.ltb_lt; lia).
    rewrite IH by (simpl in Hfuel; auto; lia).
    destruct (k rest cap) eqn:E; [reflexivity|]. now apply Hk.
Qed.

Lemma chr_dquote_fails R icase (k : cont R) c s' cap' :
  not_quote c = true -> rmatch icase (Chr dquote) (c :: s') cap' k = None.
Proof.
  intros H. simpl. destruct (chr_eq icase dquote c) eqn:E; [|reflexivity].
  apply chr_eq_dquote in E. subst c. discriminate H.
Qed.

Lemma chr_dquote_ok R icase (k : cont R) s cap :
  rmatch icase (Chr dquote) (dquote :: s) cap k = k s cap.
Proof. simpl. now destruct icase. Qed.

Lemma rmatch_Star R icase r s cap (k : cont R) :
  rmatch icase (Star r) s cap k = star_loop (rmatch icase r) k (List.length s) s cap.
Proof. reflexivity. Qed.

Lemma rmatch_Cls_cons R icase p d s cap (k : cont R) :
  rmatch icase (Cls p) (d :: s) cap k = if p d then k s cap else None.
Proof. reflexivity. Qed.

(** The token pattern on a token: the inside is taken whole. *)
Lemma plus_not_quote_run R icase (k : cont R) f rest cap :
  f <> [] -> forallb not_quote f = true ->
  (forall c s' cap', not_quote c = true -> k (c :: s') cap' = None) ->
  rmatch icase (Plus (Cls not_quote)) (f ++ dquote :: rest) cap k
  = k (dquote :: rest) cap.
Proof.
  intros Hne Hf Hk. destruct f as [|c f]; [congruence|].
  simpl in Hf. apply andb_prop in Hf. destruct Hf as [Hc Hf].
  unfold Plus. rewrite rmatch_Seq. cbn [app]. rewrite rmatch_Cls_cons, Hc, rmatch_Star.
  apply star_cls_run; try assumption; [reflexivity|].
  rewrite length_app. lia.
Qed.

Lemma quoted_exact R icase (k : cont R) f rest cap :
  f <> [] -> forallb not_quote f = true ->
  rmatch icase quoted (dquote :: f ++ dquote :: rest) cap k = k rest cap.
Proof.
  intros Hne Hf. unfold quoted. rewrite rmatch_Seq, chr_dquote_ok, rmatch_Seq.
  rewrite plus_not_quote_run; try assumption.
  - apply chr_dquote_ok.
  - intros c s' cap' Hc. now apply chr_dquote_fails.
Qed.

Lemma quoted_re_exact R icase (k : cont R) f rest cap :
  f <> [] -> forallb not_quote f = true ->
  rmatch icase quoted_re (dquote :: f ++ dquote :: rest) cap k = k rest (Some f).
Proof.
  intros Hne Hf. unfold quoted_re. rewrite rmatch_Seq, chr_dquote_ok, rmatch_Seq.
  rewrite rmatch_Group, plus_not_quote_run; try assumption.
  - rewrite chr_dquote_ok. now rewrite firstn_front.
  - intros c s' cap' Hc. now apply chr_dquote_fails.
Qed.

Lemma one_field_message_chars f tail :
  list_ascii_of_string (one_field_message f tail)
  = list_ascii_of_string "You don't have permission to access field "
    ++ dquote :: list_ascii_of_string f
    ++ dquote :: list_ascii_of_string " in collection" ++ list_ascii_of_string tail.
Proof.
  unfold one_field_message, quote. rewrite !list_ascii_of_string_app. reflexivity.
Qed.

Lemma exec_skip icase r c s :
  match_here icase r (c :: s) = None -> exec icase r (c :: s) = exec icase r s.
Proof. intros H. simpl. now rewrite H. Qed.

Lemma exec_here icase r s m :
  match_here icase r s = Some m -> exec icase r s = Some m.
Proof. intros H. destruct s; simpl; now rewrite H. Qed.

Lemma chr_eq_refl icase c : chr_eq icase c c = true.
Proof. unfold chr_eq. destruct icase; apply Ascii.eqb_refl. Qed.

Lemma rmatch_lit R icase (k : cont R) l : forall s cap,
  l <> "" -> rmatch icase (lit l) (list_ascii_of_string l ++ s) cap k = k s cap.
Proof.
  induction l as [|c l IH]; intros s cap Hne; [congruence|].
  destruct l as [|c' l].
  - simpl. now rewrite chr_eq_refl.
  - change (lit (String c (String c' l))) with (Seq (Chr c) (lit (String c' l))).
    rewrite rmatch_Seq. cbn [list_ascii_of_string app].
    cbn [rmatch]. rewrite chr_eq_refl. apply (IH s cap). discriminate.
Qed.

Lemma rmatch_Opt_skip R icase r s cap (k : cont R) :
  rmatch icase r s cap k = None -> rmatch icase (Opt r) s cap k = k s cap.
Proof. intros H. simpl. now rewrite H. Qed.

(** One code unit of a class before a text that does not go on in it. *)
Lemma plus_cls_one R icase p (k : cont R) c rest cap :
  p c = true -> match rest with [] => True | d :: _ => p d = false end ->
  rmatch icase (Plus (Cls p)) (c :: rest) cap k = k rest cap.
Proof.
  intros Hc Hrest. unfold Plus. rewrite rmatch_Seq, rmatch_Cls_cons, Hc, rmatch_Star.
  destruct rest as [|d rest]; [reflexivity|]. simpl. now rewrite Hrest.
Qed.

Lemma star_loop_S R (step : list ascii -> capture -> cont R -> option R) k fuel s cap :
  star_loop step k (S fuel) s cap
  = match step s cap
            (fun s' cap' =>
               if (List.length s' <? List.length s)%nat
               then star_loop step k fuel s' cap' else None) with
    | Some x => Some x
    | None => k s cap
    end.
Proof. reflexivity. Qed.

Lemma comma_not_space icase c : is_space c = true -> chr_eq icase ","%char c = false.
Proof.
  destruct icase; destruct c as [[] [] [] [] [] [] [] []]; vm_compute;
    intros H; try discriminate H; reflexivity.
Qed.

Lemma rmatch_Star_cons R icase r c s cap (k : cont R) :
  rmatch icase (Star r) (c :: s) cap k
  = match rmatch icase r (c :: s) cap
            (fun s' cap' =>
               if (List.length s' <? List.length (c :: s))%nat
               then star_loop (rmatch icase r) k (List.length s) s' cap' else None) with
    | Some x => Some x
    | None => k (c :: s) cap
    end.
Proof. reflexivity. Qed.

(** No comma follows the token of the one-field message. *)
Lemma separator_fails R icase (k : cont R) T cap :
  rmatch icase (Seq (Star (Cls is_space)) (Seq (Chr ","%char) (Star (Cls is_space))))
    (" "%char :: list_ascii_of_string "in collection" ++ T) cap k = None.
Proof.
  rewrite rmatch_Seq, rmatch_Star.
  change (" "%char :: list_ascii_of_string "in collection" ++ T)
    with ([" "%char] ++ list_ascii_of_string "in collection" ++ T).
  rewrite star_cls_run; try reflexivity.
  - now destruct icase.
  - intros c s' cap' Hc. rewrite rmatch_Seq. simpl.
    now rewrite comma_not_space.
  - rewrite length_app. simpl. lia.
Qed.

Lemma multi_re_here F T :
  F <> [] -> forallb not_quote F = true ->
  match_here true multi_re
    (list_ascii_of_string "access field"
     ++ " "%char :: dquote :: F
     ++ dquote :: " "%char :: list_ascii_of_string "in collection" ++ T)
  = Some (mkMatch
            (list_ascii_of_string "access field"
             ++ " "%char :: dquote :: F
             ++ dquote :: " "%char :: list_ascii_of_string "in collection")
            (Some (dquote :: F ++ [dquote])) T).
Proof.
  intros Hne Hf. unfold match_here, multi_re.
  rewrite rmatch_Seq, rmatch_lit by discriminate.
  rewrite rmatch_Seq, rmatch_Opt_skip by reflexivity.
  rewrite rmatch_Seq, plus_cls_one by reflexivity.
  rewrite rmatch_Seq, rmatch_Group, rmatch_Seq, rmatch_Star_cons.
  rewrite (rmatch_Seq _ quoted). rewrite quoted_exact by assumption.
  rewrite separator_fails.
  rewrite quoted_exact by assumption.
  rewrite rmatch_Seq, plus_cls_one by reflexivity.
  rewrite rmatch_lit by discriminate.
  assert (E1 : list_ascii_of_string "access field"
               ++ " "%char :: dquote :: F
               ++ dquote :: " "%char :: list_ascii_of_string "in collection" ++ T
             = (list_ascii_of_string "access field"
                ++ " "%char :: dquote :: F
                ++ dquote :: " "%char :: list_ascii_of_string "in collection") ++ T).
  { cbn [list_ascii_of_string app]. now rewrite <- app_assoc. }
  assert (E2 : dquote :: F
               ++ dquote :: " "%char :: list_ascii_of_string "in collection" ++ T
             = (dquote :: F ++ [dquote])
               ++ " "%char :: list_ascii_of_string "in collection" ++ T).
  { cbn [app]. now rewrite <- app_assoc. }
  rewrite E2, firstn_front, <- E2, E1, firstn_front. reflexivity.
Qed.

Lemma quoted_re_token F :
  F <> [] -> forallb not_quote F = true ->
  matchAll false quoted_re (dquote :: F ++ [dquote])
  = [mkMatch (dquote :: F ++ [dquote]) (Some F) []].
Proof.
  intros Hne Hf.
  assert (E : match_here false quoted_re (dquote :: F ++ [dquote])
              = Some (mkMatch (dquote :: F ++ [dquote]) (Some F) [])).
  { unfold match_here. rewrite quoted_re_exact by assumption.
    rewrite Nat.sub_0_r, firstn_all. reflexivity. }
  unfold matchAll. cbn [matchAll_from List.length].
  rewrite (exec_here _ _ _ E). cbn [matched rest]. reflexivity.
Qed.

Lemma multi_re_one_field F T :
  F <> [] -> forallb not_quote F = true ->
  exec true multi_re
    (list_ascii_of_string "You don't have permission to access field "
     ++ dquote :: F ++ dquote :: list_ascii_of_string " in collection" ++ T)
  = Some (mkMatch
            (list_ascii_of_string "access field "
             ++ dquote :: F ++ dquote :: list_ascii_of_string " in collection")
            (Some (dquote :: F ++ [dquote])) T).
Proof.
  intros Hne Hf. cbn [list_ascii_of_string app].
  do 29 (rewrite exec_skip by reflexivity).
  apply exec_here. apply (multi_re_here T Hne Hf).
Qed.

(** X12: the round trip of the one-field message.  Whatever the name
    [f], not empty and with no double quote in it, and whatever follows
    the words [in collection], the extractor returns [f] alone. *)
Theorem extractForbiddenFields_one_field (f tail : string) :
  f <> "" -> forallb not_quote (list_ascii_of_string f) = true ->
  extractForbiddenFields (Str (one_field_message f tail)) = [f].
Proof.
  intros Hne Hf. unfold extractForbiddenFields.
  rewrite one_field_message_chars.
  assert (HF : list_ascii_of_string f <> []).
  { destruct f; [congruence | discriminate]. }
  rewrite (multi_re_one_field _ HF Hf).
  rewrite (quoted_re_token HF Hf). unfold collect. cbn [fold_left].
  unfold push_field. cbn [group1].
  destruct (list_ascii_of_string f) as [|c' cs'] eqn:E; [congruence|].
  rewrite <- E, string_of_list_ascii_of_string. reflexivity.
Qed.

Lemma extractForbiddenFields_one_field_witness :
  extractForbiddenFields (Str (one_field_message "secret_note" " posts")) = ["secret_note"].
Proof.
  apply extractForbiddenFields_one_field; [discriminate | reflexivity].
Defined.

Lemma strip_step_hit (B : list value) (f : string) :
  In (Str f) B ->
  strip_step (B, []) f = (filter (fun x => negb (str_eq x f)) B, [f]).
Proof.
  intros Hin. unfold strip_step.
  destruct (Nat.eqb (List.length (filter (fun x => negb (str_eq x f)) B)) (List.length B))
    eqn:E; [|reflexivity].
  exfalso. apply Nat.eqb_eq in E.
  pose proof (proj1 (filter_length_all _ B) E _ Hin) as H.
  simpl in H. now rewrite String.eqb_refl in H.
Qed.

(** X13: the recovery from the one-field message, end to end.  When the
    error has no reason of its own and its message is the one-field
    message for [f], and the field list of the query, the wildcard set
    aside, names [f], then the recovery is tried, the retry asks for
    that list without [f], and the warnings are the one on the wildcard,
    if the list had it, and the one on the removal of [f]. *)
Theorem one_field_recovery (q : value) (fs : list value) (e : ErrorLike)
  (f tail : string) :
  get q "fields" = Arr fs ->
  In (Str f) (strip_base fs) ->
  is_nullish (err_reason e) = true ->
  err_message e = one_field_message f tail ->
  f <> "" -> forallb not_quote (list_ascii_of_string f) = true ->
  recoverable q e = true /\
  get (retry_query q e) "fields" = Arr (filter (not_forbidden [f]) (strip_base fs)) /\
  retry_warnings q e
  = (if existsb is_wildcard fs then [warn_wildcard] else []) ++ [warn_removed [f]].
Proof.
  intros Hfs Hin Hnull Hmsg Hne Hq.
  assert (Hex : extractForbiddenFields (reason_of e) = [f]).
  { unfold reason_of, nullish_or. rewrite Hnull, Hmsg.
    unfold extractForbiddenFields. rewrite one_field_message_chars.
    assert (HF : list_ascii_of_string f <> []).
    { destruct f; [congruence | discriminate]. }
    rewrite (multi_re_one_field _ HF Hq), (quoted_re_token HF Hq).
    unfold collect. cbn [fold_left]. unfold push_field. cbn [group1].
    destruct (list_ascii_of_string f) as [|c' cs'] eqn:E; [congruence|].
    rewrite <- E, string_of_list_ascii_of_string. reflexivity. }
  unfold recoverable, retry_query, retry_warnings. rewrite Hex. cbv zeta.
  destruct (strip_reports_eq q [f] Hfs) as [Hr Hw].
  cbn [fold_left] in Hr. rewrite (strip_step_hit _ _ Hin) in Hr. cbn [snd] in Hr.
  assert (Hb : negb (Nat.eqb (List.length (strip_base fs)) 0) = true).
  { destruct (strip_base fs); [destruct Hin | reflexivity]. }
  rewrite Hb, !andb_true_r in Hw. rewrite Hr, Hw.
  split; [reflexivity|]. split.
  - destruct (strip_cases q [f]) as [Hu | (fs' & Hfs' & _ & Hs & _)].
    + rewrite Hu in Hr. discriminate Hr.
    + rewrite Hs. cbn [nextQuery]. rewrite with_fields_fields.
      rewrite Hfs in Hfs'. now injection Hfs' as <-.
  - simpl. now destruct (existsb is_wildcard fs).
Qed.

Lemma one_field_recovery_witness :
  recoverable two_fields_query secret_error = true /\
  get (retry_query two_fields_query secret_error) "fields" = Arr [Str "title"] /\
  retry_warnings two_fields_query secret_error = [warn_removed ["secret_note"]].
Proof.
  apply (one_field_recovery two_fields_query (fs := [Str "title"; Str "secret_note"])
           secret_error (f := "secret_note")
           (tail := (" " ++ quote ++ "posts" ++ quote ++ " or it does not exist.")%string)
           eq_refl).
  - simpl. auto.
  - reflexivity.
  - reflexivity.
  - discriminate.
  - reflexivity.
Defined.

(* ------------------------------------------------------------------ *)
(** ** More on the handler *)

Section HandlerMore.

Variables World Schema : Type.
Variable env : Collaborators World Schema.

Implicit Types (r : Run World) (request : Request).

(** The simulated read, case by case, with what decides the case. *)
Lemma read_simulated_decided (schema : Schema) acc collection query r res r' :
  read_simulated env schema acc collection query r = (res, r') ->
  (exists items,
     res = inr (items, []) /\
     log r' = log r ++ [EvRead SimulatedService acc collection query (inr items)]) \/
  (exists e,
     recoverable query e = false /\ res = inl (Thrown e) /\
     log r' = log r ++ [EvRead SimulatedService acc collection query (inl e)]) \/
  (exists e o,
     recoverable query e = true /\
     log r' = log r ++ [EvRead SimulatedService acc collection query (inl e);
                        EvRead SimulatedService acc collection (retry_query query e) o] /\
     res = match o with
           | inl e' => inl (Thrown e')
           | inr items => inr (items, retry_warnings query e)
           end).
Proof.
  unfold read_simulated, bind, call_readByQuery, rethrow, ret, throw.
  destruct (readByQuery env schema acc collection query (world r)) as [[e|items] w].
  2:{ intros [= <- <-]. left. eauto. }
  fold (reason_of e).
  destruct (negb (Nat.eqb (List.length (extractForbiddenFields (reason_of e))) 0))
    eqn:Hf.
  2:{ intros [= <- <-]. right. left. exists e. unfold recoverable. cbv zeta.
      rewrite Hf. now repeat split. }
  destruct (negb _ || removedWildcard _) eqn:Hch.
  2:{ intros [= <- <-]. right. left. exists e. unfold recoverable. cbv zeta.
      rewrite Hf, Hch. now repeat split. }
  assert (Hrec : recoverable query e = true).
  { unfold recoverable. cbv zeta. now rewrite Hf, Hch. }
  simpl world. simpl log. fold (retry_query query e).
  destruct (readByQuery env schema acc collection (retry_query query e) w)
    as [[e'|items] w'].
  - intros [= <- <-]. right. right. exists e, (inl e'). simpl.
    rewrite <- app_assoc. now repeat split.
  - intros [= <- <-]. right. right. exists e, (inr items). simpl.
    rewrite <- app_assoc. now repeat split.
Qed.

(** The user lookup of the context, case by case. *)
Lemma build_context_decided acc body mode r res r' :
  build_context env acc body mode r = (res, r') ->
  (r' = r /\ (res = inl BadRequestError \/ exists ctx, res = inr ctx)) \/
  (str_eq mode "user" = true /\
   exists o,
     log r' = log r ++ [EvLookup (get body "userId") o] /\
     res = match o with
           | inl e => inl (Thrown e)
           | inr None => inl BadRequestError
           | inr (Some row) =>
               inr (buildSimulatedAccountability acc
                      (user_overrides (get body "userId") (resolved_role row)),
                    user_warnings (resolved_role row) (row_status row))
           end).
Proof.
  unfold build_context, bind, ret, throw.
  destruct (str_eq mode "public"); [intros [= <- <-]; left; eauto|].
  destruct (str_eq mode "role").
  { destruct (_ && _); intros [= <- <-]; left; eauto. }
  destruct (str_eq mode "user"); [|intros [= <- <-]; left; eauto].
  destruct (_ && _); [|intros [= <- <-]; left; eauto].
  destruct (negb (truthy _)).
  - unfold call_users_first.
    destruct (users_first env (get body "userId") (world r)) as [[e|[row|]] w];
      intros [= <- <-]; right; (split; [reflexivity|]); eexists; (split; [reflexivity|]);
      try reflexivity.
    unfold user_warnings, resolved_role. f_equal. f_equal.
    destruct (row_role row) as [rl|]; destruct (row_status row) as [st|]; simpl;
      repeat match goal with
             | |- context [String.eqb ?a ?b] => destruct (String.eqb a b); simpl
             end; reflexivity.
  - intros [= <- <-]. left. eauto.
Qed.

Lemma read_simulated_decided' (schema : Schema) acc collection query r res r' :
  read_simulated env schema acc collection query r = (res, r') ->
  exists sim, log r' = log r ++ sim /\ simulated_decided acc collection query res sim.
Proof.
  intros H. apply read_simulated_decided in H.
  destruct H as [(items & -> & E) | [(e & Hr & -> & E) | (e & o & Hr & E & ->)]];
    eexists; (split; [exact E|]).
  - constructor.
  - now constructor.
  - destruct o; now constructor.
Qed.

Lemma read_requester_after request (schema : Schema) query ws1 items ws2 r res r' :
  (ws2 = [] \/ exists e, ws2 = retry_warnings query e) ->
  read_requester env schema (accountability request) (collection_of request) query
    (include_of request) r = (res, r') ->
  exists post,
    log r' = log r ++ post /\
    after_simulated request query ws1 (inr (items, ws2))
      match res with
      | inl e => inl e
      | inr ritems => inr (response_of request query (ws1 ++ ws2) items ritems)
      end post.
Proof.
  intros Hws H. apply read_requester_cases in H.
  destruct H as [(Hi & -> & ->) | (Hi & o & E & ->)].
  - exists []. rewrite app_nil_r. split; [reflexivity|]. split; [exact Hws|].
    left. now repeat split.
  - eexists. split; [exact E|]. split; [exact Hws|]. right. split; [exact Hi|].
    exists o. split; [reflexivity|]. now destruct o.
Qed.

(** A run, decided: rejected by a check on the request alone, with no
    call made; or the context is built and the rest follows. *)
Lemma simulate_decided request (w : World) out r' :
  simulate env request (start w) = (out, r') ->
  match precheck env request with
  | Some e => out = inl e /\ r' = start w
  | None =>
      exists ctx r1,
        build_context env (accountability request) (body_of request) (mode_of request)
          (start w) = (ctx, r1) /\
        match ctx with
        | inl e => out = inl e /\ r' = r1
        | inr (simAcc, ws1) =>
            exists tail, log r' = log r1 ++ tail /\
                         after_context env request simAcc ws1 out tail
        end
  end.
Proof.
  unfold simulate, precheck, after_context, parsed_query.
  fold (body_of request). fold (mode_of request).
  fold (collection_of request). fold (include_of request).
  destruct (truthy (get (accountability request) "admin")); cbn [negb];
    [|now intros [= <- <-]].
  destruct (truthy (collection_of request) && typeof_string (collection_of request));
    cbn [negb]; [|now intros [= <- <-]].
  destruct (existsb (str_eq (mode_of request)) modes); cbn [negb];
    [|now intros [= <- <-]].
  destruct (parseJsonIfNeeded env (get (body_of request) "query")) as [parsed|];
    [|now intros [= <- <-]].
  unfold bind at 1.
  destruct (build_context env _ _ _ (start w)) as [[e|[simAcc ws1]] r1] eqn:H1.
  { intros [= <- <-]. now exists (inl e), r1. }
  intros H. exists (inr (simAcc, ws1)), r1. split; [reflexivity|].
  revert H. unfold bind at 1.
  destruct (call_getSchema env r1) as [[e|schema] r2] eqn:H2.
  { intros [= <- <-]. exists [EvSchema]. split; [now apply call_getSchema_log in H2|].
    left. unfold call_getSchema in H2.
    destruct (getSchema env (world r1)) as [[e0|s] w0]; [|discriminate].
    injection H2 as <- _. now exists e0. }
  apply call_getSchema_log in H2.
  unfold bind at 1.
  destruct (read_simulated env schema simAcc _ _ r2) as [[e|[items ws2]] r3] eqn:H3.
  { intros [= <- <-]. apply read_simulated_decided' in H3. destruct H3 as (sim & E3 & Hs).
    exists (EvSchema :: sim ++ []). split.
    - rewrite E3, H2, app_nil_r, <- app_assoc. reflexivity.
    - right. exists (inl e), sim, []. repeat split; assumption. }
  pose proof (read_simulated_warnings _ _ _ _ _ _ H3) as Hw.
  apply read_simulated_decided' in H3. destruct H3 as (sim & E3 & Hs).
  unfold bind at 1.
  destruct (read_requester env schema _ _ _ _ r3) as [res r4] eqn:H4.
  apply (@read_requester_after request schema _ ws1 items ws2 r3 res r4 Hw) in H4.
  destruct H4 as (post & E4 & Hafter).
  intros H. assert (Hout : out = match res with
                                | inl e => inl e
                                | inr ritems =>
                                    inr (response_of request (nullish_or parsed (Obj []))
                                           (ws1 ++ ws2) items ritems)
                                end /\ r' = r4).
  { destruct res as [e|ritems]; injection H as <- <-; now split. }
  destruct Hout as [-> ->].
  exists (EvSchema :: sim ++ post). split.
  - rewrite E4, E3, H2, <- !app_assoc. reflexivity.
  - right. exists (inr (items, ws2)), sim, post.
    split; [exact Hs|]. split; [exact Hafter | reflexivity].
Qed.

End HandlerMore.

Section HandlerOutcomes.

Variables World Schema : Type.
Variable env : Collaborators World Schema.

Implicit Types (r : Run World) (request : Request).

Lemma simulated_decided_out acc collection query res sim :
  simulated_decided acc collection query res sim ->
  match res with
  | inl e => exists e' pre ev, e = Thrown e' /\ sim = pre ++ [ev] /\ event_failed ev e'
  | inr _ => True
  end.
Proof.
  destruct 1; try exact I.
  - exists e, [], (EvRead SimulatedService acc collection query (inl e)). now repeat split.
  - exists e', [EvRead SimulatedService acc collection query (inl e)],
      (EvRead SimulatedService acc collection (retry_query query e) (inl e')).
    now repeat split.
Qed.

(** After the context, a run answers or throws what a collaborator
    threw in the last call it made. *)
Lemma after_context_out request simAcc ws1 out tail :
  after_context env request simAcc ws1 out tail ->
  (exists resp, out = inr resp) \/
  (exists e pre ev, out = inl (Thrown e) /\ tail = pre ++ [ev] /\ event_failed ev e).
Proof.
  intros [(e & -> & ->) | (res & sim & post & Hs & Ha & ->)].
  - right. exists e, [], EvSchema. now repeat split.
  - apply simulated_decided_out in Hs. unfold after_simulated in Ha.
    destruct res as [e|[items ws2]].
    + destruct Hs as (e' & pre & ev & -> & -> & Hev). destruct Ha as [-> ->].
      right. exists e', (EvSchema :: pre), ev. rewrite app_nil_r. now repeat split.
    + destruct Ha as [_ [(_ & -> & ->) | (_ & o & -> & ->)]]; [left; eauto|].
      destruct o as [e|ritems]; [|left; eauto].
      right. exists e, (EvSchema :: sim), (EvRead RequesterService
        (accountability request) (collection_of request) (parsed_query env request) (inl e)).
      now repeat split.
Qed.

Lemma precheck_error request e :
  precheck env request = Some e ->
  (e = ForbiddenError /\ truthy (get (accountability request) "admin") = false) \/
  (e = BadRequestError /\ truthy (get (accountability request) "admin") = true).
Proof.
  unfold precheck. destruct (truthy (get (accountability request) "admin")); cbn [negb].
  - destruct (negb _); [intros [= <-]; now right|].
    destruct (negb _); [intros [= <-]; now right|].
    destruct (parseJsonIfNeeded _ _); [discriminate | intros [= <-]; now right].
  - intros [= <-]. now left.
Qed.

Lemma precheck_none_admin request :
  precheck env request = None -> truthy (get (accountability request) "admin") = true.
Proof.
  unfold precheck. now destruct (truthy (get (accountability request) "admin")).
Qed.

(** X14: the endpoint is the administrator's alone.  The outcome is the
    FORBIDDEN error, status 403, exactly when the caller's context is no
    administrator's; and for such a caller no collaborator is ever
    called. *)
Theorem forbidden_iff_not_admin request (w : World) out r' :
  simulate env request (start w) = (out, r') ->
  (out = inl ForbiddenError <-> truthy (get (accountability request) "admin") = false) /\
  (truthy (get (accountability request) "admin") = false -> log r' = []) /\
  status_of ForbiddenError = 403%Z.
Proof.
  intros H. apply simulate_decided in H.
  destruct (precheck env request) as [e|] eqn:Hp.
  - destruct H as [-> ->]. apply precheck_error in Hp.
    destruct Hp as [[-> Ha]|[-> Ha]]; rewrite Ha; repeat split; auto; discriminate.
  - apply precheck_none_admin in Hp. rewrite Hp.
    split; [|split; [discriminate | reflexivity]].
    split; [|discriminate]. intros ->. exfalso.
    destruct H as (ctx & r1 & H1 & H).
    apply build_context_decided in H1.
    destruct H1 as [(-> & [-> | (c & ->)]) | (_ & o & _ & ->)].
    + destruct H as [H _]. discriminate H.
    + destruct c as [simAcc ws1]. destruct H as (tail & _ & H).
      apply after_context_out in H.
      destruct H as [(resp & H) | (e & pre & ev & H & _)]; discriminate H.
    + destruct o as [e|[row|]].
      * destruct H as [H _]. discriminate H.
      * destruct H as (tail & _ & H). apply after_context_out in H.
        destruct H as [(resp & H) | (e & pre & ev & H & _)]; discriminate H.
      * destruct H as [H _]. discriminate H.
Qed.

(** X15: the BAD_REQUEST error, status 400, is always decided before
    the schema is asked for or anything is read: when it is the
    outcome, the log is empty or holds the one lookup of a user the
    directory does not know; and such a lookup always ends in it. *)
Theorem bad_request_before_reads request (w : World) out r' :
  simulate env request (start w) = (out, r') ->
  (out = inl BadRequestError ->
   log r' = [] \/ log r' = [EvLookup (get (body_of request) "userId") (inr None)]) /\
  (forall uid, In (EvLookup uid (inr None)) (log r') -> out = inl BadRequestError) /\
  status_of BadRequestError = 400%Z.
Proof.
  intros H. apply simulate_decided in H.
  destruct (precheck env request) as [e|] eqn:Hp.
  - destruct H as [-> ->]. split; [now left|]. split; [intros uid [] | reflexivity].
  - destruct H as (ctx & r1 & H1 & H).
    apply build_context_decided in H1.
    assert (Htail : forall simAcc ws1 tail,
              after_context env request simAcc ws1 out tail ->
              out <> inl BadRequestError /\
              forall uid, ~ In (EvLookup uid (inr None)) tail).
    { intros simAcc ws1 tail Ht. split.
      - apply after_context_out in Ht.
        destruct Ht as [(resp & ->) | (e & pre & ev & -> & _)]; discriminate.
      - intros uid Hin.
        destruct Ht as [(e & _ & ->) | (res & sim & post & Hs & Ha & ->)].
        + destruct Hin as [Hin|[]]. discriminate Hin.
        + destruct Hin as [Hin|Hin]; [discriminate Hin|].
          apply in_app_or in Hin. destruct Hin as [Hin|Hin].
          * destruct Hs; simpl in Hin; intuition discriminate.
          * now apply (after_simulated_no_simulated _ _ _ _ _ _ Ha) in Hin. }
    destruct H1 as [(-> & [-> | (c & ->)]) | (_ & o & E1 & ->)].
    + destruct H as [-> ->]. split; [now left|]. split; [intros uid [] | reflexivity].
    + destruct c as [simAcc ws1]. destruct H as (tail & El & H).
      apply Htail in H. destruct H as [Hne Hno]. simpl in El. rewrite El.
      split; [intros Hb; contradiction|]. split; [|reflexivity].
      intros uid Hin. now apply Hno in Hin.
    + simpl in E1. destruct o as [e|[row|]].
      * destruct H as [-> ->]. rewrite E1. split; [discriminate|]. split; [|reflexivity].
        intros uid [Hin|[]]. discriminate Hin.
      * destruct H as (tail & El & H). apply Htail in H. destruct H as [Hne Hno].
        rewrite El, E1. split; [intros Hb; contradiction|]. split; [|reflexivity].
        intros uid [Hin|Hin]; [discriminate Hin | now apply Hno in Hin].
      * destruct H as [-> ->]. rewrite E1. split; [now right|]. split; [|reflexivity].
        reflexivity.
Qed.


Lemma simulated_decided_reads acc collection query res sim :
  simulated_decided acc collection query res sim ->
  simulated_reads sim = sim /\ filter is_read sim = sim /\
  forall ev, In ev sim -> exists q o, ev = EvRead SimulatedService acc collection q o.
Proof.
  destruct 1; simpl; repeat split;
    intros ev Hin; simpl in Hin; intuition (subst; eauto).
Qed.

(** The reads of a run: none; or, after the lookups of the context and
    the schema, the simulated reads of one decided outcome and what
    follows them. *)
Lemma simulate_reads_decided request (w : World) out r' :
  simulate env request (start w) = (out, r') ->
  (forall ev, In ev (log r') -> is_read ev = false) \/
  exists simAcc ws1 r1 res sim post,
    precheck env request = None /\
    build_context env (accountability request) (body_of request) (mode_of request)
      (start w) = (inr (simAcc, ws1), r1) /\
    forallb is_lookup (log r1) = true /\
    simulated_decided simAcc (collection_of request) (parsed_query env request) res sim /\
    after_simulated request (parsed_query env request) ws1 res out post /\
    log r' = log r1 ++ EvSchema :: sim ++ post.
Proof.
  intros H. apply simulate_decided in H.
  destruct (precheck env request) as [e|] eqn:Hp.
  { destruct H as [_ ->]. left. intros ev []. }
  destruct H as (ctx & r1 & H1 & H).
  pose proof (build_context_log _ _ _ _ _ H1) as (evs & E1 & Hl). simpl in E1.
  assert (Hnr : forall ev, In ev (log r1) -> is_read ev = false).
  { intros ev Hin. rewrite E1 in Hin. rewrite forallb_forall in Hl.
    specialize (Hl ev Hin). now destruct ev. }
  destruct ctx as [e|[simAcc ws1]].
  { destruct H as [_ ->]. now left. }
  destruct H as (tail & El & [(e & _ & ->) | (res & sim & post & Hs & Ha & ->)]).
  - left. intros ev Hin. rewrite El in Hin. apply in_app_or in Hin.
    destruct Hin as [Hin|[<-|[]]]; [now apply Hnr | reflexivity].
  - right. exists simAcc, ws1, r1, res, sim, post. rewrite E1 at 1.
    now repeat split.
Qed.

Lemma retry_warnings_nonempty query e :
  recoverable query e = true -> retry_warnings query e <> [].
Proof.
  unfold recoverable, retry_warnings. cbv zeta. intros H.
  apply andb_prop in H. destruct H as [_ H]. apply orb_prop in H.
  destruct (negb (Nat.eqb (List.length (removedFields _)) 0)).
  - destruct (removedWildcard _); discriminate.
  - destruct H as [H|H]; [discriminate H|]. rewrite H. discriminate.
Qed.

(** X17: what decides the retry.  When the primary simulated read of
    [q] fails with [e], there is a second simulated read exactly when
    the message of [e] names fields and the mutator reports a removal
    from [q]; otherwise [e] itself is the outcome; and a response sent
    after a retry ends its warnings with the warnings of the recovery,
    of which there is at least one. *)
Theorem retry_iff_recoverable request (w : World) out r' acc c q e rest :
  simulate env request (start w) = (out, r') ->
  simulated_reads (log r') = EvRead SimulatedService acc c q (inl e) :: rest ->
  (rest <> [] <-> recoverable q e = true) /\
  (recoverable q e = false -> out = inl (Thrown e)) /\
  (forall resp, out = inr resp ->
     retry_warnings q e <> [] /\
     exists ws1, r_warnings resp = ws1 ++ retry_warnings q e).
Proof.
  intros H Hs. apply simulate_reads_decided in H.
  destruct H as [Hno | (simAcc & ws1 & r1 & res & sim & post & _ & _ & Hl & Hd & Ha & El)].
  { exfalso. assert (Hin : In (EvRead SimulatedService acc c q (inl e)) (log r')).
    { apply (filter_In is_simulated_read). fold (simulated_reads (log r')).
      rewrite Hs. now left. }
    apply Hno in Hin. discriminate Hin. }
  assert (Hsim : simulated_reads (log r') = sim).
  { rewrite El. change (EvSchema :: sim ++ post) with ([EvSchema] ++ sim ++ post).
    rewrite !simulated_reads_app.
    rewrite (proj2 (lookups_no_reads _ Hl)).
    rewrite (proj1 (simulated_decided_reads Hd)).
    rewrite (proj1 (after_simulated_no_simulated _ _ _ _ _ _ Ha)).
    simpl. apply app_nil_r. }
  rewrite Hsim in Hs. subst sim.
  inversion Hd as [items Er Ev | e0 Hr Er Ev | e0 items Hr Er Ev | e0 e' Hr Er Ev]; subst.
  - rewrite Hr. split; [split; [intros Hc; now contradiction Hc | discriminate]|].
    split; [intros _|].
    + unfold after_simulated in Ha. now destruct Ha as [-> _].
    + intros resp ->. unfold after_simulated in Ha. destruct Ha as [Ha _]. discriminate Ha.
  - rewrite Hr. split; [split; [reflexivity | discriminate]|].
    split; [discriminate|]. intros resp Hout.
    split; [now apply retry_warnings_nonempty|].
    unfold after_simulated in Ha.
    destruct Ha as [_ [(_ & _ & Ho) | (_ & o & _ & Ho)]].
    + rewrite Ho in Hout. injection Hout as <-. now exists ws1.
    + destruct o as [e1|ritems]; rewrite Ho in Hout; [discriminate Hout|].
      injection Hout as <-. now exists ws1.
  - rewrite Hr. split; [split; [reflexivity | discriminate]|].
    split; [discriminate|]. intros resp ->.
    unfold after_simulated in Ha. destruct Ha as [Ha _]. discriminate Ha.
Qed.

Lemma in_log_decided (l1 sim post : list Event) ev :
  forallb is_lookup l1 = true ->
  In ev (l1 ++ EvSchema :: sim ++ post) -> is_read ev = true ->
  In ev sim \/ In ev post.
Proof.
  intros Hl Hin Hr. apply in_app_or in Hin. destruct Hin as [Hin|[<-|Hin]].
  - rewrite forallb_forall in Hl. specialize (Hl ev Hin). now destruct ev.
  - discriminate Hr.
  - now apply in_app_or in Hin.
Qed.

Lemma after_simulated_post request query ws1 res out post ev :
  after_simulated request query ws1 res out post -> In ev post ->
  truthy (include_of request) = true /\
  exists o, ev = EvRead RequesterService (accountability request)
                   (collection_of request) query o /\ post = [ev].
Proof.
  unfold after_simulated. destruct res as [e|[items ws2]].
  - intros [_ ->] [].
  - intros [_ [(_ & -> & _) | (Hi & o & -> & _)]]; [intros []|].
    intros [<-|[]]. split; [exact Hi|]. now exists o.
Qed.

(** X18: in mode [requester], and with no mode at all, nothing is
    simulated: the simulated service reads with the caller's own
    context as it came, and the user directory is not asked. *)
Theorem requester_mode_own_context request (w : World) out r' :
  simulate env request (start w) = (out, r') ->
  mode_of request = Str "requester" ->
  forall ev, In ev (log r') ->
    is_lookup ev = false /\
    forall svc acc c q o, ev = EvRead svc acc c q o -> acc = accountability request.
Proof.
  intros H Hmode ev Hin. apply simulate_decided in H.
  destruct (precheck env request) as [e|].
  { destruct H as [_ ->]. destruct Hin. }
  destruct H as (ctx & r1 & H1 & H).
  rewrite Hmode, build_context_requester in H1. injection H1 as <- <-.
  destruct H as (tail & El & [(e & _ & ->) | (res & sim & post & Hd & Ha & ->)]);
    simpl in El; rewrite El in Hin.
  - destruct Hin as [<-|[]]. split; [reflexivity | discriminate].
  - destruct Hin as [<-|Hin]; [split; [reflexivity | discriminate]|].
    apply in_app_or in Hin. destruct Hin as [Hin|Hin].
    + apply (simulated_decided_reads Hd) in Hin. destruct Hin as (q & o & ->).
      split; [reflexivity|]. now intros svc acc c q0 o0 [= _ <- _ _ _].
    + apply (after_simulated_post _ _ _ _ _ _ _ Ha) in Hin.
      destruct Hin as (_ & o & -> & _).
      split; [reflexivity|]. now intros svc acc c q0 o0 [= _ <- _ _ _].
Qed.


Lemma precheck_none_mode request :
  precheck env request = None -> exists m, mode_of request = Str m /\ In m modes.
Proof.
  unfold precheck. destruct (negb (truthy (get _ "admin"))); [discriminate|].
  destruct (negb (_ && _)); [discriminate|].
  destruct (existsb (str_eq (mode_of request)) modes) eqn:E; [|discriminate].
  intros _. apply existsb_exists in E. destruct E as (m & Hm & E).
  apply str_eq_true in E. now exists m.
Qed.


(** X20: the requester read is made with the caller's own context, only
    when [includeRequester] is truthy, at most once, and as the last
    call of the run. *)
Theorem requester_read_last request (w : World) out r' acc c q o :
  simulate env request (start w) = (out, r') ->
  In (EvRead RequesterService acc c q o) (log r') ->
  acc = accountability request /\
  truthy (include_of request) = true /\
  exists pre, log r' = pre ++ [EvRead RequesterService acc c q o] /\
    forall acc' c' q' o', ~ In (EvRead RequesterService acc' c' q' o') pre.
Proof.
  intros H Hin. apply simulate_reads_decided in H.
  destruct H as [Hno | (simAcc & ws1 & r1 & res & sim & post & Hp & _ & Hl & Hd & Ha & El)].
  { apply Hno in Hin. discriminate Hin. }
  rewrite El in Hin. apply (in_log_decided _ _ _ _ Hl) in Hin; [|reflexivity].
  destruct Hin as [Hin|Hin].
  { apply (simulated_decided_reads Hd) in Hin. destruct Hin as (q' & o' & Hin).
    discriminate Hin. }
  apply (after_simulated_post _ _ _ _ _ _ _ Ha) in Hin.
  destruct Hin as (Hi & o' & Hev & Hpost). injection Hev as -> -> -> ->.
  split; [reflexivity|]. split; [exact Hi|].
  exists (log r1 ++ EvSchema :: sim). split.
  - rewrite El, Hpost. now rewrite <- app_assoc.
  - intros acc' c' q' o'' Hin. apply in_app_or in Hin. destruct Hin as [Hin|[Hin|Hin]].
    + rewrite forallb_forall in Hl. apply Hl in Hin. discriminate Hin.
    + discriminate Hin.
    + apply (simulated_decided_reads Hd) in Hin. destruct Hin as (q0 & o0 & Hin).
      discriminate Hin.
Qed.

Lemma simulate_responded request (w : World) resp r' :
  simulate env request (start w) = (inr resp, r') ->
  exists simAcc ws1 r1 items ws2 sim post,
    precheck env request = None /\
    build_context env (accountability request) (body_of request) (mode_of request)
      (start w) = (inr (simAcc, ws1), r1) /\
    forallb is_lookup (log r1) = true /\
    simulated_decided simAcc (collection_of request) (parsed_query env request)
      (inr (items, ws2)) sim /\
    after_simulated request (parsed_query env request) ws1 (inr (items, ws2))
      (inr resp) post /\
    log r' = log r1 ++ EvSchema :: sim ++ post.
Proof.
  intros H. apply simulate_decided in H.
  destruct (precheck env request) as [e|] eqn:Hp; [destruct H as [H _]; discriminate H|].
  destruct H as (ctx & r1 & H1 & H).
  pose proof (build_context_log _ _ _ _ _ H1) as (evs & E1 & Hl). simpl in E1.
  destruct ctx as [e|[simAcc ws1]]; [destruct H as [H _]; discriminate H|].
  destruct H as (tail & El & [(e & H & _) | (res & sim & post & Hs & Ha & ->)]);
    [discriminate H|].
  destruct res as [e|[items ws2]].
  { unfold after_simulated in Ha. destruct Ha as [Ha _]. discriminate Ha. }
  rewrite <- E1 in Hl.
  exists simAcc, ws1, r1, items, ws2, sim, post.
  split; [reflexivity|]. split; [exact H1|]. split; [exact Hl|].
  split; [exact Hs|]. split; [exact Ha | exact El].
Qed.

(** X21: what a response is made of.  It names the mode, one of the
    four, the collection and the parsed query of the request; its
    simulated rows are the rows the last simulated read returned; when
    [includeRequester] is truthy its requester rows are those the
    requester read returned and its hints are the differ's on the first
    row of each; otherwise it has no requester rows and no hints. *)
Theorem response_assembled request (w : World) resp r' :
  simulate env request (start w) = (inr resp, r') ->
  (exists m, r_mode resp = Str m /\ In m modes /\ Str m = mode_of request) /\
  r_collection resp = get (body_of request) "collection" /\
  r_query resp = parsed_query env request /\
  (exists acc c q pre,
     simulated_reads (log r') = pre ++ [EvRead SimulatedService acc c q (inr (r_simulated resp))]) /\
  (if truthy (include_of request)
   then exists ritems,
          r_requester resp = Some ritems /\
          In (EvRead RequesterService (accountability request) (collection_of request)
                (parsed_query env request) (inr ritems)) (log r') /\
          r_hints resp
          = buildHints (getFirstItem ritems) (getFirstItem (r_simulated resp))
   else r_requester resp = None /\ r_hints resp = []).
Proof.
  intros H. apply simulate_responded in H.
  destruct H as (simAcc & ws1 & r1 & items & ws2 & sim & post & Hp & _ & Hl & Hd & Ha & El).
  assert (Hsim : simulated_reads (log r') = sim).
  { rewrite El. change (EvSchema :: sim ++ post) with ([EvSchema] ++ sim ++ post).
    rewrite !simulated_reads_app.
    rewrite (proj2 (lookups_no_reads _ Hl)).
    rewrite (proj1 (simulated_decided_reads Hd)).
    rewrite (proj1 (after_simulated_no_simulated _ _ _ _ _ _ Ha)).
    simpl. apply app_nil_r. }
  assert (Hlast : exists acc c q pre,
            sim = pre ++ [EvRead SimulatedService acc c q (inr items)]).
  { inversion Hd; subst.
    - now exists simAcc, (collection_of request), (parsed_query env request), [].
    - now exists simAcc, (collection_of request),
        (retry_query (parsed_query env request) e),
        [EvRead SimulatedService simAcc (collection_of request)
           (parsed_query env request) (inl e)]. }
  destruct (precheck_none_mode _ Hp) as (m & Hm & Hin).
  unfold after_simulated in Ha.
  destruct Ha as [_ [(Hi & -> & [= ->]) | (Hi & o & -> & Ho)]].
  - unfold response_of. rewrite Hi. simpl. rewrite Hsim.
    repeat split; try assumption. now exists m.
  - destruct o as [e|ritems]; [discriminate Ho|]. injection Ho as ->.
    unfold response_of. rewrite Hi. simpl. rewrite Hsim.
    repeat split; try assumption; [now exists m|].
    exists ritems. repeat split. rewrite El. apply in_or_app. right. right.
    apply in_or_app. right. now left.
Qed.

(** What asking the directory tells of the request. *)
Lemma build_context_lookup acc body mode r res r' ev :
  build_context env acc body mode r = (res, r') -> log r' = log r ++ [ev] ->
  mode = Str "user" /\
  (exists u, get body "userId" = Str u /\ u <> "") /\
  (forall rid, get body "roleId" = Str rid -> rid = "").
Proof.
  assert (Hno : log r = log r ++ [ev] -> False).
  { intros E. apply (f_equal (@List.length Event)) in E.
    rewrite length_app in E. simpl in E. lia. }
  unfold build_context, bind, ret, throw.
  destruct (str_eq mode "public"); [intros [= <- <-] E; now destruct Hno|].
  destruct (str_eq mode "role").
  { destruct (_ && _); intros [= <- <-] E; now destruct Hno. }
  destruct (str_eq mode "user") eqn:Hm; [|intros [= <- <-] E; now destruct Hno].
  apply str_eq_true in Hm.
  destruct (truthy (get body "userId") && typeof_string (get body "userId")) eqn:Hu;
    [|intros [= <- <-] E; now destruct Hno].
  destruct (negb (truthy _)) eqn:Hr; [|intros [= <- <-] E; now destruct Hno].
  intros _ _. split; [exact Hm|]. split.
  - destruct (get body "userId") as [| |b|z|u|l|l]; simpl in Hu;
      rewrite ?andb_false_r in Hu; try discriminate Hu.
    exists u. split; [reflexivity|]. intros ->. discriminate Hu.
  - intros rid Hrid. rewrite Hrid in Hr. simpl in Hr.
    destruct (String.eqb rid "") eqn:E; [now apply String.eqb_eq in E | discriminate Hr].
Qed.

Lemma after_context_tail request simAcc ws1 out tail :
  after_context env request simAcc ws1 out tail ->
  (forall ev, In ev tail -> is_lookup ev = false) /\
  (forall acc c q o, In (EvRead SimulatedService acc c q o) tail -> acc = simAcc) /\
  (forall resp, out = inr resp ->
     exists ws, r_warnings resp = ws1 ++ ws /\
       (ws = [] \/ exists e, ws = retry_warnings (parsed_query env request) e)).
Proof.
  intros [(e & -> & ->) | (res & sim & post & Hd & Ha & ->)].
  - split; [intros ev [<-|[]]; reflexivity|].
    split; [intros acc c q o [H|[]]; discriminate H | discriminate].
  - assert (Hev : forall ev, In ev (EvSchema :: sim ++ post) ->
              ev = EvSchema \/
              (exists q o, ev = EvRead SimulatedService simAcc (collection_of request) q o) \/
              (exists o, ev = EvRead RequesterService (accountability request)
                                (collection_of request) (parsed_query env request) o)).
    { intros ev [<-|Hin]; [now left|]. right. apply in_app_or in Hin.
      destruct Hin as [Hin|Hin].
      - left. now apply (simulated_decided_reads Hd).
      - right. apply (after_simulated_post _ _ _ _ _ _ _ Ha) in Hin.
        destruct Hin as (_ & o & -> & _). now exists o. }
    split; [|split].
    + intros ev Hin. apply Hev in Hin.
      destruct Hin as [->|[(q & o & ->)|(o & ->)]]; reflexivity.
    + intros acc c q o Hin. apply Hev in Hin.
      destruct Hin as [H|[(q' & o' & H)|(o' & H)]]; try discriminate H.
      now injection H as ->.
    + intros resp ->. unfold after_simulated in Ha.
      destruct res as [e|[items ws2]]; [destruct Ha as [Ha _]; discriminate Ha|].
      destruct Ha as [Hws [(_ & _ & [= ->]) | (_ & o & _ & Ho)]].
      * now exists ws2.
      * destruct o as [e|ritems]; [discriminate Ho|]. injection Ho as ->. now exists ws2.
Qed.


(** The handler reads its body through six properties only, and the
    query through the parser. *)
Lemma simulate_body_ext acc b1 b2 :
  (forall k, k <> "query" ->
     get (nullish_or b1 (Obj [])) k = get (nullish_or b2 (Obj [])) k) ->
  parseJsonIfNeeded env (get (nullish_or b1 (Obj [])) "query")
  = parseJsonIfNeeded env (get (nullish_or b2 (Obj [])) "query") ->
  forall r, simulate env (mkRequest acc b1) r = simulate env (mkRequest acc b2) r.
Proof.
  intros Hk Hq r. unfold simulate. cbn [accountability body].
  rewrite Hq.
  rewrite (Hk "mode"), (Hk "collection"), (Hk "includeRequester") by discriminate.
  assert (Hb : forall mode,
            build_context env acc (nullish_or b1 (Obj [])) mode
            = build_context env acc (nullish_or b2 (Obj [])) mode).
  { intros mode. unfold build_context.
    now rewrite (Hk "roleId"), (Hk "userId") by discriminate. }
  now rewrite Hb.
Qed.

(** X23: a query sent as JSON text is the query sent as the value the
    text parses to, when that is no string; and a text that is blank,
    white space only, is no query at all.  The runs are the same:
    outcome, calls and world. *)
Theorem query_text_as_value acc (ps : list (string * value)) (s : string) :
  let with_query q := mkRequest acc (Obj (assoc_set "query" q ps)) in
  (trim s = "" ->
   forall r, simulate env (with_query (Str s)) r = simulate env (with_query Undefined) r) /\
  (forall v, trim s <> "" -> json_parse env (trim s) = Some v -> typeof_string v = false ->
   forall r, simulate env (with_query (Str s)) r = simulate env (with_query v) r).
Proof.
  cbv zeta. split.
  - intros Ht r. apply simulate_body_ext.
    + intros k Hk. cbn [nullish_or is_nullish].
      now rewrite !get_set_other by congruence.
    + cbn [nullish_or is_nullish]. rewrite !get_set_same.
      unfold parseJsonIfNeeded. now rewrite Ht.
  - intros v Ht Hv Hs r. apply simulate_body_ext.
    + intros k Hk. cbn [nullish_or is_nullish].
      now rewrite !get_set_other by congruence.
    + cbn [nullish_or is_nullish]. rewrite !get_set_same.
      unfold parseJsonIfNeeded.
      assert (E : truthy (Str (trim s)) = true).
      { simpl. destruct (String.eqb (trim s) "") eqn:E; [|reflexivity].
        now apply String.eqb_eq in E. }
      rewrite E. cbn [negb]. rewrite Hv. now destruct v.
Qed.

Lemma build_context_invalid acc body mode r res r' :
  build_context env acc body mode r = (res, r') ->
  context_invalid body mode = true <-> res = inl BadRequestError /\ log r' = log r.
Proof.
  assert (Hno : forall ev, log r ++ [ev] = log r -> False).
  { intros ev E. apply (f_equal (@List.length Event)) in E.
    rewrite length_app in E. simpl in E. lia. }
  unfold build_context, context_invalid, bind, ret, throw.
  destruct (str_eq mode "public") eqn:Hpub.
  { apply str_eq_true in Hpub. subst mode. simpl. intros [= <- <-].
    split; [discriminate | intros [H _]; discriminate H]. }
  destruct (str_eq mode "role") eqn:Hrole.
  { apply str_eq_true in Hrole. subst mode. simpl. rewrite orb_false_r.
    destruct (_ && _); intros [= <- <-]; simpl.
    - split; [discriminate | intros [H _]; discriminate H].
    - now split. }
  destruct (str_eq mode "user") eqn:Huser.
  2:{ intros [= <- <-]. simpl. split; [discriminate | intros [H _]; discriminate H]. }
  simpl. destruct (truthy (get body "userId") && typeof_string (get body "userId")).
  2:{ intros [= <- <-]. now split. }
  simpl. destruct (negb (truthy _)).
  - unfold call_users_first.
    destruct (users_first env (get body "userId") (world r)) as [[e|[row|]] w'];
      intros [= <- <-]; simpl;
      (split; [discriminate | intros [_ H]; now apply Hno in H]).
  - intros [= <- <-]. split; [discriminate | intros [H _]; discriminate H].
Qed.

Lemma precheck_invalid request :
  truthy (get (accountability request) "admin") = true ->
  match precheck env request with
  | Some e =>
      e = BadRequestError /\ body_invalid env request = true
  | None =>
      body_invalid env request
      = context_invalid (body_of request) (mode_of request)
  end.
Proof.
  intros Ha. unfold precheck, body_invalid. rewrite Ha. cbn [negb].
  destruct (negb (_ && _)); [now split|].
  destruct (negb (existsb _ _)); [now split|].
  destruct (parseJsonIfNeeded _ _); [reflexivity | now split].
Qed.

(** X24: what is refused without a call.  For an administrator, the
    outcome is BAD_REQUEST with nothing asked of any collaborator
    exactly when the body is invalid as it stands: no non-empty string
    as collection, a mode that is none of the four, a query text that
    does not parse, or the mode [role] or [user] without a non-empty
    string as [roleId] or [userId]. *)
Theorem invalid_body_rejected request (w : World) out r' :
  simulate env request (start w) = (out, r') ->
  truthy (get (accountability request) "admin") = true ->
  body_invalid env request = true <-> out = inl BadRequestError /\ log r' = [].
Proof.
  intros H Ha. apply simulate_decided in H.
  pose proof (precheck_invalid request Ha) as Hp.
  destruct (precheck env request) as [e|].
  { destruct Hp as [-> Hb]. destruct H as [-> ->]. now split. }
  rewrite Hp. destruct H as (ctx & r1 & H1 & H).
  pose proof (build_context_invalid _ _ _ _ H1) as Hc. simpl in Hc.
  rewrite Hc. split.
  - intros [-> E]. destruct H as [-> ->]. now split.
  - intros [-> E]. destruct ctx as [e|[simAcc ws1]].
    + destruct H as [[= ->] ->]. now split.
    + destruct H as (tail & El & Ht). exfalso.
      apply after_context_out in Ht.
      destruct Ht as [(resp & Ht) | (e & pre & ev & Ht & _)]; discriminate Ht.
Qed.

Lemma bad_request_cases request (w : World) out r' :
  simulate env request (start w) = (out, r') ->
  out = inl BadRequestError ->
  body_invalid env request = true \/
  (mode_of request = Str "user" /\
   log r' = [EvLookup (get (body_of request) "userId") (inr None)] /\
   forall rid, get (body_of request) "roleId" = Str rid -> rid = "").
Proof.
  intros H ->. apply simulate_decided in H.
  destruct (precheck env request) as [e|] eqn:Hp.
  { destruct H as [[= <-] _]. left.
    pose proof (precheck_error _ Hp) as [[He _]|[_ Ha]]; [discriminate He|].
    pose proof (precheck_invalid request Ha) as Hi. rewrite Hp in Hi. apply Hi. }
  pose proof (precheck_invalid request (precheck_none_admin _ Hp)) as Hi.
  rewrite Hp in Hi. rewrite Hi.
  destruct H as (ctx & r1 & H1 & H).
  pose proof (build_context_invalid _ _ _ _ H1) as Hc.
  pose proof (build_context_decided _ _ _ _ _ H1) as [(-> & _) | (Hm & o & E1 & ->)].
  - destruct ctx as [e|[simAcc ws1]].
    + destruct H as [[= <-] _]. left. now apply Hc.
    + destruct H as (tail & _ & Ht). apply after_context_out in Ht.
      destruct Ht as [(resp & Ht) | (e & pre & ev & Ht & _)]; discriminate Ht.
  - apply str_eq_true in Hm.
    pose proof (build_context_lookup _ _ _ _ _ H1 E1) as (_ & _ & Hrid).
    simpl in E1. destruct o as [e|[row|]].
    + destruct H as [H _]. discriminate H.
    + destruct H as (tail & _ & Ht). apply after_context_out in Ht.
      destruct Ht as [(resp & Ht) | (e & pre & ev & Ht & _)]; discriminate Ht.
    + destruct H as [_ ->]. right. now repeat split.
Qed.

(** X25: the form and the endpoint agree.  A form that enables the
    Simulate button sends, with any query that is no string, a body the
    endpoint does not refuse as invalid; the one BAD_REQUEST left to
    such a form is that of the mode [user] with no role chosen, for a
    user the directory does not know. *)
Theorem form_payload_accepted (f : Ui.Form) (q acc : value) (w : World) out r' :
  Ui.canSimulate f = true ->
  typeof_string q = false ->
  simulate env (mkRequest acc (Ui.sent (Ui.payload f q))) (start w) = (out, r') ->
  body_invalid env (mkRequest acc (Ui.sent (Ui.payload f q))) = false /\
  (out = inl BadRequestError ->
   Ui.mode f = Ui.User /\ Ui.roleId f = "" /\
   log r' = [EvLookup (Str (Ui.userId f)) (inr None)]).
Proof.
  intros Hcan Hq H.
  assert (Hb : body_invalid env (mkRequest acc (Ui.sent (Ui.payload f q))) = false).
  { unfold Ui.canSimulate in Hcan. destruct f as [m c u rl]. simpl in Hcan.
    destruct (String.eqb c "") eqn:Ec; [discriminate Hcan|]. simpl in Hcan.
    unfold body_invalid, collection_of, mode_of, body_of, context_invalid,
      parseJsonIfNeeded.
    destruct q; try discriminate Hq;
      destruct m; simpl; rewrite ?Ec; simpl;
      try reflexivity;
      try (simpl in Hcan; destruct (String.eqb u "") eqn:Eu; [discriminate Hcan|]);
      try (simpl in Hcan; destruct (String.eqb rl "") eqn:Er; [discriminate Hcan|]);
      simpl; rewrite ?Ec, ?Eu, ?Er; simpl; try reflexivity;
      destruct (String.eqb rl ""); simpl; rewrite ?Eu; reflexivity. }
  split; [exact Hb|]. intros Ho.
  destruct (bad_request_cases _ _ H Ho) as [Hi | (Hm & El & Hrid)]; [congruence|].
  clear H Hb. destruct f as [m c u rl]. unfold mode_of, body_of in *. simpl in *.
  destruct m; destruct q; try discriminate Hq; simpl in Hm; try discriminate Hm;
    (destruct (String.eqb rl "") eqn:Er; simpl in El, Hrid;
     [apply String.eqb_eq in Er; now repeat split
     | specialize (Hrid rl eq_refl); subst rl; discriminate Er]).
Qed.

(** X26: the contexts of the modes [role] and [public].  In mode
    [role] every simulated read is made with a context whose role is
    the [roleId] of the body and whose user is [null], and a response
    starts its warnings with the one on role-only simulation; in mode
    [public] user and role are both [null], and the only warnings of a
    response are those of the recovery.  In neither is the directory
    asked. *)
Theorem role_and_public_contexts request (w : World) out r' :
  simulate env request (start w) = (out, r') ->
  (mode_of request = Str "role" ->
   (forall ev, In ev (log r') -> is_lookup ev = false) /\
   (forall acc c q o, In (EvRead SimulatedService acc c q o) (log r') ->
      get acc "user" = Null /\ get acc "role" = get (body_of request) "roleId") /\
   (forall resp, out = inr resp -> exists ws, r_warnings resp = warn_role_only :: ws)) /\
  (mode_of request = Str "public" ->
   (forall ev, In ev (log r') -> is_lookup ev = false) /\
   (forall acc c q o, In (EvRead SimulatedService acc c q o) (log r') ->
      get acc "user" = Null /\ get acc "role" = Null) /\
   (forall resp, out = inr resp ->
      r_warnings resp = [] \/
      exists e, r_warnings resp = retry_warnings (parsed_query env request) e)).
Proof.
  intros H. apply simulate_decided in H.
  destruct (precheck env request) as [e|].
  { destruct H as [-> ->].
    split; intros _; (split; [intros ev []|]); (split; [intros acc c q o []|]);
      discriminate. }
  destruct H as (ctx & r1 & H1 & H).
  split; intros Hm; rewrite Hm in H1; unfold build_context in H1; simpl in H1;
    unfold bind, ret, throw in H1.
  - destruct (truthy (get (body_of request) "roleId")
              && typeof_string (get (body_of request) "roleId")) eqn:Hr;
      injection H1 as <- <-.
    + destruct H as (tail & El & Ht). simpl in El. rewrite El.
      apply after_context_tail in Ht. destruct Ht as (Hlk & Hacc & Hws).
      split; [exact Hlk|]. split.
      * intros acc c q o Hin. apply Hacc in Hin. subst acc.
        rewrite builder_user, builder_role. simpl. split; [reflexivity|].
        destruct (get (body_of request) "roleId"); try discriminate Hr; reflexivity.
      * intros resp Hresp. destruct (Hws resp Hresp) as (ws & E & _). now exists ws.
    + destruct H as [-> ->].
      split; [intros ev []|]. split; [intros acc c q o [] | discriminate].
  - injection H1 as <- <-.
    destruct H as (tail & El & Ht). simpl in El. rewrite El.
    apply after_context_tail in Ht. destruct Ht as (Hlk & Hacc & Hws).
    split; [exact Hlk|]. split.
    + intros acc c q o Hin. apply Hacc in Hin. subst acc.
      rewrite builder_user, builder_role. simpl. now split.
    + intros resp Hresp. destruct (Hws resp Hresp) as (ws & E & Hw).
      simpl in E. rewrite E. exact Hw.
Qed.

End HandlerOutcomes.
(* ------------------------------------------------------------------ *)
(** ** The handler on the example requests *)

(** X14 above at a caller that is no administrator. *)
Lemma forbidden_iff_not_admin_witness :
  fst (simulate demo_env plain_request (start tt)) = inl ForbiddenError /\
  log (snd (simulate demo_env plain_request (start tt))) = [].
Proof.
  destruct (forbidden_iff_not_admin demo_env plain_request tt (surjective_pairing _))
    as (Hiff & Hlog & _).
  split; [apply Hiff; reflexivity | apply Hlog; reflexivity].
Defined.

(** X15 above at a user the directory does not know. *)
Lemma bad_request_before_reads_witness :
  log (snd (simulate demo_env ghost_request (start tt))) = [] \/
  log (snd (simulate demo_env ghost_request (start tt)))
  = [EvLookup (get (body_of ghost_request) "userId") (inr None)].
Proof.
  apply (proj1 (bad_request_before_reads demo_env ghost_request tt (surjective_pairing _))).
  vm_compute. reflexivity.
Defined.


(** X17 above at the role request, whose primary read fails on
    [secret_note] and whose retry is answered. *)
Lemma retry_iff_recoverable_witness :
  recoverable two_fields_query secret_error = true /\
  forall resp, fst (simulate demo_env role_request (start tt)) = inr resp ->
    exists ws1, r_warnings resp = ws1 ++ retry_warnings two_fields_query secret_error.
Proof.
  destruct (retry_iff_recoverable demo_env role_request tt
              (acc := role_context) (c := posts) (q := two_fields_query)
              (e := secret_error)
              (rest := [EvRead SimulatedService role_context posts narrowed_query
                          (inr [post_public])])
              (surjective_pairing _)) as (Hiff & _ & Hresp).
  - vm_compute. reflexivity.
  - split; [apply Hiff; discriminate|].
    intros resp Hr. exact (proj2 (Hresp resp Hr)).
Defined.

(** X18 above at the request with no mode. *)
Lemma requester_mode_own_context_witness :
  mode_of modeless_request = Str "requester" /\
  forall ev, In ev (log (snd (simulate demo_env modeless_request (start tt)))) ->
    is_lookup ev = false /\
    forall svc acc c q o, ev = EvRead svc acc c q o -> acc = admin_context.
Proof.
  split; [reflexivity|].
  apply (requester_mode_own_context demo_env modeless_request tt (surjective_pairing _)).
  reflexivity.
Defined.


(** X20 above at the requester read of the role request. *)
Lemma requester_read_last_witness :
  admin_context = accountability role_request /\
  truthy (include_of role_request) = true /\
  exists pre,
    log (snd (simulate demo_env role_request (start tt)))
    = pre ++ [EvRead RequesterService admin_context posts two_fields_query
                (inr [post_full])] /\
    forall acc' c' q' o', ~ In (EvRead RequesterService acc' c' q' o') pre.
Proof.
  apply (requester_read_last demo_env role_request tt
           admin_context posts two_fields_query (inr [post_full])
           (surjective_pairing _)).
  vm_compute. auto.
Defined.

(** X21 above at the response to the role request. *)
Lemma response_assembled_witness :
  exists resp,
    fst (simulate demo_env role_request (start tt)) = inr resp /\
    r_query resp = two_fields_query /\
    r_hints resp = buildHints post_full post_public.
Proof.
  destruct (simulate demo_env role_request (start tt)) as [[e|resp] r'] eqn:E;
    [vm_compute in E; discriminate E|].
  exists resp. split; [reflexivity|].
  destruct (response_assembled demo_env role_request tt E) as (_ & _ & Hq & _ & Hh).
  split; [exact Hq|].
  vm_compute in E. injection E as <- _. reflexivity.
Defined.


(** X23 above at the text of the empty object with white space around
    it, and at a blank text. *)
Lemma query_text_as_value_witness :
  let ps := [("mode", Str "public"); ("collection", posts)] in
  (forall r, simulate staffed_env
               (mkRequest admin_context (Obj (assoc_set "query" (Str "  ") ps))) r
             = simulate staffed_env
                 (mkRequest admin_context (Obj (assoc_set "query" Undefined ps))) r) /\
  (forall r, simulate staffed_env
               (mkRequest admin_context (Obj (assoc_set "query" (Str " {} ") ps))) r
             = simulate staffed_env
                 (mkRequest admin_context (Obj (assoc_set "query" (Obj []) ps))) r).
Proof.
  intros ps. split.
  - apply (proj1 (query_text_as_value staffed_env admin_context ps "  ")).
    reflexivity.
  - apply (proj2 (query_text_as_value staffed_env admin_context ps " {} ") (Obj []));
      [discriminate | reflexivity | reflexivity].
Defined.

(** X24 above at a mode that is none of the four. *)
Lemma invalid_body_rejected_witness :
  fst (simulate demo_env bad_mode_request (start tt)) = inl BadRequestError /\
  log (snd (simulate demo_env bad_mode_request (start tt))) = [].
Proof.
  apply (proj1 (invalid_body_rejected demo_env bad_mode_request tt
                  (surjective_pairing _) eq_refl)).
  reflexivity.
Defined.

(** X25 above at the form of the role [r-user] on [posts]. *)
Lemma form_payload_accepted_witness :
  body_invalid demo_env
    (mkRequest admin_context (Ui.sent (Ui.payload role_form two_fields_query))) = false.
Proof.
  apply (proj1 (form_payload_accepted demo_env role_form two_fields_query admin_context tt
                  eq_refl eq_refl (surjective_pairing _))).
Defined.

(** X26 above at the role request. *)
Lemma role_and_public_contexts_witness :
  (forall acc c q o,
     In (EvRead SimulatedService acc c q o)
        (log (snd (simulate demo_env role_request (start tt)))) ->
     get acc "user" = Null /\ get acc "role" = Str "r-user") /\
  (forall resp, fst (simulate demo_env role_request (start tt)) = inr resp ->
     exists ws, r_warnings resp = warn_role_only :: ws).
Proof.
  destruct (proj1 (role_and_public_contexts demo_env role_request tt
                     (surjective_pairing _)) eq_refl) as (_ & Hacc & Hws).
  split; [exact Hacc | exact Hws].
Defined.
